(** * zeta-scale-go: the chunked summation engine and the pixel-space downsampler

    A shallow embedding of [cmd/spiral] (the version with
    [downsampleComplexSerial] and the parallel [downsampleComplex]):

    - Go [int] is a 64-bit two's complement integer, modelled as [Z] with the
      wrap-around written out ([GoInt]);
    - [complex128] arithmetic is taken through an interface ([ComplexArith]),
      so that the summation engine can be read both over IEEE binary64 pairs
      ([F64], the arithmetic the program runs on amd64, every operation
      rounded on its own) and over exact Gaussian rationals ([Exact]);
    - the downsampler is modelled directly over binary64 ([PrimFloat]);
    - library functions that are not part of the repository ([cmplx.Pow],
      [cmplx.Abs], the general case of [math.Pow], [runtime.NumCPU]) are
      parameters;
    - binary64 results of the engine are compared through their exact
      values, as whole multiples of [2^-1074] ([units]), with a rounding
      bound for one addition derived from the specification of the format
      ([Rounding]) and carried through the summation ([EngineRounding]);
    - goroutines write disjoint slots and are joined by a [WaitGroup] before
      any slot is read, so the fan-out is modelled as a map over the chunk
      indices; logging is not modelled;
    - the earlier channel-based command ([eulerMaclaurinWithLinks]) adds up
      what it receives in the goroutines' completion order, and is modelled
      by the set of its possible results ([Channels]);
    - the fixed-size [downsample] ([Grouping]), the delta encoding of
      [pkg/compression] ([Delta]) and [drawLine] of the Riemann-Siegel
      command ([Line]) are modelled over binary64 and [GoInt], a panic
      being [None]; the [int16] conversion of an out-of-range value is a
      parameter. *)

From Stdlib Require Import ZArith List Bool Lia Floats QArith Qround Qcanon.
From Stdlib Require Import Permutation.
Import ListNotations.

Set Warnings "-inexact-float".
Local Open Scope Z_scope.

(** ** Go's [int] on a 64-bit target *)
Module GoInt.

Definition min_int : Z := - 2 ^ 63.
Definition max_int : Z := 2 ^ 63 - 1.

Definition wrap (z : Z) : Z := (z + 2 ^ 63) mod 2 ^ 64 - 2 ^ 63.

Definition add (a b : Z) : Z := wrap (a + b).
Definition sub (a b : Z) : Z := wrap (a - b).
Definition mul (a b : Z) : Z := wrap (a * b).

(** Integer division truncates toward zero and panics on a zero divisor. *)
Definition div (a b : Z) : option Z :=
  if b =? 0 then None else Some (wrap (Z.quot a b)).

Definition in_range (z : Z) : Prop := min_int <= z <= max_int.

End GoInt.

(** ** Slices *)

(** [s[i] = f(s[i])] for an index in range (the program never writes out of
    range; out of range the list is left as it is). *)
Fixpoint update_at {A : Type} (i : nat) (f : A -> A) (l : list A) : list A :=
  match l, i with
  | [], _ => []
  | x :: r, O => f x :: r
  | x :: r, S i' => x :: update_at i' f r
  end.

(** [s[len(s)-1] = f(s[len(s)-1])], guarded by [len(s) > 0]. *)
Definition update_last {A : Type} (f : A -> A) (l : list A) : list A :=
  match l with
  | [] => []
  | _ :: _ => update_at (length l - 1) f l
  end.

(** ** The [complex128] operations the summation engine uses *)
Record ComplexArith : Type := {
  C : Type;
  czero : C;                (* complex(0, 0) *)
  cone : C;                 (* the constant 1 *)
  chalf : C;                (* the constant 0.5 *)
  cadd : C -> C -> C;
  csub : C -> C -> C;
  cneg : C -> C;
  cmul : C -> C -> C;
  cdiv : C -> C -> C;
  of_int : Z -> C;          (* complex(float64(k), 0) *)
  cmplx_Pow : C -> C -> C;  (* math/cmplx.Pow *)
  abs_int : C -> Z          (* int(cmplx.Abs(s)) *)
}.

(** The package-level variables [MinN], [MaxN] and [ChunkSize]. *)
Record Config : Type := {
  MinN : Z;
  MaxN : Z;
  ChunkSize : Z
}.

Definition defaultConfig : Config :=
  {| MinN := 100; MaxN := 65000000000; ChunkSize := 100000 |}.

Section Engine.

Variable A : ComplexArith.
Let C := C A.

(** The k-th term of the series, [cmplx.Pow(complex(float64(k), 0), -s)]. *)
Definition term (s : C) (k : Z) : C :=
  cmplx_Pow A (of_int A k) (cneg A s).

(** The loop [for k := start; k < end; k++] of [computePartialSumWithLinks],
    [n] iterations from [k] on. *)
Fixpoint sumLoop (s : C) (n : nat) (k : Z) (partialSum : C) (linkList : list C)
  : C * list C :=
  match n with
  | O => (partialSum, linkList)
  | S n' =>
      let partialSum' := cadd A partialSum (term s k) in
      sumLoop s n' (k + 1) partialSum' (linkList ++ [partialSum'])
  end.

Definition computePartialSumWithLinks (start end_ : Z) (s : C) : C * list C :=
  sumLoop s (Z.to_nat (end_ - start)) start (czero A) [].

(** [N := int(cmplx.Abs(s))], clamped to [MinN, MaxN]. *)
Definition clampN (cfg : Config) (n : Z) : Z :=
  if n <? MinN cfg then MinN cfg
  else if n >? MaxN cfg then MaxN cfg
  else n.

Definition termCount (cfg : Config) (s : C) : Z := clampN cfg (abs_int A s).

(** [numChunks := (N + ChunkSize - 1) / ChunkSize]. *)
Definition numChunks (cfg : Config) (N : Z) : option Z :=
  GoInt.div (GoInt.sub (GoInt.add N (ChunkSize cfg)) 1) (ChunkSize cfg).

(** The bounds of chunk [i], as the launching loop computes them. *)
Definition chunkBounds (cfg : Config) (N : Z) (i : Z) : Z * Z :=
  let start := GoInt.add (GoInt.mul i (ChunkSize cfg)) 1 in
  let end_ := GoInt.add start (ChunkSize cfg) in
  let end_ := if end_ >? N then N else end_ in
  (start, end_).

(** The chunks handed to the goroutines, in index order; [None] when the
    program panics (division by a zero [ChunkSize], or [make] with a negative
    length). *)
Definition chunkRanges (cfg : Config) (N : Z) : option (list (Z * Z)) :=
  match numChunks cfg N with
  | None => None
  | Some nc =>
      if nc <? 0 then None
      else Some (map (fun i => chunkBounds cfg N (Z.of_nat i))
                     (seq 0 (Z.to_nat nc)))
  end.

(** One step of the chaining loop: shift the chunk's links by the running
    sum, advance the running sum, append. *)
Definition chainStep (acc : C * list C) (chunk : C * list C) : C * list C :=
  let '(runningSum, chainedLinks) := acc in
  let '(partialSum, links) := chunk in
  let links' := map (fun l => cadd A l runningSum) links in
  (cadd A runningSum partialSum, chainedLinks ++ links').

Definition chain (chunks : list (C * list C)) : C * list C :=
  fold_left chainStep chunks (czero A, []).

(** The Euler-Maclaurin correction [term1 + term2]. *)
Definition term1 (N : Z) (s : C) : C :=
  cdiv A (cmplx_Pow A (of_int A N) (csub A (cone A) s)) (csub A s (cone A)).

Definition term2 (N : Z) (s : C) : C :=
  cmul A (chalf A) (cmplx_Pow A (of_int A N) (cneg A s)).

Definition correction (N : Z) (s : C) : C := cadd A (term1 N s) (term2 N s).

(** The state after the chaining loop: the running sum and the chained
    links, before any correction. *)
Definition chainedPartialSums (cfg : Config) (s : C) : option (C * list C) :=
  match chunkRanges cfg (termCount cfg s) with
  | None => None
  | Some ranges =>
      Some (chain (map (fun r => computePartialSumWithLinks (fst r) (snd r) s)
                       ranges))
  end.

Definition calculateSpiralPartialSums (cfg : Config) (s : C)
  : option (C * list C) :=
  let N := termCount cfg s in
  match chainedPartialSums cfg s with
  | None => None
  | Some (runningSum, chainedLinks) =>
      let totalSum := cadd A runningSum (correction N s) in
      Some (totalSum,
            update_last (fun l => cadd A l (correction N s)) chainedLinks)
  end.

(** The loop of [calculateSingleThreadedPartialSums]: [links[k] = partialSum]
    for [k] from 1 on. *)
Fixpoint singleLoop (s : C) (n : nat) (k : Z) (partialSum : C) (links : list C)
  : list C :=
  match n with
  | O => links
  | S n' =>
      let partialSum' := cadd A partialSum (term s k) in
      singleLoop s n' (k + 1) partialSum'
                 (update_at (Z.to_nat k) (fun _ => partialSum') links)
  end.

(** [None] when [make] panics on a negative [numLinks]. *)
Definition calculateSingleThreadedPartialSums (s : C) (numLinks : Z)
  : option (list C) :=
  if numLinks <? 0 then None
  else Some (singleLoop s (Z.to_nat (numLinks - 1)) 1 (czero A)
                        (repeat (czero A) (Z.to_nat numLinks))).

End Engine.

Arguments term {A}.
Arguments sumLoop {A}.
Arguments computePartialSumWithLinks {A}.
Arguments termCount {A}.
Arguments chainStep {A}.
Arguments chain {A}.
Arguments term1 {A}.
Arguments term2 {A}.
Arguments correction {A}.
Arguments chainedPartialSums {A}.
Arguments calculateSpiralPartialSums {A}.
Arguments singleLoop {A}.
Arguments calculateSingleThreadedPartialSums {A}.

(** ** IEEE binary64 helpers ([float64] and the [math] functions used) *)
Module F64.

Local Open Scope float_scope.

(** [float64(n)] for an integer [n]: rounded to nearest, ties to even. *)
Definition of_Z (n : Z) : float :=
  SF2Prim (binary_normalize prec emax n 0%Z false).

(** [int(f)] as amd64 executes it ([CVTTSD2SQ]): truncation toward zero, and
    the "integer indefinite" value [-2^63] for NaN and for values out of
    range (the language leaves those cases to the implementation). *)
Definition to_int (f : float) : Z :=
  match Prim2SF f with
  | S754_zero _ => 0%Z
  | S754_finite sg m e =>
      let mag := if (0 <=? e)%Z then (Zpos m * 2 ^ e)%Z
                 else (Zpos m / 2 ^ (- e))%Z in
      let v := if sg then (- mag)%Z else mag in
      if ((GoInt.min_int <=? v) && (v <=? GoInt.max_int))%Z then v
      else GoInt.min_int
  | _ => GoInt.min_int
  end.

Definition signbit (f : float) : bool := get_sign f.

(** [math.Max] and [math.Min], with their special cases. *)
Definition math_Max (x y : float) : float :=
  if (x =? infinity) || (y =? infinity) then infinity
  else if is_nan x || is_nan y then nan
  else if (x =? 0) && (x =? y) then (if signbit x then y else x)
  else if y <? x then x else y.

Definition math_Min (x y : float) : float :=
  if (x =? neg_infinity) || (y =? neg_infinity) then neg_infinity
  else if is_nan x || is_nan y then nan
  else if (x =? 0) && (x =? y) then (if signbit x then x else y)
  else if x <? y then x else y.

Definition math_Abs (x : float) : float := abs x.
Definition math_Sqrt (x : float) : float := sqrt x.

(** [math.Round]: nearest integer, halves away from zero, the sign kept. *)
Definition math_Round (x : float) : float :=
  match Prim2SF x with
  | S754_finite sg m e =>
      if (0 <=? e)%Z then x
      else
        let d := (2 ^ (- e))%Z in
        let q := (Zpos m / d)%Z in
        let r := (Zpos m mod d)%Z in
        let q' := if (d <=? 2 * r)%Z then (q + 1)%Z else q in
        if sg then - of_Z q' else of_Z q'
  | _ => x
  end.

(** [math.Pow]. The cases that return without entering the general
    algorithm are written out for a finite non-zero base; everything else
    (a zero or infinite base, an infinite exponent, and the general
    [Frexp]/[Exp]/[Log] computation) is left to [rest]. *)
Definition math_Pow (rest : float -> float -> float) (x y : float) : float :=
  if (y =? 0) || (x =? 1) then 1
  else if y =? 1 then x
  else if is_nan x || is_nan y then nan
  else if (x =? 0) || is_infinity x || is_infinity y then rest x y
  else if y =? 0.5 then math_Sqrt x
  else if y =? (-0.5) then 1 / math_Sqrt x
  else rest x y.

(** *** [complex128] *)
Definition complex : Type := float * float.

Definition real (z : complex) : float := fst z.
Definition imag (z : complex) : float := snd z.

Definition add (a b : complex) : complex :=
  (real a + real b, imag a + imag b).
Definition sub (a b : complex) : complex :=
  (real a - real b, imag a - imag b).
Definition neg (a : complex) : complex := (- real a, - imag a).
Definition mul (a b : complex) : complex :=
  (real a * real b - imag a * imag b, real a * imag b + imag a * real b).

Definition copysign (x s : float) : float :=
  if signbit s then - abs x else abs x.

Definition inf2one (f : float) : float :=
  if is_infinity f then copysign 1 f else copysign 0 f.

(** Division, as [runtime.complex128div] computes it (Smith's algorithm
    followed by the C99 G.5.1 fix-up of a NaN+NaNi result). *)
Definition div (n m : complex) : complex :=
  let '(e, f) :=
    if abs (imag m) <=? abs (real m) then
      let ratio := imag m / real m in
      let denom := real m + ratio * imag m in
      ((real n + imag n * ratio) / denom, (imag n - real n * ratio) / denom)
    else
      let ratio := real m / imag m in
      let denom := imag m + ratio * real m in
      ((real n * ratio + imag n) / denom, (imag n * ratio - real n) / denom) in
  if is_nan e && is_nan f then
    let a := real n in let b := imag n in
    let c := real m in let d := imag m in
    if ((c =? 0) && (d =? 0)) && (negb (is_nan a) || negb (is_nan b)) then
      (copysign infinity c * a, copysign infinity c * b)
    else if (is_infinity a || is_infinity b) && is_finite c && is_finite d then
      let a := inf2one a in let b := inf2one b in
      (infinity * (a * c + b * d), infinity * (b * c - a * d))
    else if (is_infinity c || is_infinity d) && is_finite a && is_finite b then
      let c := inf2one c in let d := inf2one d in
      (0 * (a * c + b * d), 0 * (b * c - a * d))
    else (e, f)
  else (e, f).

(** [complex(float64(k), 0)]. *)
Definition of_int (k : Z) : complex := (of_Z k, 0).

(** The engine's arithmetic over binary64, for given [cmplx.Pow] and
    [cmplx.Abs]. *)
Definition arith (cmplx_Pow : complex -> complex -> complex)
                 (cmplx_Abs : complex -> float) : ComplexArith :=
  Build_ComplexArith complex (0, 0) (1, 0) (0.5, 0) add sub neg mul div
                     of_int cmplx_Pow (fun s => to_int (cmplx_Abs s)).

(** Neither NaN nor an infinity in either component. *)
Definition finite (z : complex) : bool :=
  is_finite (real z) && is_finite (imag z).

End F64.

(** ** The pixel-space downsampler *)
Module Downsample.

Import F64.
Local Open Scope float_scope.

Record Bounds : Type := {
  minX : float; maxX : float; minY : float; maxY : float
}.

(** The view bounds: seeded with [links[0]], then widened by every link. *)
Definition widen (b : Bounds) (link : complex) : Bounds :=
  let x := real link in
  let y := imag link in
  {| minX := if x <? minX b then x else minX b;
     maxX := if maxX b <? x then x else maxX b;
     minY := if y <? minY b then y else minY b;
     maxY := if maxY b <? y then y else maxY b |}.

Definition viewBounds (first : complex) (links : list complex) : Bounds :=
  fold_left widen links
    {| minX := real first; maxX := real first;
       minY := imag first; maxY := imag first |}.

Definition relativeSpread (b : Bounds) : float :=
  let maxRange := math_Max (maxX b - minX b) (maxY b - minY b) in
  let baseRange := math_Max 0.01 maxRange in
  maxRange / baseRange.

(** [var sum complex128; for ... { sum += link }; sum / complex(len, 0)]. *)
Definition average (links : list complex) : complex :=
  div (fold_left add links (0, 0)) (of_Z (Z.of_nat (length links)), 0).

Record groupData : Type := {
  sum : complex;
  count : Z;
  pixelX : Z;
  pixelY : Z;
  lastLink : complex
}.

Definition flushGroup (g : groupData) : complex :=
  div (sum g) (of_Z (count g), 0).

(** What a worker reports, and what the merge keeps of it. *)
Record collectedResult : Type := {
  points : list complex;
  lastPoint : complex;
  lastPx : Z;
  lastPy : Z
}.

Section WithLibrary.

(** The general case of [math.Pow] and the value of [runtime.NumCPU()]. *)
Variable pow_rest : float -> float -> float.
Variable NumCPU : Z.

Definition Pow : float -> float -> float := math_Pow pow_rest.

Definition maxRelativeSpread (aggressiveness : float) : float :=
  let m := 0.0001 in
  let m := if 0 <? aggressiveness then m * Pow 5 aggressiveness else m in
  if 3.5 <? aggressiveness then
    let t := (aggressiveness - 3.5) / 0.5 in 0.03 + 0.02 * t
  else m.

Definition pixelSpreadThreshold (aggressiveness : float) : float :=
  if 0 <? aggressiveness then 1 + aggressiveness * 2 else 1.

Definition interpolationThreshold (aggressiveness : float) : float :=
  let thr := 1.1 * Pow 2.5 aggressiveness in
  if 3.5 <? aggressiveness then
    let t := (aggressiveness - 3.5) / 0.5 in 55 + 20 * t
  else thr.

(** The whole input is one visual point. *)
Definition collapses (links : list complex) (aggressiveness : float) : bool :=
  match links with
  | [] => false
  | first :: _ =>
      relativeSpread (viewBounds first links)
        <=? maxRelativeSpread aggressiveness
  end.

Definition pixelForLink (b : Bounds) (outputSize : Z) (link : complex)
  : Z * Z :=
  let normalizedX := (real link - minX b) / (maxX b - minX b) in
  let normalizedY := (imag link - minY b) / (maxY b - minY b) in
  (to_int (math_Round (normalizedX * of_Z outputSize)),
   to_int (math_Round (normalizedY * of_Z outputSize))).

Definition newGroup (b : Bounds) (outputSize : Z) (link : complex)
  : groupData :=
  let '(px, py) := pixelForLink b outputSize link in
  {| sum := link; count := 1; pixelX := px; pixelY := py; lastLink := link |}.

(** [math.Sqrt(float64(dx*dx + dy*dy))]. *)
Definition pixelGap (dx dy : Z) : float :=
  math_Sqrt (of_Z (GoInt.add (GoInt.mul dx dx) (GoInt.mul dy dy))).

(** The number of points to synthesize across a gap. *)
Definition interpSteps (aggressiveness gap : float) : Z :=
  let steps := to_int (gap / Pow 2 (math_Min aggressiveness 3.5)) in
  if 3.5 <? aggressiveness then
    let t := (aggressiveness - 3.5) / 0.5 in
    to_int (of_Z steps * (1 - 0.5 * t))
  else steps.

(** [for s := 1; s <= steps; s++]: evenly spaced points strictly between
    [from] and [to]. *)
Definition interpolate (from to : complex) (steps : Z) : list complex :=
  map (fun s =>
         let t := of_Z (Z.of_nat s) / of_Z (GoInt.add steps 1) in
         add (mul from (sub (1, 0) (t, 0))) (mul to (t, 0)))
      (seq 1 (Z.to_nat steps)).

(** The points inserted after a flushed group when the gap
    [(dx, dy)] exceeds the interpolation threshold. *)
Definition gapFill (aggressiveness : float) (dx dy : Z) (from to : complex)
  : list complex :=
  let gap := pixelGap dx dy in
  if interpolationThreshold aggressiveness <? gap then
    interpolate from to (interpSteps aggressiveness gap)
  else [].

Definition sameGroup (aggressiveness : float) (g : groupData) (px py : Z)
  : bool :=
  ((px =? pixelX g)%Z && (py =? pixelY g)%Z)
  || ((math_Abs (of_Z (GoInt.sub px (pixelX g)))
         <=? pixelSpreadThreshold aggressiveness)
      && (math_Abs (of_Z (GoInt.sub py (pixelY g)))
            <=? pixelSpreadThreshold aggressiveness)).

(** The grouping loop over the links after the first, shared by the serial
    reducer and by every worker of the parallel one: the current group and
    the points emitted so far. *)
Fixpoint walk (b : Bounds) (outputSize : Z) (aggressiveness : float)
  (links : list complex) (currentGroup : groupData) (out : list complex)
  : list complex * groupData :=
  match links with
  | [] => (out, currentGroup)
  | link :: rest =>
      let '(px, py) := pixelForLink b outputSize link in
      if sameGroup aggressiveness currentGroup px py then
        walk b outputSize aggressiveness rest
          {| sum := add (sum currentGroup) link;
             count := GoInt.add (count currentGroup) 1;
             pixelX := pixelX currentGroup;
             pixelY := pixelY currentGroup;
             lastLink := link |}
          out
      else
        let out := out ++ [flushGroup currentGroup] in
        let dx := GoInt.sub px (pixelX currentGroup) in
        let dy := GoInt.sub py (pixelY currentGroup) in
        let out :=
          out ++ gapFill aggressiveness dx dy (lastLink currentGroup) link in
        walk b outputSize aggressiveness rest
          {| sum := link; count := 1; pixelX := px; pixelY := py;
             lastLink := link |}
          out
  end.

Definition downsampleComplexSerial (links : list complex) (outputSize : Z)
  (aggressiveness : float) (debug : bool) : list complex :=
  match links with
  | [] => links
  | first :: rest =>
      let b := viewBounds first links in
      if relativeSpread b <=? maxRelativeSpread aggressiveness then
        [average links]
      else
        let '(downsampled, finalGroup) :=
          walk b outputSize aggressiveness rest
               (newGroup b outputSize first) [] in
        downsampled ++ [flushGroup finalGroup]
  end.

(** One worker, on [links[start:end]]. *)
Definition processChunk (b : Bounds) (outputSize : Z) (aggressiveness : float)
  (chunk : list complex) : collectedResult :=
  match chunk with
  | [] => {| points := []; lastPoint := (0, 0); lastPx := 0; lastPy := 0 |}
  | first :: rest =>
      let '(chunkPoints, finalGroup) :=
        walk b outputSize aggressiveness rest
             (newGroup b outputSize first) [] in
      {| points := chunkPoints ++ [flushGroup finalGroup];
         lastPoint := lastLink finalGroup;
         lastPx := pixelX finalGroup;
         lastPy := pixelY finalGroup |}
  end.

(** The slice handed to worker [w]. *)
Definition chunkOf (links : list complex) (chunkSize : Z) (w : Z)
  : list complex :=
  let len := Z.of_nat (length links) in
  let start := GoInt.mul w chunkSize in
  let end_ := GoInt.add start chunkSize in
  let end_ := if (end_ >? len)%Z then len else end_ in
  if (start >=? end_)%Z then []
  else firstn (Z.to_nat (end_ - start)) (skipn (Z.to_nat start) links).

(** The merge loop over [collected], in index order. *)
Fixpoint mergeChunks (aggressiveness : float)
  (collected : list collectedResult) (finalPoints : list complex)
  : list complex :=
  match collected with
  | [] => finalPoints
  | c :: rest =>
      match points c with
      | [] => mergeChunks aggressiveness rest finalPoints
      | _ :: _ =>
          let finalPoints := finalPoints ++ points c in
          let finalPoints :=
            match rest with
            | next :: _ =>
                match points next with
                | [] => finalPoints
                | nextFirstPoint :: _ =>
                    let dx := GoInt.sub (lastPx next) (lastPx c) in
                    let dy := GoInt.sub (lastPy next) (lastPy c) in
                    finalPoints
                      ++ gapFill aggressiveness dx dy
                           (lastPoint c) nextFirstPoint
                end
            | [] => finalPoints
            end in
          mergeChunks aggressiveness rest finalPoints
      end
  end.

(** The results the workers send, stored by worker index. *)
Definition collect (b : Bounds) (outputSize : Z) (aggressiveness : float)
  (links : list complex) : list collectedResult :=
  let numWorkers := NumCPU in
  let chunkSize :=
    Z.quot (GoInt.sub (GoInt.add (Z.of_nat (length links)) numWorkers) 1)
           numWorkers in
  map (fun w =>
         processChunk b outputSize aggressiveness
           (chunkOf links chunkSize (Z.of_nat w)))
      (seq 0 (Z.to_nat numWorkers)).

Definition downsampleComplex (links : list complex) (outputSize : Z)
  (aggressiveness : float) (debug : bool) : list complex :=
  if (Z.of_nat (length links) <? 10000)%Z then
    downsampleComplexSerial links outputSize aggressiveness debug
  else
    match links with
    | [] => []
    | first :: _ =>
        let b := viewBounds first links in
        if relativeSpread b <=? maxRelativeSpread aggressiveness then
          [average links]
        else
          mergeChunks aggressiveness
            (collect b outputSize aggressiveness links) []
    end.

End WithLibrary.

End Downsample.

(** ** Exact arithmetic: Gaussian rationals

    The same engine over [Qc * Qc], where addition is associative and nothing
    is rounded.  [Pow] is exact at integer exponents (the series
    [sum 1/k^n]); other exponents have no rational value and give 0. *)
Module Exact.

Local Open Scope Qc_scope.

Definition complex : Type := (Qc * Qc)%type.

Definition add (a b : complex) : complex := (fst a + fst b, snd a + snd b).
Definition sub (a b : complex) : complex := (fst a - fst b, snd a - snd b).
Definition neg (a : complex) : complex := (- fst a, - snd a).
Definition mul (a b : complex) : complex :=
  (fst a * fst b - snd a * snd b, fst a * snd b + snd a * fst b).
Definition div (n m : complex) : complex :=
  let d := fst m * fst m + snd m * snd m in
  ((fst n * fst m + snd n * snd m) / d, (snd n * fst m - fst n * snd m) / d).

Definition of_int (k : Z) : complex := (Q2Qc (inject_Z k), 0).

Fixpoint pow_nat (x : complex) (n : nat) : complex :=
  match n with
  | O => (1, 0)
  | S n' => mul x (pow_nat x n')
  end.

Definition Pow (x y : complex) : complex :=
  if Qc_eq_bool (snd y) 0 && (Qden (this (fst y)) =? 1)%positive then
    let n := Qnum (this (fst y)) in
    if (0 <=? n)%Z then pow_nat x (Z.to_nat n)
    else div (1, 0) (pow_nat x (Z.to_nat (- n)))
  else (0, 0).

(** [int(|s|)]: the integer part of [sqrt(re^2 + im^2)]. *)
Definition abs_int (s : complex) : Z :=
  Z.sqrt (Qfloor (this (fst s * fst s + snd s * snd s))).

Definition arith : ComplexArith :=
  Build_ComplexArith complex (0, 0) (1, 0) (Q2Qc (1 # 2), 0)
                     add sub neg mul div of_int Pow abs_int.

(** The exponent 2: the series [sum 1/k^2]. *)
Definition two : C arith := (Q2Qc 2, Q2Qc 0).

End Exact.

(** ** Specification-level notions *)

(** Addition is that of a commutative monoid: what exact complex arithmetic
    gives, and what rounding takes away. *)
Record ExactAdd (A : ComplexArith) : Prop := {
  cadd_assoc : forall x y z : C A,
    cadd A x (cadd A y z) = cadd A (cadd A x y) z;
  cadd_comm : forall x y : C A, cadd A x y = cadd A y x;
  cadd_0_l : forall x : C A, cadd A (czero A) x = x
}.

Section Sums.

Variable A : ComplexArith.

(** [acc + term k + term (k+1) + ... ], [n] terms, added left to right. *)
Fixpoint sumTerms (s : C A) (n : nat) (k : Z) (acc : C A) : C A :=
  match n with
  | O => acc
  | S n' => sumTerms s n' (k + 1) (cadd A acc (term s k))
  end.

(** The successive values of that accumulation. *)
Fixpoint prefixSums (s : C A) (n : nat) (k : Z) (acc : C A) : list (C A) :=
  match n with
  | O => []
  | S n' =>
      let acc' := cadd A acc (term s k) in
      acc' :: prefixSums s n' (k + 1) acc'
  end.

(** The plain cumulative sum of the terms [1..m]. *)
Definition cumulativeSum (s : C A) (m : nat) : C A :=
  sumTerms s m 1 (czero A).

(** What the goroutines leave in [partialSums] and [allChunkLinks]. *)
Definition chunkResults (s : C A) (chunks : list (Z * Z))
  : list (C A * list (C A)) :=
  map (fun r => computePartialSumWithLinks (fst r) (snd r) s) chunks.

End Sums.

Arguments sumTerms {A}.
Arguments prefixSums {A}.
Arguments cumulativeSum {A}.

(** Half-open ranges that follow one another from [lo] to [hi]: each starts
    where the previous one ends, so they cover [lo, hi) with no overlap and
    no gap, in increasing order. *)
Fixpoint tiles (lo hi : Z) (chunks : list (Z * Z)) : Prop :=
  match chunks with
  | [] => lo = hi
  | (a, b) :: rest => a = lo /\ a <= b /\ tiles b hi rest
  end.

(** Chunk [i] without the wrap-around: [[i*W + 1, min (i*W + 1 + W) N)]. *)
Definition idealChunk (cfg : Config) (N : Z) (i : nat) : Z * Z :=
  (Z.of_nat i * ChunkSize cfg + 1,
   Z.min (Z.of_nat i * ChunkSize cfg + 1 + ChunkSize cfg) N).

(** The engine's preconditions on its integers: at least one term index, a
    positive chunk width, and no overflow in [N + ChunkSize]. *)
Definition validRun (cfg : Config) (N : Z) : Prop :=
  1 <= N /\ 1 <= ChunkSize cfg /\ N + ChunkSize cfg <= GoInt.max_int.

(** Both components within [tol] (the tests' [cmplxEquals]). *)
Definition cmplxEquals (a b : F64.complex) (tol : float) : bool :=
  (F64.math_Abs (F64.real a - F64.real b) <=? tol)%float
  && (F64.math_Abs (F64.imag a - F64.imag b) <=? tol)%float.

(** A binary64 value that is a NaN or an infinity. *)
Definition nonfinite (x : float) : Prop :=
  Prim2SF x = S754_nan \/ exists sg, Prim2SF x = S754_infinity sg.


(** ** Fixed-size grouping: [downsample] *)
Module Grouping.

Local Open Scope float_scope.

Record Point : Type := { X : float; Y : float }.

(** [points[j]]; [None] is the index-out-of-range panic. *)
Definition index (points : list Point) (j : Z) : option Point :=
  if (j <? 0)%Z then None else nth_error points (Z.to_nat j).

(** [for j := start; j < end; j++ { sumX += points[j].X; sumY += ... }],
    [n] iterations from [j] on. *)
Fixpoint sumGroup (points : list Point) (n : nat) (j : Z) (sumX sumY : float)
  : option (float * float) :=
  match n with
  | O => Some (sumX, sumY)
  | S n' =>
      match index points j with
      | None => None
      | Some p => sumGroup points n' (j + 1) (sumX + X p) (sumY + Y p)
      end
  end.

(** The outer loop, [n] iterations from group [i] on. *)
Fixpoint groupLoop (points : list Point) (groupSize : Z) (n : nat) (i : Z)
  (result : list Point) : option (list Point) :=
  match n with
  | O => Some result
  | S n' =>
      let start := GoInt.mul i groupSize in
      let end_ := GoInt.add start groupSize in
      match sumGroup points (Z.to_nat (end_ - start)) start 0 0 with
      | None => None
      | Some (sumX, sumY) =>
          groupLoop points groupSize n' (i + 1)
            (result ++ [{| X := sumX / F64.of_Z groupSize;
                           Y := sumY / F64.of_Z groupSize |}])
      end
  end.

(** [None] when the program panics: [n / groupSize] with a zero
    [groupSize], [make] with a negative capacity, or an index out of
    range. *)
Definition downsample (points : list Point) (groupSize : Z)
  : option (list Point) :=
  match GoInt.div (Z.of_nat (length points)) groupSize with
  | None => None
  | Some outputCount =>
      if (outputCount <? 0)%Z then None
      else groupLoop points groupSize (Z.to_nat outputCount) 0 []
  end.

(** The mean of one group, as the inner loop and the division compute
    it. *)
Definition groupMean (groupSize : Z) (group : list Point) : Point :=
  let sums :=
    fold_left (fun acc p => (fst acc + X p, snd acc + Y p)) group (0, 0) in
  {| X := fst sums / F64.of_Z groupSize; Y := snd sums / F64.of_Z groupSize |}.

(** The means of the first [count] consecutive groups of [g] points. *)
Fixpoint groupMeans (groupSize : Z) (g count : nat) (points : list Point)
  : list Point :=
  match count with
  | O => []
  | S c =>
      groupMean groupSize (firstn g points)
      :: groupMeans groupSize g c (skipn g points)
  end.

End Grouping.


(** ** The order of binary64 values, by rank

    A non-NaN value is ranked by a triple compared lexicographically:
    its class (negative infinity, negative, zero, positive, positive
    infinity), then its exponent and its mantissa (negated for a negative
    value).  Both zeros have the same rank. *)
Definition rank (f : spec_float) : Z * Z * Z :=
  match f with
  | S754_nan => (0, 0, 0)
  | S754_zero _ => (0, 0, 0)
  | S754_infinity true => (-2, 0, 0)
  | S754_infinity false => (2, 0, 0)
  | S754_finite true m e => (-1, - e, - Zpos m)
  | S754_finite false m e => (1, e, Zpos m)
  end.

Definition lexlt (a b : Z * Z * Z) : Prop :=
  fst (fst a) < fst (fst b)
  \/ (fst (fst a) = fst (fst b)
      /\ (snd (fst a) < snd (fst b)
          \/ (snd (fst a) = snd (fst b) /\ snd a < snd b))).

Definition lexle (a b : Z * Z * Z) : Prop :=
  fst (fst a) < fst (fst b)
  \/ (fst (fst a) = fst (fst b)
      /\ (snd (fst a) < snd (fst b)
          \/ (snd (fst a) = snd (fst b) /\ snd a <= snd b))).

(** A link that lies inside the view bounds. *)
Definition insideBounds (b : Downsample.Bounds) (link : F64.complex) : Prop :=
  (Downsample.minX b <=? F64.real link)%float = true
  /\ (F64.real link <=? Downsample.maxX b)%float = true
  /\ (Downsample.minY b <=? F64.imag link)%float = true
  /\ (F64.imag link <=? Downsample.maxY b)%float = true.

(** A link with no NaN coordinate. *)
Definition noNaN (link : F64.complex) : Prop :=
  is_nan (F64.real link) = false /\ is_nan (F64.imag link) = false.

(** The rank of a binary64 value. *)
Definition rankOf (x : float) : Z * Z * Z := rank (Prim2SF x).

(** View bounds none of which is a NaN. *)
Definition wellFormed (b : Downsample.Bounds) : Prop :=
  is_nan (Downsample.minX b) = false /\ is_nan (Downsample.maxX b) = false
  /\ is_nan (Downsample.minY b) = false /\ is_nan (Downsample.maxY b) = false.


(** ** The channel-based engine: [eulerMaclaurinWithLinks]

    The earlier command sends every chunk's partial sum and links on two
    buffered channels and adds them up in the order they arrive.  That order
    is the goroutines' completion order, so the function is modelled by the
    set of its possible results. *)
Module Channels.

(** [MinN], [MaxN] and [ChunkSize] are constants in this command. *)
Definition constants : Config :=
  {| MinN := 100; MaxN := 1000000; ChunkSize := 1000 |}.

(** [for start := 1; start < N; start += ChunkSize]: the ranges handed to
    the goroutines, in launch order; [None] when [fuel] iterations do not
    reach the end of the loop. *)
Fixpoint launchLoop (fuel : nat) (cfg : Config) (N start : Z)
  : option (list (Z * Z)) :=
  match fuel with
  | O => None
  | S fuel' =>
      if start <? N then
        let end_ := GoInt.add start (ChunkSize cfg) in
        let end_ := if end_ >? N then N else end_ in
        match launchLoop fuel' cfg N (GoInt.add start (ChunkSize cfg)) with
        | None => None
        | Some rest => Some ((start, end_) :: rest)
        end
      else Some []
  end.

(** The capacity of both channels, [(N + ChunkSize - 1) / ChunkSize]. *)
Definition capacity (cfg : Config) (N : Z) : option Z := numChunks cfg N.

Section Outcomes.

Variable A : ComplexArith.

(** [(totalSum, allLinks)] is a possible result: the partial sums are added
    in some arrival order, the link lists are appended in some (other)
    arrival order, and the correction is added to the total. *)
Definition outcome (fuel : nat) (cfg : Config) (s : C A)
  (r : C A * list (C A)) : Prop :=
  exists chunks received receivedLinks,
    launchLoop fuel cfg (termCount cfg s) 1 = Some chunks
    /\ Permutation.Permutation received (map fst (chunkResults A s chunks))
    /\ Permutation.Permutation receivedLinks
         (map snd (chunkResults A s chunks))
    /\ r = (cadd A (fold_left (cadd A) received (czero A))
                   (correction (termCount cfg s) s),
            concat receivedLinks).

End Outcomes.

End Channels.


(** ** Delta encoding: [CompressWithDelta] and [Decompress] *)
Module Delta.

Import F64.
Local Open Scope float_scope.

Record DeltaCompressed : Type := {
  StartX : float;
  StartY : float;
  ScaleX : float;
  ScaleY : float;
  NumPoints : Z;          (* uint32 *)
  Deltas : list Z         (* []int16 *)
}.

Section WithConversion.

(** [int16(f)] for a [float64]: truncation toward zero in range, left to
    the implementation out of range. *)
Variable int16_of : float -> Z.

(** The first pass: the ranges of the successive differences. *)
Fixpoint deltaRanges (prev : complex) (rest : list complex)
  (r : float * float * float * float) : float * float * float * float :=
  match rest with
  | [] => r
  | p :: rest' =>
      let '(minDx, maxDx, minDy, maxDy) := r in
      let dx := real p - real prev in
      let dy := imag p - imag prev in
      deltaRanges p rest'
        (math_Min minDx dx, math_Max maxDx dx,
         math_Min minDy dy, math_Max maxDy dy)
  end.

(** The second pass: [Deltas[(i-1)*2]] and [Deltas[(i-1)*2+1]] for
    [i = 1 .. len-1]. *)
Fixpoint encodeDeltas (prev : complex) (rest : list complex)
  (scaleX scaleY : float) : list Z :=
  match rest with
  | [] => []
  | p :: rest' =>
      int16_of ((real p - real prev) / scaleX)
      :: int16_of ((imag p - imag prev) / scaleY)
      :: encodeDeltas p rest' scaleX scaleY
  end.

Definition scaleOf (lo hi : float) : float :=
  let sc := math_Max (math_Abs lo) (math_Abs hi) / 29000 in
  if sc =? 0 then 1 else sc.

(** [None] is the [nil] the function returns, with a [nil] error, for an
    empty input. *)
Definition CompressWithDelta (points : list complex)
  : option DeltaCompressed :=
  match points with
  | [] => None
  | first :: rest =>
      let '(minDx, maxDx, minDy, maxDy) :=
        deltaRanges first rest (0, 0, 0, 0) in
      let scaleX := scaleOf minDx maxDx in
      let scaleY := scaleOf minDy maxDy in
      Some {| StartX := real first;
              StartY := imag first;
              ScaleX := scaleX;
              ScaleY := scaleY;
              NumPoints := (Z.of_nat (length points) mod 2 ^ 32)%Z;
              Deltas := encodeDeltas first rest scaleX scaleY |}
  end.

End WithConversion.

(** [for i := 1; i < int(c.NumPoints); i++], [n] iterations from [i] on;
    [None] is the index-out-of-range panic. *)
Fixpoint decodeLoop (c : DeltaCompressed) (n : nat) (i : Z) (prev : complex)
  : option (list complex) :=
  match n with
  | O => Some []
  | S n' =>
      match nth_error (Deltas c) (Z.to_nat ((i - 1) * 2)),
            nth_error (Deltas c) (Z.to_nat ((i - 1) * 2 + 1)) with
      | Some qx, Some qy =>
          let p := (real prev + of_Z qx * ScaleX c,
                    imag prev + of_Z qy * ScaleY c) in
          match decodeLoop c n' (i + 1) p with
          | None => None
          | Some ps => Some (p :: ps)
          end
      | _, _ => None
      end
  end.

(** [None] when the method panics ([points[0]] on an empty slice, or a
    delta index out of range). *)
Definition Decompress (c : DeltaCompressed) : option (list complex) :=
  if (NumPoints c =? 0)%Z then None
  else
    match decodeLoop c (Z.to_nat (NumPoints c - 1)) 1 (StartX c, StartY c) with
    | None => None
    | Some ps => Some ((StartX c, StartY c) :: ps)
    end.

End Delta.

(** ** Line drawing: [drawLine] of the Riemann-Siegel command *)
Module Line.

Import F64.

(** The [for] loop: the pixels passed to [img.Set], in order ([Set] leaves
    the image alone for a pixel outside it, so no call panics); [None] when
    [fuel] iterations do not reach the [break]. *)
Fixpoint lineLoop (fuel : nat) (dx dy : float) (sx sy x1 y1 : Z)
  (x0 y0 errVal : Z) : option (list (Z * Z)) :=
  match fuel with
  | O => None
  | S fuel' =>
      if (x0 =? x1) && (y0 =? y1) then Some [(x0, y0)]
      else
        let e2 := GoInt.mul 2 errVal in
        let stepX := e2 >? GoInt.sub 0 (to_int dy) in
        let errVal := if stepX then GoInt.sub errVal (to_int dy) else errVal in
        let x0' := if stepX then GoInt.add x0 sx else x0 in
        let stepY := e2 <? to_int dx in
        let errVal := if stepY then GoInt.add errVal (to_int dx) else errVal in
        let y0' := if stepY then GoInt.add y0 sy else y0 in
        match lineLoop fuel' dx dy sx sy x1 y1 x0' y0' errVal with
        | None => None
        | Some ps => Some ((x0, y0) :: ps)
        end
  end.

Definition deltaX (x0 x1 : Z) : float := math_Abs (of_Z (GoInt.sub x1 x0)).

Definition drawLine (fuel : nat) (x0 y0 x1 y1 : Z)
  : option (list (Z * Z)) :=
  let dx := deltaX x0 x1 in
  let dy := deltaX y0 y1 in
  let sx := if x0 <? x1 then 1 else -1 in
  let sy := if y0 <? y1 then 1 else -1 in
  let errVal := to_int (dx - dy)%float in
  lineLoop fuel dx dy sx sy x1 y1 x0 y0 errVal.

(** The conversions to [float64] and back give the integer distances. *)
Definition exactDeltas (x0 y0 x1 y1 : Z) : Prop :=
  to_int (deltaX x0 x1) = Z.abs (x1 - x0)
  /\ to_int (deltaX y0 y1) = Z.abs (y1 - y0)
  /\ to_int (deltaX x0 x1 - deltaX y0 y1)%float
     = Z.abs (x1 - x0) - Z.abs (y1 - y0).

(** [q] is one step from [p] towards [(x1, y1)]: each coordinate stays or
    moves by one towards the target's, and at least one moves. *)
Definition towards (x1 y1 : Z) (p q : Z * Z) : Prop :=
  (fst q = fst p \/ fst q = fst p + Z.sgn (x1 - fst p))
  /\ (snd q = snd p \/ snd q = snd p + Z.sgn (y1 - snd p))
  /\ q <> p.

(** Every element is in relation [R] with the next. *)
Fixpoint chain {T : Type} (R : T -> T -> Prop) (l : list T) : Prop :=
  match l with
  | p :: (q :: _) as rest => R p q /\ chain R rest
  | _ => True
  end.

(** *** A check of the conversions over the coordinates of an image

    [plotLinks] draws in an image of 2048 by 2048 pixels.  The conversions
    of [drawLine] are checked on every pair of distances that can occur
    there, one diagonal of the table of differences at a time. *)

(** [float64(k)] for [k = 0 .. n-1], and [float64(-k)]. *)
Definition floatsUpTo (n : nat) : list float :=
  map (fun k => of_Z (Z.of_nat k)) (seq 0 n).

Definition floatsDownTo (n : nat) : list float :=
  map (fun k => of_Z (- Z.of_nat k)) (seq 0 n).

(** Along one diagonal: [hi[i] - lo[i]] is [fd] and [lo[i] - hi[i]] is
    [nfd], for every [i]. *)
Fixpoint checkRow (fd nfd : float) (hi lo : list float) : bool :=
  match hi, lo with
  | fa :: hi', fb :: lo' =>
      PrimFloat.Leibniz.eqb (fa - fb)%float fd
      && PrimFloat.Leibniz.eqb (fb - fa)%float nfd
      && checkRow fd nfd hi' lo'
  | _, _ => true
  end.

(** All diagonals: the [d]-th compares [hi] shifted by [d] with [lo]. *)
Fixpoint checkDiagonals (pd nd hi lo : list float) : bool :=
  match pd, nd with
  | fd :: pd', nfd :: nd' =>
      checkRow fd nfd hi lo && checkDiagonals pd' nd' (tl hi) lo
  | _, _ => true
  end.

Definition differencesExact (n : nat) : bool :=
  checkDiagonals (floatsUpTo n) (floatsDownTo n) (floatsUpTo n)
                 (floatsUpTo n).

(** [math.Abs] and [int] on [float64(k)] and [float64(-k)]. *)
Definition roundTripsExact (n : nat) : bool :=
  forallb (fun k =>
             let z := Z.of_nat k in
             PrimFloat.Leibniz.eqb (math_Abs (of_Z z)) (of_Z z)
             && PrimFloat.Leibniz.eqb (math_Abs (of_Z (- z))) (of_Z z)
             && (to_int (of_Z z) =? z)
             && (to_int (of_Z (- z)) =? - z))
          (seq 0 n).

End Line.

(** ** Values and tolerances of binary64 results *)

(** The value of a finite [float64], in units of [2^-1074] (the least
    positive value of the format): every finite binary64 number is a whole
    number of such units.  A NaN or an infinity has no value; [units] is 0
    there, and the statements that use it ask for finite numbers. *)
Definition units (x : float) : Z :=
  match Prim2SF x with
  | S754_finite sg m e => (if sg then - Zpos m else Zpos m) * 2 ^ (e + 1074)
  | _ => 0
  end.

(** [|x - v| <= num * 2^-53 * mag], with the exact value [v] and the
    magnitude [mag] in units. *)
Definition closeTo (num mag : Z) (x : float) (v : Z) : Prop :=
  2 ^ 53 * Z.abs (units x - v) <= num * mag.

(** The tolerance of the engine's results for [N] term indices, as a
    multiple of [2^-53]. *)
Definition tolerance (N : Z) : Z := 8 * N + 4.

Section TermSums.

Variable A : ComplexArith.
Variable proj : C A -> float.
Variable s : C A.

(** The exact sum of one component of the [n] terms from index [k] on, and
    the sum of their magnitudes, in units. *)
Fixpoint termSum (n : nat) (k : Z) : Z :=
  match n with
  | O => 0
  | S n' => units (proj (term s k)) + termSum n' (k + 1)
  end.

Fixpoint termMag (n : nat) (k : Z) : Z :=
  match n with
  | O => 0
  | S n' => Z.abs (units (proj (term s k))) + termMag n' (k + 1)
  end.

End TermSums.

(** One instance of the library parameters, for concrete runs of the
    engine: a [cmplx.Pow] that returns the twelfth power of a real base by
    repeated squaring (the terms [k^12] of the exponent [-12]), and the
    modulus of a real number. *)
Module Powers.

Local Open Scope float_scope.

Definition twelfth (x y : F64.complex) : F64.complex :=
  let a := F64.real x in
  let a2 := a * a in
  let a4 := a2 * a2 in
  let a8 := a4 * a4 in
  (a8 * a4, 0).

Definition realAbs (z : F64.complex) : float := F64.math_Abs (F64.real z).

Definition arith : ComplexArith := F64.arith twelfth realAbs.

(** The exponent [-12], and 23 term indices in chunks of 11 and of 7. *)
Definition exponent : C arith := (-12, 0).

Definition chunksOf11 : Config :=
  {| MinN := 23; MaxN := 23; ChunkSize := 11 |}.

Definition chunksOf7 : Config :=
  {| MinN := 23; MaxN := 23; ChunkSize := 7 |}.

End Powers.

(** ** Rounding in binary64, on the specification of the format *)
Module RoundingDefs.

(** The value of a number of the format, in units of [2^-1074]. *)
Definition sunits (f : spec_float) : Z :=
  match f with
  | S754_finite sg m e => (if sg then - Zpos m else Zpos m) * 2 ^ (e + 1074)
  | _ => 0
  end.

Definition sfinite (f : spec_float) : bool :=
  match f with
  | S754_zero _ | S754_finite _ _ _ => true
  | _ => false
  end.

(** The state after [k+1] one-bit shifts of an exact mantissa [m0]: the
    quotient, and the round and sticky bits that locate the remainder with
    respect to the half-way point [2^k]. *)
Definition shifted (m0 : Z) (k : nat) (q : Z) (r s : bool) : Prop :=
  exists rem,
    0 <= q
    /\ m0 = q * (2 * 2 ^ Z.of_nat k) + rem
    /\ 0 <= rem < 2 * 2 ^ Z.of_nat k
    /\ (r = true <-> 2 ^ Z.of_nat k <= rem)
    /\ (s = true <-> rem <> 0 /\ rem <> 2 ^ Z.of_nat k).

(** [x] approximates the exact value [v], of magnitude at most [mag], after
    at most [n] rounded additions. *)
Definition near (n mag : Z) (x : float) (v : Z) : Prop :=
  Z.abs v <= mag /\ closeTo (2 * n) mag x v.

End RoundingDefs.

(** ** The inputs of the downsampler's tests, and two more *)
Module Inputs.

Local Open Scope float_scope.

(** [TestDownsampleComplex_SamePixel]. *)
Definition samePixel : list F64.complex :=
  [(1, 1); (1.0001, 1.0001); (1.0002, 1.0002)].

(** [TestDownsampleComplex_Interpolate]. *)
Definition farApart : list F64.complex := [(1, 1); (100, 100)].

(** Points on the diagonal whose pixels, at resolution 5, are
    0, 3, 5, 1, 5, 1, 5, 1. *)
Definition zigzag : list F64.complex :=
  [(0, 0); (3, 3); (5, 5); (1, 1); (5, 5); (1, 1); (5, 5); (1, 1)].

(** 10000 points: 9999 at the origin, then one at [100+100i]. *)
Definition boundary : list F64.complex :=
  repeat (0, 0) (Z.to_nat 9999) ++ [(100, 100)].

End Inputs.

(** * Properties *)

(** ** Integers in range do not wrap *)
Module GoIntFacts.

Import GoInt.

Lemma wrap_small (z : Z) : in_range z -> wrap z = z.
Proof.
  unfold in_range, min_int, max_int, wrap. intros H.
  rewrite Z.mod_small by lia. lia.
Qed.

Lemma add_small (a b : Z) : in_range (a + b) -> add a b = a + b.
Proof. apply wrap_small. Qed.

Lemma sub_small (a b : Z) : in_range (a - b) -> sub a b = a - b.
Proof. apply wrap_small. Qed.

Lemma mul_small (a b : Z) : in_range (a * b) -> mul a b = a * b.
Proof. apply wrap_small. Qed.

Lemma div_pos (a b : Z) :
  0 <= a <= max_int -> 0 < b -> div a b = Some (a / b).
Proof.
  intros Ha Hb. unfold div.
  destruct (Z.eqb_spec b 0) as [-> | _]; [lia |].
  rewrite Z.quot_div_nonneg by lia.
  rewrite wrap_small; [reflexivity |].
  assert (0 <= a / b) by (apply Z.div_pos; lia).
  assert (a / b <= a) by (apply Z.div_le_upper_bound; nia).
  unfold in_range, min_int, max_int in *. lia.
Qed.

End GoIntFacts.

(** ** The chunk partition *)
Section Partition.

Variable cfg : Config.
Variable N : Z.
Hypothesis valid : validRun cfg N.

Let W := ChunkSize cfg.

(** [ceil(N / ChunkSize)]. *)
Let nc := (N + W - 1) / W.

Lemma nc_bounds : (nc - 1) * W <= N - 1 /\ N <= nc * W /\ 1 <= nc.
Proof.
  destruct valid as (HN & HW & _). fold W in HW. subst nc.
  pose proof (Z.div_mod (N + W - 1) W ltac:(lia)) as E.
  pose proof (Z.mod_pos_bound (N + W - 1) W ltac:(lia)) as B.
  nia.
Qed.

Lemma numChunks_eq : numChunks cfg N = Some nc.
Proof.
  destruct valid as (HN & HW & HM). fold W in HW, HM.
  unfold numChunks, GoInt.max_int in *. fold W.
  rewrite GoIntFacts.add_small by (unfold GoInt.in_range, GoInt.min_int, GoInt.max_int; lia).
  rewrite GoIntFacts.sub_small by (unfold GoInt.in_range, GoInt.min_int, GoInt.max_int; lia).
  apply GoIntFacts.div_pos; unfold GoInt.max_int; lia.
Qed.

(** Chunk [i] is [[i*W + 1, min (i*W + 1 + W) N)]. *)
Lemma chunkBounds_eq (i : Z) :
  0 <= i < nc ->
  chunkBounds cfg N i = (i * W + 1, Z.min (i * W + 1 + W) N).
Proof.
  intros Hi. destruct valid as (HN & HW & HM). fold W in HW, HM.
  pose proof nc_bounds as (B1 & B2 & B3).
  assert (i * W <= N - 1) by nia.
  assert (0 <= i * W) by nia.
  unfold chunkBounds, GoInt.max_int in *. fold W.
  rewrite GoIntFacts.mul_small by (unfold GoInt.in_range, GoInt.min_int, GoInt.max_int; lia).
  rewrite GoIntFacts.add_small by (unfold GoInt.in_range, GoInt.min_int, GoInt.max_int; lia).
  rewrite GoIntFacts.add_small by (unfold GoInt.in_range, GoInt.min_int, GoInt.max_int; lia).
  f_equal. destruct (Z.gtb_spec (i * W + 1 + W) N); lia.
Qed.

Lemma chunkRanges_eq :
  chunkRanges cfg N = Some (map (idealChunk cfg N) (seq 0 (Z.to_nat nc))).
Proof.
  pose proof nc_bounds as (_ & _ & B3).
  unfold chunkRanges. rewrite numChunks_eq.
  destruct (Z.ltb_spec nc 0); [lia |].
  f_equal. apply map_ext_in. intros i Hi. apply in_seq in Hi.
  unfold idealChunk. fold W. apply chunkBounds_eq. lia.
Qed.

Lemma ideal_tiles (n a : nat) :
  (a + S n = Z.to_nat nc)%nat ->
  tiles (Z.of_nat a * W + 1) N (map (idealChunk cfg N) (seq a (S n))).
Proof.
  destruct valid as (HN & HW & HM). fold W in HW, HM.
  pose proof nc_bounds as (B1 & B2 & B3).
  revert a. induction n as [| n IH]; intros a Ha.
  - cbn. fold W. assert (Z.of_nat a = nc - 1) by lia.
    repeat split; nia.
  - cbn [seq map]. cbn [tiles].
    unfold idealChunk at 1. fold W.
    assert (Z.of_nat a + 1 <= nc - 1) by lia.
    assert (Z.of_nat a * W + 1 + W <= N) by nia.
    split; [reflexivity |]. split; [lia |].
    rewrite Z.min_l by lia.
    replace (Z.of_nat a * W + 1 + W) with (Z.of_nat (S a) * W + 1) by lia.
    apply IH. lia.
Qed.

Lemma ideal_sizes (l : list nat) :
  Forall (fun r => 0 <= snd r - fst r <= W) (map (idealChunk cfg N) l)
  \/ exists i, In i l /\ (Z.to_nat nc <= i)%nat.
Proof.
  destruct valid as (HN & HW & HM). fold W in HW, HM.
  pose proof nc_bounds as (B1 & B2 & B3).
  induction l as [| i l IH]; [left; constructor |].
  destruct (le_lt_dec (Z.to_nat nc) i) as [Hge | Hlt].
  - right. exists i. split; [left; reflexivity | exact Hge].
  - destruct IH as [IH | (j & Hj & Hge)].
    + left. constructor; [| exact IH]. cbn. fold W.
      assert (Z.of_nat i * W <= N - 1) by nia. lia.
    + right. exists j. split; [right; exact Hj | exact Hge].
Qed.

(** Every chunk but the last is full, so the non-empty chunks are the first
    [ceil((N-1)/W)]. *)
Lemma ideal_nonempty (n a : nat) :
  (a + n = Z.to_nat nc)%nat ->
  Z.of_nat (length (filter (fun r => fst r <? snd r)
                           (map (idealChunk cfg N) (seq a n))))
  = Z.max 0 ((N - 1 + W - 1) / W - Z.of_nat a).
Proof.
  destruct valid as (HN & HW & HM). fold W in HW, HM.
  pose proof nc_bounds as (B1 & B2 & B3).
  assert (Q : (N - 1 + W - 1) / W = nc - 1 /\ N = (nc - 1) * W + 1
              \/ (N - 1 + W - 1) / W = nc /\ (nc - 1) * W + 1 < N).
  { pose proof (Z.div_mod (N - 1 + W - 1) W ltac:(lia)) as E.
    pose proof (Z.mod_pos_bound (N - 1 + W - 1) W ltac:(lia)) as B.
    assert (N = (nc - 1) * W + 1 \/ (nc - 1) * W + 1 < N) as [K | K] by lia.
    - left. split; [| exact K]. nia.
    - right. split; [| exact K]. nia. }
  revert a. induction n as [| n IH]; intros a Ha.
  - cbn. destruct Q as [(-> & _) | (-> & _)]; lia.
  - cbn [seq map filter]. unfold idealChunk at 1 2 3. cbn [fst snd]. fold W.
    specialize (IH (S a) ltac:(lia)).
    destruct (Z.ltb_spec (Z.of_nat a * W + 1)
                         (Z.min (Z.of_nat a * W + 1 + W) N)) as [Hne | He].
    + cbn [length]. rewrite Nat2Z.inj_succ, IH.
      assert (Z.of_nat a * W + 1 < N) by lia.
      destruct Q as [(-> & K) | (-> & K)]; nia.
    + rewrite IH.
      assert (N <= Z.of_nat a * W + 1) by lia.
      assert (Z.of_nat a = nc - 1) by nia.
      destruct Q as [(-> & K) | (-> & K)]; nia.
Qed.

End Partition.

(** The ranges the engine launches follow one another from 1 to [N]. *)
Lemma chunkRanges_tiles (cfg : Config) (N : Z) :
  validRun cfg N ->
  exists chunks, chunkRanges cfg N = Some chunks /\ tiles 1 N chunks.
Proof.
  intros valid.
  pose proof (nc_bounds cfg N valid) as (_ & _ & B3).
  eexists. split; [apply chunkRanges_eq; exact valid |].
  destruct (Z.to_nat ((N + ChunkSize cfg - 1) / ChunkSize cfg))
    as [| n] eqn:E; [lia |].
  apply (ideal_tiles cfg N valid n 0). lia.
Qed.

(** C3, as the code has it: for a clamped term count [N] and a positive
    chunk width [W], the engine launches [ceil(N/W)] chunks, in index order;
    they follow one another from 1 to [N] (no overlap, no gap), each holds
    at most [W] indices, and exactly [ceil((N-1)/W)] of them are non-empty
    (when [W] divides [N-1] the last chunk is the empty range [[N, N)]). *)
Theorem chunkRanges_partition (cfg : Config) (N : Z) :
  validRun cfg N ->
  exists chunks,
    chunkRanges cfg N = Some chunks
    /\ Z.of_nat (length chunks) = (N + ChunkSize cfg - 1) / ChunkSize cfg
    /\ tiles 1 N chunks
    /\ Forall (fun r => 0 <= snd r - fst r <= ChunkSize cfg) chunks
    /\ Z.of_nat (length (filter (fun r => fst r <? snd r) chunks))
       = (N - 1 + ChunkSize cfg - 1) / ChunkSize cfg.
Proof.
  intros valid.
  pose proof (nc_bounds cfg N valid) as (B1 & B2 & B3).
  set (nc := (N + ChunkSize cfg - 1) / ChunkSize cfg) in *.
  exists (map (idealChunk cfg N) (seq 0 (Z.to_nat nc))).
  split; [apply chunkRanges_eq; exact valid |].
  split; [rewrite length_map, length_seq; lia |].
  split.
  { destruct (Z.to_nat nc) as [| n] eqn:E; [lia |].
    apply (ideal_tiles cfg N valid n 0). fold nc. lia. }
  split.
  { destruct (ideal_sizes cfg N valid (seq 0 (Z.to_nat nc)))
      as [F | (i & Hi & Hge)]; [exact F |].
    apply in_seq in Hi. fold nc in Hge. lia. }
  rewrite (ideal_nonempty cfg N valid (Z.to_nat nc) 0) by reflexivity.
  destruct valid as (HN & HW & _).
  assert (0 <= (N - 1 + ChunkSize cfg - 1) / ChunkSize cfg)
    by (apply Z.div_pos; lia).
  lia.
Qed.

Lemma chunkRanges_partition_witness :
  validRun defaultConfig 100
  /\ exists chunks,
       chunkRanges defaultConfig 100 = Some chunks
       /\ Z.of_nat (length chunks) = (100 + 100000 - 1) / 100000
       /\ tiles 1 100 chunks
       /\ Forall (fun r => 0 <= snd r - fst r <= 100000) chunks
       /\ Z.of_nat (length (filter (fun r => fst r <? snd r) chunks))
          = (100 - 1 + 100000 - 1) / 100000.
Proof.
  assert (H : validRun defaultConfig 100)
    by (unfold validRun, GoInt.max_int; cbn; lia).
  split; [exact H | exact (chunkRanges_partition defaultConfig 100 H)].
Defined.

(** C3, the claim as written fails: with the default chunk width 100000 and
    [N = 100001] there are [ceil((N-1)/W) = 1] chunks to expect, and the
    engine launches two, the second one empty. *)
Lemma chunk_count_counterexample :
  chunkRanges defaultConfig 100001 = Some [(1, 100001); (100001, 100001)]
  /\ Z.of_nat (length [(1, 100001); (100001, 100001)])
     <> (100001 - 1 + ChunkSize defaultConfig - 1) / ChunkSize defaultConfig.
Proof.
  split; [reflexivity | cbn; lia].
Qed.

(** ** Slices: updating the last element *)
Section UpdateFacts.

Context {T : Type}.

Lemma update_at_length (i : nat) (f : T -> T) (l : list T) :
  length (update_at i f l) = length l.
Proof.
  revert i. induction l as [| x l IH]; intros [| i]; cbn; auto.
Qed.

Lemma update_at_app (pre : list T) (x : T) (post : list T) (f : T -> T) :
  update_at (length pre) f (pre ++ x :: post) = pre ++ f x :: post.
Proof.
  induction pre as [| y pre IH]; cbn; [reflexivity | now rewrite IH].
Qed.

Lemma update_last_snoc (f : T -> T) (l : list T) (x : T) :
  update_last f (l ++ [x]) = l ++ [f x].
Proof.
  unfold update_last. destruct (l ++ [x]) as [| y r] eqn:E.
  - destruct l; discriminate.
  - rewrite <- E, length_app. cbn [length].
    replace (length l + 1 - 1)%nat with (length l) by lia.
    apply update_at_app.
Qed.

Lemma update_last_length (f : T -> T) (l : list T) :
  length (update_last f l) = length l.
Proof.
  destruct l; [reflexivity | apply update_at_length].
Qed.

(** A non-empty slice splits into what precedes its last element and that
    element. *)
Lemma snoc_of_length (l : list T) (n : nat) :
  length l = S n -> exists pre x, l = pre ++ [x] /\ length pre = n.
Proof.
  intros H. destruct (exists_last (l := l)) as (pre & x & ->).
  - intros ->. discriminate.
  - exists pre, x. split; [reflexivity |].
    rewrite length_app in H. cbn in H. lia.
Qed.

End UpdateFacts.

(** ** The summation engine, whatever the arithmetic *)
Section EngineShape.

Variable A : ComplexArith.
Variable s : C A.

Lemma sumLoop_spec (n : nat) (k : Z) (ps : C A) (l : list (C A)) :
  sumLoop s n k ps l = (sumTerms s n k ps, l ++ prefixSums s n k ps).
Proof.
  revert k ps l. induction n as [| n IH]; intros k ps l; cbn.
  - now rewrite app_nil_r.
  - rewrite IH, <- app_assoc. reflexivity.
Qed.

Lemma computePartialSumWithLinks_spec (a b : Z) :
  computePartialSumWithLinks a b s
  = (sumTerms s (Z.to_nat (b - a)) a (czero A),
     prefixSums s (Z.to_nat (b - a)) a (czero A)).
Proof.
  unfold computePartialSumWithLinks. now rewrite sumLoop_spec.
Qed.

Lemma prefixSums_length (n : nat) (k : Z) (acc : C A) :
  length (prefixSums s n k acc) = n.
Proof.
  revert k acc. induction n as [| n IH]; intros; cbn; [| rewrite IH]; auto.
Qed.

Lemma sumTerms_app (n m : nat) (k : Z) (acc : C A) :
  sumTerms s (n + m) k acc
  = sumTerms s m (k + Z.of_nat n) (sumTerms s n k acc).
Proof.
  revert k acc. induction n as [| n IH]; intros k acc.
  - cbn. now rewrite Z.add_0_r.
  - cbn [Nat.add sumTerms]. rewrite IH. f_equal. lia.
Qed.

Lemma prefixSums_app (n m : nat) (k : Z) (acc : C A) :
  prefixSums s (n + m) k acc
  = prefixSums s n k acc
    ++ prefixSums s m (k + Z.of_nat n) (sumTerms s n k acc).
Proof.
  revert k acc. induction n as [| n IH]; intros k acc.
  - cbn. now rewrite Z.add_0_r.
  - cbn [Nat.add prefixSums sumTerms app]. rewrite IH.
    do 3 f_equal. lia.
Qed.

Lemma prefixSums_nth (n i : nat) (k : Z) (acc : C A) :
  (i < n)%nat ->
  nth_error (prefixSums s n k acc) i = Some (sumTerms s (S i) k acc).
Proof.
  revert i k acc. induction n as [| n IH]; intros i k acc Hi; [lia |].
  destruct i as [| i]; [reflexivity |].
  cbn [prefixSums nth_error]. rewrite IH by lia. reflexivity.
Qed.

Lemma prefixSums_snoc (n : nat) (k : Z) (acc : C A) :
  prefixSums s (S n) k acc
  = prefixSums s n k acc ++ [sumTerms s (S n) k acc].
Proof.
  replace (S n) with (n + 1)%nat at 1 by lia.
  rewrite prefixSums_app. cbn [prefixSums]. f_equal.
  replace (S n) with (n + 1)%nat by lia.
  now rewrite sumTerms_app.
Qed.

Lemma tiles_le (chunks : list (Z * Z)) (lo hi : Z) :
  tiles lo hi chunks -> lo <= hi.
Proof.
  revert lo. induction chunks as [| [a b] rest IH]; intros lo; cbn.
  - lia.
  - intros (-> & Hab & Hrest). specialize (IH b Hrest). lia.
Qed.

(** The chained slice has one element per index of the tiled range. *)
Lemma chain_length (chunks : list (Z * Z)) (lo hi : Z)
  (r : C A) (out : list (C A)) :
  tiles lo hi chunks ->
  length (snd (fold_left chainStep (chunkResults A s chunks) (r, out)))
  = (length out + Z.to_nat (hi - lo))%nat.
Proof.
  revert lo r out.
  induction chunks as [| [a b] rest IH]; intros lo r out; cbn [tiles].
  - intros ->. cbn. lia.
  - intros (-> & Hab & Hrest).
    pose proof (tiles_le rest b hi Hrest).
    cbn [chunkResults map fold_left fst snd].
    rewrite computePartialSumWithLinks_spec. cbn [chainStep].
    fold (chunkResults A s rest). rewrite (IH b) by exact Hrest.
    rewrite length_app, length_map, prefixSums_length. lia.
Qed.

(** After the chaining loop there is one link per term index. *)
Lemma chained_shape (cfg : Config) :
  validRun cfg (termCount cfg s) ->
  exists runningSum chained,
    chainedPartialSums cfg s = Some (runningSum, chained)
    /\ length chained = Z.to_nat (termCount cfg s - 1).
Proof.
  intros valid.
  destruct (chunkRanges_tiles cfg _ valid) as (chunks & E & T).
  unfold chainedPartialSums. rewrite E.
  pose proof (chain_length chunks 1 _ (czero A) [] T) as L.
  fold (chunkResults A s chunks). unfold chain.
  destruct (fold_left chainStep (chunkResults A s chunks) (czero A, []))
    as [runningSum chained].
  exists runningSum, chained. split; [reflexivity | exact L].
Qed.

(** The engine returns: the running sum plus the correction, and the chained
    links with the correction added to the last one. *)
Lemma engine_shape (cfg : Config) :
  validRun cfg (termCount cfg s) ->
  2 <= termCount cfg s ->
  exists runningSum pre x,
    chainedPartialSums cfg s = Some (runningSum, pre ++ [x])
    /\ calculateSpiralPartialSums cfg s
       = Some (cadd A runningSum (correction (termCount cfg s) s),
               pre ++ [cadd A x (correction (termCount cfg s) s)])
    /\ length pre = Z.to_nat (termCount cfg s - 2).
Proof.
  intros valid H2.
  destruct (chained_shape cfg valid) as (runningSum & chained & E & L).
  destruct (snoc_of_length chained (Z.to_nat (termCount cfg s - 2)))
    as (pre & x & -> & Lp); [lia |].
  exists runningSum, pre, x.
  unfold calculateSpiralPartialSums. rewrite E, update_last_snoc.
  repeat split. exact Lp.
Qed.

(** The single-threaded loop fills the slots after [pre] one by one. *)
Lemma singleLoop_spec (n : nat) (k : Z) (ps : C A)
  (pre rest : list (C A)) :
  0 <= k -> length pre = Z.to_nat k -> (n <= length rest)%nat ->
  singleLoop s n k ps (pre ++ rest)
  = pre ++ prefixSums s n k ps ++ skipn n rest.
Proof.
  revert k ps pre rest.
  induction n as [| n IH]; intros k ps pre rest Hk Hpre Hn.
  - reflexivity.
  - destruct rest as [| x rest]; [cbn in Hn; lia |].
    cbn [singleLoop prefixSums skipn].
    rewrite <- Hpre, update_at_app.
    change (pre ++ cadd A ps (term s k) :: rest)
      with (pre ++ [cadd A ps (term s k)] ++ rest).
    rewrite app_assoc, IH.
    + rewrite <- app_assoc. reflexivity.
    + lia.
    + rewrite length_app. cbn. lia.
    + cbn in Hn. lia.
Qed.

Lemma calculateSingleThreadedPartialSums_spec (numLinks : Z) :
  1 <= numLinks ->
  calculateSingleThreadedPartialSums s numLinks
  = Some (czero A :: prefixSums s (Z.to_nat (numLinks - 1)) 1 (czero A)).
Proof.
  intros H. unfold calculateSingleThreadedPartialSums.
  destruct (Z.ltb_spec numLinks 0); [lia |]. f_equal.
  replace (Z.to_nat numLinks) with (S (Z.to_nat (numLinks - 1))) by lia.
  cbn [repeat].
  change (czero A :: repeat (czero A) (Z.to_nat (numLinks - 1)))
    with ([czero A] ++ repeat (czero A) (Z.to_nat (numLinks - 1))).
  rewrite singleLoop_spec.
  - rewrite skipn_all2 by (rewrite repeat_length; lia).
    now rewrite app_nil_r.
  - lia.
  - reflexivity.
  - rewrite repeat_length. lia.
Qed.

Lemma engine_length (cfg : Config) :
  validRun cfg (termCount cfg s) ->
  exists total traj,
    calculateSpiralPartialSums cfg s = Some (total, traj)
    /\ length traj = Z.to_nat (termCount cfg s - 1).
Proof.
  intros valid.
  destruct (chained_shape cfg valid) as (runningSum & chained & E & L).
  unfold calculateSpiralPartialSums. rewrite E.
  eexists _, _. split; [reflexivity |].
  now rewrite update_last_length.
Qed.

Lemma single_length (numLinks : Z) :
  1 <= numLinks ->
  exists single,
    calculateSingleThreadedPartialSums s numLinks = Some single
    /\ length single = Z.to_nat numLinks.
Proof.
  intros H. rewrite calculateSingleThreadedPartialSums_spec by exact H.
  eexists. split; [reflexivity |].
  cbn [length]. rewrite prefixSums_length. lia.
Qed.

End EngineShape.

(** ** The summation engine in exact arithmetic *)
Section EngineExact.

Variable A : ComplexArith.
Hypothesis laws : ExactAdd A.
Variable s : C A.

Lemma cadd_0_r (x : C A) : cadd A x (czero A) = x.
Proof. rewrite (cadd_comm A laws). apply (cadd_0_l A laws). Qed.

Lemma cadd_swap (x y z : C A) :
  cadd A (cadd A x y) z = cadd A (cadd A x z) y.
Proof.
  rewrite <- !(cadd_assoc A laws). f_equal. apply (cadd_comm A laws).
Qed.

(** Shifting an accumulation by [r] is accumulating from [r]. *)
Lemma sumTerms_shift (n : nat) (k : Z) (acc r : C A) :
  cadd A (sumTerms s n k acc) r = sumTerms s n k (cadd A acc r).
Proof.
  revert k acc. induction n as [| n IH]; intros k acc; cbn.
  - reflexivity.
  - rewrite IH. f_equal. apply cadd_swap.
Qed.

Lemma prefixSums_shift (n : nat) (k : Z) (acc r : C A) :
  map (fun l => cadd A l r) (prefixSums s n k acc)
  = prefixSums s n k (cadd A acc r).
Proof.
  revert k acc. induction n as [| n IH]; intros k acc; cbn.
  - reflexivity.
  - rewrite IH, cadd_swap. reflexivity.
Qed.

(** Chaining the chunks of a tiling of [[lo, hi)] from the running sum [r]
    is one accumulation over [[lo, hi)] from [r]. *)
Lemma chain_tiles (chunks : list (Z * Z)) (lo hi : Z)
  (r : C A) (out : list (C A)) :
  tiles lo hi chunks ->
  fold_left chainStep (chunkResults A s chunks) (r, out)
  = (sumTerms s (Z.to_nat (hi - lo)) lo r,
     out ++ prefixSums s (Z.to_nat (hi - lo)) lo r).
Proof.
  revert lo r out.
  induction chunks as [| [a b] rest IH]; intros lo r out; cbn [tiles].
  - intros ->. rewrite Z.sub_diag. cbn. now rewrite app_nil_r.
  - intros (-> & Hab & Hrest).
    pose proof (tiles_le rest b hi Hrest) as Hb.
    cbn [chunkResults map fold_left fst snd].
    rewrite computePartialSumWithLinks_spec. cbn [chainStep].
    fold (chunkResults A s rest). rewrite (IH b) by exact Hrest.
    rewrite prefixSums_shift, (cadd_comm A laws r), sumTerms_shift.
    rewrite (cadd_0_l A laws).
    replace (Z.to_nat (hi - lo))
      with (Z.to_nat (b - lo) + Z.to_nat (hi - b))%nat by lia.
    rewrite sumTerms_app, prefixSums_app, <- app_assoc.
    replace (lo + Z.of_nat (Z.to_nat (b - lo))) with b by lia.
    reflexivity.
Qed.

(** The state after the chaining loop, for any valid chunk width. *)
Lemma chained_exact (cfg : Config) :
  validRun cfg (termCount cfg s) ->
  chainedPartialSums cfg s
  = Some (cumulativeSum s (Z.to_nat (termCount cfg s - 1)),
          prefixSums s (Z.to_nat (termCount cfg s - 1)) 1 (czero A)).
Proof.
  intros valid.
  destruct (chunkRanges_tiles cfg _ valid) as (chunks & E & T).
  unfold chainedPartialSums. rewrite E.
  fold (chunkResults A s chunks). unfold chain.
  rewrite (chain_tiles chunks 1 _ _ _ T). reflexivity.
Qed.

(** What the engine returns, for any valid chunk width. *)
Lemma engine_exact (cfg : Config) :
  validRun cfg (termCount cfg s) ->
  calculateSpiralPartialSums cfg s
  = Some (cadd A (cumulativeSum s (Z.to_nat (termCount cfg s - 1)))
                 (correction (termCount cfg s) s),
          update_last (fun l => cadd A l (correction (termCount cfg s) s))
            (prefixSums s (Z.to_nat (termCount cfg s - 1)) 1 (czero A))).
Proof.
  intros valid. unfold calculateSpiralPartialSums.
  now rewrite (chained_exact cfg valid).
Qed.

End EngineExact.

(** ** The rounding error of one binary64 addition *)
Module Rounding.

Import RoundingDefs.

(** *** Digits *)
Lemma digits2_size (p : positive) : digits2_pos p = Pos.size p.
Proof. induction p; cbn; congruence. Qed.

Lemma pow2_split (k : Z) : 0 < k -> 2 ^ k = 2 * 2 ^ (k - 1).
Proof.
  intros H. rewrite <- Z.pow_succ_r by lia. f_equal. lia.
Qed.

Lemma digits_bounds (p : positive) :
  2 ^ (Zpos (digits2_pos p) - 1) <= Zpos p < 2 ^ Zpos (digits2_pos p).
Proof.
  rewrite digits2_size. split.
  - pose proof (Pos.size_le p) as H.
    apply Pos2Z.pos_le_pos in H.
    rewrite Pos2Z.inj_pow in H.
    rewrite (pow2_split (Zpos (Pos.size p))) in H by lia.
    change (Z.pos p~0) with (2 * Z.pos p) in H. lia.
  - pose proof (Pos.size_gt p) as H.
    apply Pos2Z.pos_lt_pos in H. now rewrite Pos2Z.inj_pow in H.
Qed.

Lemma digits_unique (p : positive) (k : Z) :
  2 ^ (k - 1) <= Zpos p < 2 ^ k -> Zpos (digits2_pos p) = k.
Proof.
  intros [L U]. pose proof (digits_bounds p) as [L' U'].
  assert (Hk : 0 < k).
  { destruct (Z_lt_le_dec 0 k) as [| Hle]; [assumption |].
    assert (2 ^ k <= 1).
    { destruct (Z.eq_dec k 0) as [-> | ]; [cbn; lia |].
      rewrite Z.pow_neg_r by lia. lia. }
    lia. }
  destruct (Z_lt_le_dec (Zpos (digits2_pos p)) k) as [Hlt | Hge].
  - assert (2 ^ Zpos (digits2_pos p) <= 2 ^ (k - 1))
      by (apply Z.pow_le_mono_r; lia). lia.
  - destruct (Z_lt_le_dec k (Zpos (digits2_pos p))) as [Hlt | Hle]; [| lia].
    assert (2 ^ k <= 2 ^ (Zpos (digits2_pos p) - 1))
      by (apply Z.pow_le_mono_r; lia). lia.
Qed.

(** *** Shifting right *)
Lemma iter_pos_nat {T : Type} (f : T -> T) (p : positive) (x : T) :
  SpecFloat.iter_pos f p x = Nat.iter (Pos.to_nat p) f x.
Proof.
  revert x. induction p as [p IH | p IH |]; intros x; cbn [SpecFloat.iter_pos].
  - rewrite !IH, Pos2Nat.inj_xI.
    replace (S (2 * Pos.to_nat p)) with (Pos.to_nat p + (Pos.to_nat p + 1))%nat
      by lia.
    rewrite !Nat.iter_add. cbn. reflexivity.
  - rewrite !IH, Pos2Nat.inj_xO.
    replace (2 * Pos.to_nat p)%nat with (Pos.to_nat p + Pos.to_nat p)%nat
      by lia.
    now rewrite Nat.iter_add.
  - reflexivity.
Qed.

Lemma shr_1_spec (m : Z) (r s : bool) :
  0 <= m ->
  shr_1 (Build_shr_record m r s)
  = Build_shr_record (m / 2) (Z.odd m) (r || s).
Proof.
  intros Hm. destruct m as [| [p | p |] |]; cbn [shr_1]; try lia.
  - reflexivity.
  - f_equal. rewrite Pos2Z.inj_xI.
    apply Z.div_unique with (r := 1); lia.
  - f_equal. rewrite Pos2Z.inj_xO.
    apply Z.div_unique with (r := 0); lia.
  - reflexivity.
Qed.

Lemma shr_iter (m0 : Z) (k : nat) :
  0 <= m0 ->
  exists q r s,
    Nat.iter (S k) shr_1 (Build_shr_record m0 false false)
    = Build_shr_record q r s
    /\ shifted m0 k q r s.
Proof.
  intros Hm. induction k as [| k IH].
  - cbn [Nat.iter]. rewrite shr_1_spec by assumption.
    exists (m0 / 2), (Z.odd m0), false.
    split; [reflexivity |]. exists (if Z.odd m0 then 1 else 0).
    pose proof (Z.div_mod m0 2 ltac:(lia)) as D.
    rewrite Zmod_odd in D.
    assert (0 <= m0 / 2) by (apply Z.div_pos; lia).
    change (2 ^ Z.of_nat 0) with 1.
    destruct (Z.odd m0).
    + split; [assumption |]. split; [lia |]. split; [lia |].
      split; [split; [lia | reflexivity] |].
      split; [discriminate | lia].
    + split; [assumption |]. split; [lia |]. split; [lia |].
      split; [split; [discriminate | lia] |].
      split; [discriminate | lia].
  - destruct IH as (q & r & s & E & rem & Hq & Em & Hrem & Hr & Hs).
    change (Nat.iter (S (S k)) shr_1 ?x) with (shr_1 (Nat.iter (S k) shr_1 x)).
    rewrite E, shr_1_spec by assumption.
    exists (q / 2), (Z.odd q), (r || s).
    split; [reflexivity |].
    exists (Z.b2z (Z.odd q) * (2 * 2 ^ Z.of_nat k) + rem).
    assert (0 <= q / 2) by (apply Z.div_pos; lia).
    pose proof (Z.div_mod q 2 ltac:(lia)) as D.
    rewrite Zmod_odd in D.
    assert (P : 2 ^ Z.of_nat (S k) = 2 * 2 ^ Z.of_nat k).
    { rewrite (Nat2Z.inj_succ k), Z.pow_succ_r by lia. reflexivity. }
    assert (Hp : 0 < 2 ^ Z.of_nat k) by (apply Z.pow_pos_nonneg; lia).
    rewrite P. set (h := 2 ^ Z.of_nat k) in *.
    assert (RS : r || s = true <-> rem <> 0).
    { split.
      - intros O. apply orb_prop in O as [-> | ->]; [| now apply Hs].
        assert (h <= rem) by now apply Hr. lia.
      - intros Hne. destruct (Z_le_gt_dec h rem) as [Hle | Hgt].
        + apply Hr in Hle. now rewrite Hle.
        + assert (s = true) by (apply Hs; lia). subst s. apply orb_true_r. }
    destruct (Z.odd q); cbn [Z.b2z] in *.
    + split; [assumption |]. split; [nia |]. split; [lia |].
      split; [split; [lia | reflexivity] |].
      rewrite RS. lia.
    + split; [assumption |]. split; [nia |]. split; [lia |].
      split; [split; [discriminate | lia] |].
      rewrite RS. lia.
Qed.


Lemma round_shifted (m0 : Z) (k : nat) (q : Z) (r s : bool) :
  shifted m0 k q r s ->
  q <= round_nearest_even q (loc_of_shr_record (Build_shr_record q r s))
    <= q + 1
  /\ Z.abs (round_nearest_even q
              (loc_of_shr_record (Build_shr_record q r s))
            * (2 * 2 ^ Z.of_nat k) - m0) <= 2 ^ Z.of_nat k.
Proof.
  intros (rem & Hq & Em & Hrem & Hr & Hs).
  assert (Hp : 0 < 2 ^ Z.of_nat k) by (apply Z.pow_pos_nonneg; lia).
  set (h := 2 ^ Z.of_nat k) in *.
  destruct r, s; cbn [loc_of_shr_record round_nearest_even].
  - assert (h <= rem) by now apply Hr.
    assert (rem <> 0 /\ rem <> h) by now apply Hs. lia.
  - assert (h <= rem) by now apply Hr.
    assert (rem = h).
    { destruct (Z.eq_dec rem h); [assumption |].
      assert (false = true) by (apply Hs; lia). discriminate. }
    destruct (Z.even q); lia.
  - assert (~ h <= rem) by (intros H; apply Hr in H; discriminate).
    lia.
  - assert (~ h <= rem) by (intros H; apply Hr in H; discriminate).
    assert (rem = 0).
    { destruct (Z.eq_dec rem 0); [assumption |].
      assert (false = true) by (apply Hs; lia). discriminate. }
    lia.
Qed.

(** The second normalisation of [binary_round_aux]: nothing to do for a
    mantissa of 53 bits, one exact shift for [2^53]. *)
Lemma shr_fexp_fits (m : positive) (e : Z) :
  -1074 <= e -> Zpos (digits2_pos m) <= 53 ->
  shr_fexp prec emax (Zpos m) e loc_Exact
  = (Build_shr_record (Zpos m) false false, e).
Proof.
  intros He Hd. unfold shr_fexp, fexp, emin, prec, emax.
  cbn [Zdigits2 shr_record_of_loc].
  destruct (Z.max (Zpos (digits2_pos m) + e - 53) (3 - 1024 - 53) - e)
    eqn:E; [reflexivity | lia | reflexivity].
Qed.

Lemma shr_fexp_top (m : positive) (e : Z) :
  -1074 <= e -> Zpos m = 2 ^ 53 ->
  shr_fexp prec emax (Zpos m) e loc_Exact
  = (Build_shr_record (2 ^ 52) false false, e + 1).
Proof.
  intros He Hm.
  assert (Dq : Zpos (digits2_pos m) = 54)
    by (apply digits_unique; rewrite Hm; cbn; lia).
  unfold shr_fexp, fexp, emin, prec, emax.
  cbn [Zdigits2 shr_record_of_loc]. rewrite Dq.
  replace (Z.max (54 + e - 53) (3 - 1024 - 53) - e) with 1 by lia.
  cbn [shr SpecFloat.iter_pos]. rewrite shr_1_spec by lia. rewrite Hm.
  reflexivity.
Qed.

(** Rounding a positive mantissa whose exponent is not below [emin]: the
    result is an infinity, or a finite number of the same sign within half
    a unit in the last place. *)
Lemma binary_round_aux_error (sg : bool) (mz : positive) (ez : Z) :
  -1074 <= ez ->
  match binary_round_aux prec emax sg (Zpos mz) ez loc_Exact with
  | S754_finite sg' m' e' =>
      sg' = sg /\ ez <= e'
      /\ 2 ^ 53 * Z.abs (Zpos m' * 2 ^ (e' - ez) - Zpos mz) <= Zpos mz
  | S754_infinity _ => True
  | _ => False
  end.
Proof.
  intros Hez. unfold binary_round_aux.
  pose proof (digits_bounds mz) as [DL DU].
  set (d := Zpos (digits2_pos mz)) in *.
  assert (Hd : 0 < d) by (unfold d; lia).
  destruct (Z_le_gt_dec d 53) as [Hfit | Hbig].
  - (* no shift: the mantissa already fits *)
    rewrite shr_fexp_fits by assumption.
    cbn [shr_m loc_of_shr_record round_nearest_even].
    rewrite shr_fexp_fits by assumption. cbn [shr_m].
    destruct (ez <=? emax - prec); [| exact I].
    split; [reflexivity |]. split; [lia |].
    rewrite Z.sub_diag. change (2 ^ 0) with 1. rewrite Z.mul_1_r, Z.sub_diag.
    cbn. lia.
  - (* a shift by [d - 53] bits *)
    assert (En : exists p, d - 53 = Zpos p)
      by (destruct (d - 53) as [| p |] eqn:E; [lia | now exists p | lia]).
    destruct En as [p En].
    assert (E1 : shr_fexp prec emax (Zpos mz) ez loc_Exact
                 = (Nat.iter (Pos.to_nat p) shr_1
                      (Build_shr_record (Zpos mz) false false),
                    ez + Zpos p)).
    { unfold shr_fexp, fexp, emin, prec, emax.
      cbn [Zdigits2 shr_record_of_loc]. fold d.
      replace (Z.max (d + ez - 53) (3 - 1024 - 53) - ez) with (Zpos p) by lia.
      cbn [shr]. now rewrite iter_pos_nat. }
    rewrite E1.
    destruct (Pos.to_nat p) as [| k] eqn:Ek; [lia |].
    destruct (shr_iter (Zpos mz) k ltac:(lia)) as (q & r & s & E & Sh).
    rewrite E. cbn [shr_m].
    destruct (round_shifted _ _ _ _ _ Sh) as [Hq' Herr].
    set (q' := round_nearest_even q
                 (loc_of_shr_record (Build_shr_record q r s))) in *.
    destruct Sh as (rem & Hq & Em & Hrem & _).
    assert (Hk : Z.of_nat k = d - 54) by lia.
    assert (P1 : 2 ^ (d - 1) = 2 ^ 52 * (2 * 2 ^ Z.of_nat k)).
    { rewrite Hk. rewrite <- Z.pow_succ_r by lia.
      rewrite <- Z.pow_add_r by lia. f_equal. lia. }
    assert (P2 : 2 ^ d = 2 ^ 53 * (2 * 2 ^ Z.of_nat k)).
    { rewrite Hk. rewrite <- Z.pow_succ_r by lia.
      rewrite <- Z.pow_add_r by lia. f_equal. lia. }
    assert (Hp : 0 < 2 ^ Z.of_nat k) by (apply Z.pow_pos_nonneg; lia).
    assert (P3 : 2 ^ (ez + Zpos p - ez) = 2 * 2 ^ Z.of_nat k).
    { replace (ez + Zpos p - ez) with (Z.succ (Z.of_nat k)) by lia.
      now rewrite Z.pow_succ_r by lia. }
    assert (P4 : 2 ^ (ez + Zpos p + 1 - ez) = 2 * (2 * 2 ^ Z.of_nat k)).
    { replace (ez + Zpos p + 1 - ez) with (Z.succ (Z.succ (Z.of_nat k)))
        by lia.
      now rewrite !Z.pow_succ_r by lia. }
    set (h := 2 ^ Z.of_nat k) in *.
    assert (Q1 : 2 ^ 52 <= q) by nia.
    assert (Q2 : q < 2 ^ 53) by nia.
    destruct q' as [| q'p |] eqn:Eq'; try lia.
    destruct (Z.eq_dec (Zpos q'p) (2 ^ 53)) as [Etop | Ntop].
    + (* the rounding carried into bit 53: one more (exact) shift *)
      rewrite shr_fexp_top by (assumption || lia). cbn [shr_m].
      change (2 ^ 52) with (Zpos (2 ^ 52)) at 1. cbv beta iota.
      destruct (ez + Z.pos p + 1 <=? emax - prec); [| exact I].
      split; [reflexivity |]. split; [lia |].
      rewrite P4. change (Z.pos (2 ^ 52)) with (2 ^ 52).
      rewrite Etop in Herr. lia.
    + assert (Dq : Zpos (digits2_pos q'p) = 53)
        by (apply digits_unique; cbn; lia).
      rewrite shr_fexp_fits by lia. cbn [shr_m].
      destruct (ez + Z.pos p <=? emax - prec); [| exact I].
      split; [reflexivity |]. split; [lia |].
      rewrite P3. lia.
Qed.


(** *** Shifting left *)
Lemma pos_iter_xO (m d : positive) :
  Zpos (Pos.iter xO m d) = Zpos m * 2 ^ Zpos d.
Proof.
  induction d as [| d IH] using Pos.peano_ind.
  - cbn. lia.
  - rewrite Pos.iter_succ, Pos2Z.inj_xO, IH, Pos2Z.inj_succ.
    rewrite Z.pow_succ_r by lia. ring.
Qed.

Lemma shl_align_spec (mx : positive) (ex e' : Z) :
  snd (shl_align mx ex e') = Z.min ex e'
  /\ Zpos (fst (shl_align mx ex e'))
     = Zpos mx * 2 ^ (ex - Z.min ex e').
Proof.
  unfold shl_align. destruct (e' - ex) as [| d | d] eqn:E; cbn [fst snd].
  - replace (Z.min ex e') with ex by lia.
    rewrite Z.sub_diag. cbn. lia.
  - replace (Z.min ex e') with ex by lia.
    rewrite Z.sub_diag. cbn. lia.
  - replace (Z.min ex e') with e' by lia.
    split; [reflexivity |]. rewrite pos_iter_xO. do 2 f_equal. lia.
Qed.

Lemma binary_round_error (sg : bool) (mx : positive) (ex : Z) :
  -1074 <= ex ->
  match binary_round prec emax sg mx ex with
  | S754_finite sg' m' e' =>
      sg' = sg
      /\ 2 ^ 53 * Z.abs (Zpos m' * 2 ^ (e' + 1074) - Zpos mx * 2 ^ (ex + 1074))
         <= Zpos mx * 2 ^ (ex + 1074)
  | S754_infinity _ => True
  | _ => False
  end.
Proof.
  intros Hex. unfold binary_round.
  set (fe := fexp prec emax (Zpos (digits2_pos mx) + ex)).
  assert (Hfe : -1074 <= fe) by (unfold fe, fexp, emin, prec, emax; lia).
  pose proof (shl_align_spec mx ex fe) as [Es Em].
  destruct (shl_align mx ex fe) as [mz ez]. cbn [fst snd] in Es, Em.
  assert (Hez : -1074 <= ez) by lia.
  pose proof (binary_round_aux_error sg mz ez Hez) as H.
  destruct (binary_round_aux prec emax sg (Zpos mz) ez loc_Exact)
    as [| | | sg' m' e']; try exact H.
  destruct H as (-> & Hle & Herr). split; [reflexivity |].
  rewrite <- Es in Em.
  assert (P1 : 2 ^ (e' + 1074) = 2 ^ (e' - ez) * 2 ^ (ez + 1074)).
  { rewrite <- Z.pow_add_r by lia. f_equal. lia. }
  assert (P2 : 2 ^ (ex + 1074) = 2 ^ (ex - ez) * 2 ^ (ez + 1074)).
  { rewrite <- Z.pow_add_r by lia. f_equal. lia. }
  assert (Hp : 0 < 2 ^ (ez + 1074)) by (apply Z.pow_pos_nonneg; lia).
  rewrite P1, P2, !Z.mul_assoc, <- Em.
  rewrite <- Z.mul_sub_distr_r, Z.abs_mul, (Z.abs_eq (2 ^ (ez + 1074))) by lia.
  nia.
Qed.

Lemma binary_normalize_error (M e : Z) :
  -1074 <= e ->
  sfinite (binary_normalize prec emax M e false) = true ->
  2 ^ 53 * Z.abs (sunits (binary_normalize prec emax M e false)
                  - M * 2 ^ (e + 1074))
  <= Z.abs (M * 2 ^ (e + 1074)).
Proof.
  intros He. unfold binary_normalize.
  assert (Hp : 0 < 2 ^ (e + 1074)) by (apply Z.pow_pos_nonneg; lia).
  destruct M as [| m | m].
  - cbn. lia.
  - pose proof (binary_round_error false m e He) as H.
    destruct (binary_round prec emax false m e) as [| | | sg' m' e'];
      try discriminate; try contradiction.
    destruct H as (-> & Herr). intros _. cbn [sunits].
    rewrite (Z.abs_eq (Zpos m * _)) by lia. exact Herr.
  - pose proof (binary_round_error true m e He) as H.
    destruct (binary_round prec emax true m e) as [| | | sg' m' e'];
      try discriminate; try contradiction.
    destruct H as (-> & Herr). intros _. cbn [sunits].
    change (Z.neg m) with (- Zpos m).
    assert (0 < Zpos m * 2 ^ (e + 1074)) by lia.
    lia.
Qed.

Lemma valid_exponent (sg : bool) (m : positive) (e : Z) :
  SpecFloat.valid_binary prec emax (S754_finite sg m e) = true -> -1074 <= e.
Proof.
  cbn [SpecFloat.valid_binary]. unfold bounded, canonical_mantissa.
  intros H. apply andb_prop in H as [H _]. apply Z.eqb_eq in H.
  unfold fexp, emin, prec, emax in H. lia.
Qed.

(** The error of one addition. *)
Lemma SFadd_error (x y : spec_float) :
  SpecFloat.valid_binary prec emax x = true -> SpecFloat.valid_binary prec emax y = true ->
  sfinite (SFadd prec emax x y) = true ->
  sfinite x = true /\ sfinite y = true
  /\ 2 ^ 53 * Z.abs (sunits (SFadd prec emax x y) - (sunits x + sunits y))
     <= Z.abs (sunits x + sunits y).
Proof.
  intros Vx Vy.
  destruct x as [sx | sx | | sx mx ex], y as [sy | sy | | sy my ey];
    cbn [SFadd]; try discriminate;
    try (destruct sx, sy; discriminate).
  - (* zero + zero *)
    intros _. split; [reflexivity |]. split; [reflexivity |].
    destruct sx, sy; cbn; lia.
  - intros _. split; [reflexivity |]. split; [reflexivity |].
    cbn [sunits]. rewrite Z.add_0_l, Z.sub_diag. cbn. lia.
  - intros _. split; [reflexivity |]. split; [reflexivity |].
    cbn [sunits]. rewrite Z.add_0_r, Z.sub_diag. cbn. lia.
  - (* finite + finite *)
    apply valid_exponent in Vx, Vy.
    pose proof (shl_align_spec mx ex (Z.min ex ey)) as [_ Ex].
    pose proof (shl_align_spec my ey (Z.min ex ey)) as [_ Ey].
    set (ez := Z.min ex ey) in *.
    replace (Z.min ex ez) with ez in Ex by lia.
    replace (Z.min ey ez) with ez in Ey by lia.
    set (M := cond_Zopp sx (Zpos (fst (shl_align mx ex ez)))
              + cond_Zopp sy (Zpos (fst (shl_align my ey ez)))).
    intros F. split; [reflexivity |]. split; [reflexivity |].
    assert (Hez : -1074 <= ez) by lia.
    pose proof (binary_normalize_error M ez Hez F) as H.
    assert (EM : M * 2 ^ (ez + 1074)
                 = sunits (S754_finite sx mx ex)
                   + sunits (S754_finite sy my ey)).
    { unfold M. rewrite Ex, Ey. cbn [sunits].
      assert (P1 : 2 ^ (ex + 1074) = 2 ^ (ex - ez) * 2 ^ (ez + 1074)).
      { rewrite <- Z.pow_add_r by lia. f_equal. lia. }
      assert (P2 : 2 ^ (ey + 1074) = 2 ^ (ey - ez) * 2 ^ (ez + 1074)).
      { rewrite <- Z.pow_add_r by lia. f_equal. lia. }
      rewrite P1, P2. destruct sx, sy; cbn [cond_Zopp]; ring. }
    rewrite EM in H. exact H.
Qed.


(** *** Primitive floats *)
Lemma units_spec (x : float) : units x = sunits (Prim2SF x).
Proof. reflexivity. Qed.

Lemma SFeqb_refl_finite (sg : bool) (m : positive) (e : Z) :
  SFeqb (S754_finite sg m e) (S754_finite sg m e) = true.
Proof.
  unfold SFeqb, SFcompare.
  destruct sg; rewrite Z.compare_refl, Pos.compare_cont_refl; reflexivity.
Qed.

Lemma is_finite_spec (x : float) : is_finite x = sfinite (Prim2SF x).
Proof.
  unfold is_finite, is_nan, is_infinity.
  rewrite !FloatAxioms.eqb_spec, FloatAxioms.abs_spec.
  change (Prim2SF infinity) with (S754_infinity false).
  destruct (Prim2SF x) as [sg | sg | | sg m e]; cbn [SFabs sfinite].
  - destruct sg; reflexivity.
  - destruct sg; reflexivity.
  - reflexivity.
  - rewrite SFeqb_refl_finite. reflexivity.
Qed.

(** One addition: a finite sum has finite operands, and is within
    [2^-53] of the exact sum, relatively. *)
Lemma add_error (x y : float) :
  is_finite (x + y)%float = true ->
  is_finite x = true /\ is_finite y = true
  /\ 2 ^ 53 * Z.abs (units (x + y)%float - (units x + units y))
     <= Z.abs (units x + units y).
Proof.
  rewrite !is_finite_spec, !units_spec, FloatAxioms.add_spec.
  apply SFadd_error; apply FloatAxioms.Prim2SF_valid.
Qed.

(** Adding [+0] changes nothing but a [-0], and a sum is [-0] only when
    both operands are. *)
Lemma add_zero_r (x : float) :
  Prim2SF x <> S754_zero true -> (x + 0)%float = x.
Proof.
  intros H. apply Prim2SF_inj. rewrite FloatAxioms.add_spec.
  change (Prim2SF 0%float) with (S754_zero false).
  revert H. unfold SF64add.
  destruct (Prim2SF x) as [sg | sg | | sg m e]; intros H;
    cbn [SFadd]; try reflexivity.
  destruct sg; [congruence | reflexivity].
Qed.

Lemma add_not_negzero (x y : float) :
  Prim2SF x <> S754_zero true -> Prim2SF (x + y)%float <> S754_zero true.
Proof.
  intros H. rewrite FloatAxioms.add_spec.
  pose proof (FloatAxioms.Prim2SF_valid x) as Vx.
  pose proof (FloatAxioms.Prim2SF_valid y) as Vy.
  revert H. unfold SF64add.
  destruct (Prim2SF x) as [sx | sx | | sx mx ex],
           (Prim2SF y) as [sy | sy | | sy my ey];
    intros H; cbn [SFadd]; try discriminate;
    try (destruct sx, sy; discriminate).
  - destruct sx, sy; congruence.
  - apply valid_exponent in Vx, Vy.
    set (M := cond_Zopp sx _ + cond_Zopp sy _).
    unfold binary_normalize.
    destruct M as [| m | m]; [discriminate | |].
    + pose proof (binary_round_error false m (Z.min ex ey) ltac:(lia)) as R.
      destruct (binary_round prec emax false m (Z.min ex ey));
        try discriminate; contradiction.
    + pose proof (binary_round_error true m (Z.min ex ey) ltac:(lia)) as R.
      destruct (binary_round prec emax true m (Z.min ex ey));
        try discriminate; contradiction.
Qed.

End Rounding.

(** ** The engine's sums, up to rounding *)
Module NearFacts.

Import RoundingDefs.

(** The arithmetic of one more rounded addition. *)
Lemma add_bound (a b z S1 S2 A1 A2 n1 n2 : Z) :
  2 ^ 53 * Z.abs (z - (a + b)) <= Z.abs (a + b) ->
  Z.abs S1 <= A1 -> Z.abs S2 <= A2 ->
  2 ^ 53 * Z.abs (a - S1) <= 2 * n1 * A1 ->
  2 ^ 53 * Z.abs (b - S2) <= 2 * n2 * A2 ->
  0 <= n1 -> 0 <= n2 -> 2 * (n1 + n2 + 1) <= 2 ^ 53 ->
  Z.abs (S1 + S2) <= A1 + A2
  /\ 2 ^ 53 * Z.abs (z - (S1 + S2)) <= 2 * (n1 + n2 + 1) * (A1 + A2).
Proof.
  intros Hz HS1 HS2 Ha Hb Hn1 Hn2 Hn.
  assert (P1 : 0 <= n1 * A1) by nia.
  assert (P2 : 0 <= n2 * A2) by nia.
  assert (P3 : 0 <= n1 * A2) by nia.
  assert (P4 : 0 <= n2 * A1) by nia.
  assert (Q1 : 2 * n1 * A1 <= 2 ^ 53 * A1) by nia.
  assert (Q2 : 2 * n2 * A2 <= 2 ^ 53 * A2) by nia.
  split; [lia |].
  replace (2 * (n1 + n2 + 1) * (A1 + A2))
    with (2 * (n1 * A1) + 2 * (n1 * A2) + 2 * (n2 * A1) + 2 * (n2 * A2)
          + 2 * A1 + 2 * A2) by ring.
  replace (2 * n1 * A1) with (2 * (n1 * A1)) in * by ring.
  replace (2 * n2 * A2) with (2 * (n2 * A2)) in * by ring.
  lia.
Qed.

Lemma near_add (n1 n2 A1 A2 : Z) (x y : float) (S1 S2 : Z) :
  near n1 A1 x S1 -> near n2 A2 y S2 ->
  is_finite (x + y)%float = true ->
  0 <= n1 -> 0 <= n2 -> 2 * (n1 + n2 + 1) <= 2 ^ 53 ->
  near (n1 + n2 + 1) (A1 + A2) (x + y)%float (S1 + S2).
Proof.
  intros [HS1 Hx] [HS2 Hy] F Hn1 Hn2 Hn.
  destruct (Rounding.add_error x y F) as (_ & _ & E).
  unfold near, closeTo in *.
  apply (add_bound (units x) (units y)); assumption.
Qed.

Lemma near_mono (n n' mag : Z) (x : float) (v : Z) :
  near n mag x v -> n <= n' -> near n' mag x v.
Proof.
  intros [Hv H] Hn. split; [exact Hv |]. unfold closeTo in *.
  assert (2 * n * mag <= 2 * n' * mag) by nia. lia.
Qed.

Lemma near_exact (x : float) :
  near 0 (Z.abs (units x)) x (units x).
Proof.
  split; [lia |]. unfold closeTo. rewrite Z.sub_diag. cbn. lia.
Qed.

(** Two approximations of the same value are close to each other. *)
Lemma near_both (n mag : Z) (x y : float) (v : Z) :
  near n mag x v -> near n mag y v ->
  closeTo (4 * n) mag x (units y).
Proof.
  intros [_ Hx] [_ Hy]. unfold closeTo in *. 
  replace (4 * n * mag) with (2 * n * mag + 2 * n * mag) by ring. lia.
Qed.

(** Two approximations with different budgets, and an approximation of a
    value shifted by an exact [c]. *)
Lemma close_both (n1 n2 num mag : Z) (x y : float) (v : Z) :
  near n1 mag x v -> near n2 mag y v -> 2 * (n1 + n2) <= num ->
  closeTo num mag x (units y).
Proof.
  intros [Hv Hx] [_ Hy] Hn. unfold closeTo in *.
  assert (2 * n1 * mag + 2 * n2 * mag <= num * mag) by nia. lia.
Qed.

Lemma close_shift (n1 n2 num M c : Z) (x y : float) (v : Z) :
  near n1 (M + Z.abs c) x (v + c) -> near n2 M y v ->
  0 <= n2 -> 2 * (n1 + n2) <= num ->
  closeTo num (M + Z.abs c) x (units y + c).
Proof.
  intros [Hv Hx] [Hv' Hy] H2 Hn. unfold closeTo in *.
  assert (2 * n2 * M <= 2 * n2 * (M + Z.abs c)) by nia.
  assert (2 * n1 * (M + Z.abs c) + 2 * n2 * (M + Z.abs c)
          <= num * (M + Z.abs c)) by nia.
  lia.
Qed.

End NearFacts.

(** The ranges the engine launches tile [[1, N)], and there are at most [N]
    of them. *)
Lemma chunkRanges_tiles_count (cfg : Config) (N : Z) :
  validRun cfg N ->
  exists chunks,
    chunkRanges cfg N = Some chunks /\ tiles 1 N chunks
    /\ Z.of_nat (length chunks) <= N.
Proof.
  intros valid.
  pose proof (nc_bounds cfg N valid) as (B1 & _ & B3).
  eexists. split; [apply chunkRanges_eq; exact valid |].
  split.
  - destruct (Z.to_nat ((N + ChunkSize cfg - 1) / ChunkSize cfg))
      as [| n] eqn:E; [lia |].
    apply (ideal_tiles cfg N valid n 0). lia.
  - rewrite length_map, length_seq. destruct valid as (HN & HW & _). nia.
Qed.

Section EngineRounding.

Import RoundingDefs NearFacts.

Variable A : ComplexArith.
Variable proj : C A -> float.
Hypothesis proj_add :
  forall x y : C A, proj (cadd A x y) = (proj x + proj y)%float.
Hypothesis proj_zero : units (proj (czero A)) = 0.
Variable s : C A.

Abbreviation tSum := (termSum A proj s).
Abbreviation tMag := (termMag A proj s).

Lemma termMag_nonneg (n : nat) (k : Z) : 0 <= tMag n k.
Proof.
  revert k. induction n as [| n IH]; intros k; cbn; [lia |].
  specialize (IH (k + 1)). lia.
Qed.

Lemma termSum_le_mag (n : nat) (k : Z) : Z.abs (tSum n k) <= tMag n k.
Proof.
  revert k. induction n as [| n IH]; intros k; cbn; [lia |].
  specialize (IH (k + 1)). lia.
Qed.

Lemma termSum_app (n m : nat) (k : Z) :
  tSum (n + m) k = tSum n k + tSum m (k + Z.of_nat n).
Proof.
  revert k. induction n as [| n IH]; intros k.
  - cbn. now rewrite Z.add_0_r.
  - cbn [Nat.add termSum]. rewrite IH.
    replace (k + 1 + Z.of_nat n) with (k + Z.of_nat (S n)) by lia. ring.
Qed.

Lemma termMag_app (n m : nat) (k : Z) :
  tMag (n + m) k = tMag n k + tMag m (k + Z.of_nat n).
Proof.
  revert k. induction n as [| n IH]; intros k.
  - cbn. now rewrite Z.add_0_r.
  - cbn [Nat.add termMag]. rewrite IH.
    replace (k + 1 + Z.of_nat n) with (k + Z.of_nat (S n)) by lia. ring.
Qed.

Lemma termMag_mono (n m : nat) (k : Z) : (n <= m)%nat -> tMag n k <= tMag m k.
Proof.
  intros H. replace m with (n + (m - n))%nat by lia.
  rewrite termMag_app.
  pose proof (termMag_nonneg (m - n) (k + Z.of_nat n)). lia.
Qed.

(** A finite sum was reached through finite sums only. *)
Lemma sum_fin_back (n : nat) (k : Z) (acc : C A) :
  is_finite (proj (sumTerms s n k acc)) = true ->
  is_finite (proj acc) = true.
Proof.
  revert k acc. induction n as [| n IH]; intros k acc F; [exact F |].
  cbn [sumTerms] in F. apply IH in F. rewrite proj_add in F.
  now apply Rounding.add_error in F.
Qed.

Lemma sum_fin_prefix (n j : nat) (k : Z) (acc : C A) :
  (j <= n)%nat ->
  is_finite (proj (sumTerms s n k acc)) = true ->
  is_finite (proj (sumTerms s j k acc)) = true.
Proof.
  intros Hj F. replace n with (j + (n - j))%nat in F by lia.
  rewrite sumTerms_app in F. now apply sum_fin_back in F.
Qed.

(** A left-to-right accumulation of [n] terms, from an approximation. *)
Lemma sum_near (n : nat) :
  forall (k : Z) (acc : C A) (n0 A0 S0 : Z),
    near n0 A0 (proj acc) S0 ->
    is_finite (proj (sumTerms s n k acc)) = true ->
    0 <= n0 -> 2 * (n0 + Z.of_nat n) <= 2 ^ 53 ->
    near (n0 + Z.of_nat n) (A0 + tMag n k)
         (proj (sumTerms s n k acc)) (S0 + tSum n k).
Proof.
  induction n as [| n IH]; intros k acc n0 A0 S0 Hacc F Hn0 Hn.
  - cbn [sumTerms termSum termMag]. now rewrite !Z.add_0_r.
  - cbn [sumTerms termSum termMag] in *.
    pose proof (sum_fin_back n (k + 1) _ F) as F1.
    rewrite proj_add in F1.
    pose proof (near_add _ _ _ _ _ _ _ _ Hacc
                  (near_exact (proj (term s k))) F1 Hn0 (Z.le_refl 0)
                  ltac:(lia)) as H1.
    rewrite <- proj_add in H1.
    pose proof (IH (k + 1) _ _ _ _ H1 F ltac:(lia) ltac:(lia)) as H2.
    replace (n0 + Z.of_nat (S n)) with (n0 + 0 + 1 + Z.of_nat n) by lia.
    now rewrite !Z.add_assoc.
Qed.


Lemma near_zero : near 0 0 (proj (czero A)) 0.
Proof.
  split; [cbn; lia |]. unfold closeTo. rewrite proj_zero. cbn. lia.
Qed.

(** The partial sum and the links of one chunk. *)
Lemma local_near (n : nat) (k : Z) :
  is_finite (proj (sumTerms s n k (czero A))) = true ->
  2 * Z.of_nat n <= 2 ^ 53 ->
  near (Z.of_nat n) (tMag n k) (proj (sumTerms s n k (czero A))) (tSum n k).
Proof.
  intros F Hn.
  exact (sum_near n k (czero A) 0 0 0 near_zero F (Z.le_refl 0) Hn).
Qed.

(** The chaining loop only appends. *)
Lemma chain_snd_app (chunks : list (Z * Z)) (R : C A) (out : list (C A)) :
  exists new,
    snd (fold_left chainStep (chunkResults A s chunks) (R, out)) = out ++ new.
Proof.
  revert R out. induction chunks as [| [a b] rest IH]; intros R out.
  - exists []. cbn. now rewrite app_nil_r.
  - cbn [chunkResults map fold_left fst snd].
    rewrite computePartialSumWithLinks_spec. cbn [chainStep].
    fold (chunkResults A s rest).
    destruct (IH (cadd A R (sumTerms s (Z.to_nat (b - a)) a (czero A)))
                 (out ++ map (fun l => cadd A l R)
                           (prefixSums s (Z.to_nat (b - a)) a (czero A))))
      as [new E].
    rewrite E, <- app_assoc. eexists. reflexivity.
Qed.

Lemma chain_fin_back (chunks : list (Z * Z)) (R : C A) (out : list (C A)) :
  is_finite
    (proj (fst (fold_left chainStep (chunkResults A s chunks) (R, out))))
  = true ->
  is_finite (proj R) = true.
Proof.
  revert R out. induction chunks as [| [a b] rest IH]; intros R out F.
  - exact F.
  - cbn [chunkResults map fold_left fst snd] in F.
    rewrite computePartialSumWithLinks_spec in F. cbn [chainStep] in F.
    fold (chunkResults A s rest) in F.
    apply IH in F. rewrite proj_add in F.
    now apply Rounding.add_error in F.
Qed.

(** The chaining loop over a tiling of [[lo, hi)], from a running sum that
    approximates the sum of the terms before [lo]: the new running sum
    approximates the sum of the terms before [hi], and the link at position
    [p] the sum of the terms [1..p+1]. *)
Lemma chain_near (chunks : list (Z * Z)) :
  forall (lo hi : Z) (R : C A) (out : list (C A)) (c B : Z),
    tiles lo hi chunks -> 1 <= lo ->
    length out = Z.to_nat (lo - 1) ->
    is_finite
      (proj (fst (fold_left chainStep (chunkResults A s chunks) (R, out))))
    = true ->
    (forall p x,
        (Z.to_nat (lo - 1) <= p)%nat ->
        nth_error
          (snd (fold_left chainStep (chunkResults A s chunks) (R, out))) p
        = Some x ->
        is_finite (proj x) = true) ->
    near c (tMag (Z.to_nat (lo - 1)) 1) (proj R) (tSum (Z.to_nat (lo - 1)) 1) ->
    0 <= c ->
    c + (hi - lo) + Z.of_nat (length chunks) + 1 <= B ->
    2 * B <= 2 ^ 53 ->
    near (c + (hi - lo) + Z.of_nat (length chunks))
         (tMag (Z.to_nat (hi - 1)) 1)
         (proj (fst (fold_left chainStep (chunkResults A s chunks) (R, out))))
         (tSum (Z.to_nat (hi - 1)) 1)
    /\ forall p x,
         (Z.to_nat (lo - 1) <= p)%nat ->
         nth_error
           (snd (fold_left chainStep (chunkResults A s chunks) (R, out))) p
         = Some x ->
         near B (tMag (S p) 1) (proj x) (tSum (S p) 1).
Proof.
  induction chunks as [| [a b] rest IH];
    intros lo hi R out c B T Hlo Lout F Fl HR Hc HB HU.
  - cbn [tiles] in T. subst hi. cbn [chunkResults map fold_left fst snd] in *.
    split.
    + cbn [length]. replace (c + (lo - lo) + Z.of_nat 0) with c by lia.
      exact HR.
    + intros p x Hp E. exfalso.
      assert (nth_error out p = None) by (apply nth_error_None; lia).
      congruence.
  - cbn [tiles] in T. destruct T as (-> & Hab & T).
    pose proof (tiles_le rest b hi T) as Hbh.
    cbn [chunkResults map fold_left fst snd length] in *.
    rewrite computePartialSumWithLinks_spec in *. cbn [chainStep] in *.
    fold (chunkResults A s rest) in *.
    set (m := Z.to_nat (b - lo)) in *.
    set (P := sumTerms s m lo (czero A)) in *.
    set (links := prefixSums s m lo (czero A)) in *.
    set (R' := cadd A R P) in *.
    set (out' := out ++ map (fun l => cadd A l R) links) in *.
    assert (Lout' : length out' = Z.to_nat (b - 1)).
    { unfold out', links.
      rewrite length_app, length_map, prefixSums_length. lia. }
    (* the running sum after this chunk *)
    pose proof (chain_fin_back rest R' out' F) as FR'.
    unfold R' in FR'. rewrite proj_add in FR'.
    destruct (Rounding.add_error _ _ FR') as (FR & FP & _).
    assert (NP : near (Z.of_nat m) (tMag m lo) (proj P) (tSum m lo))
      by (apply local_near; [exact FP | lia]).
    assert (NR' : near (c + Z.of_nat m + 1) (tMag (Z.to_nat (b - 1)) 1)
                       (proj R') (tSum (Z.to_nat (b - 1)) 1)).
    { unfold R'. rewrite proj_add.
      replace (Z.to_nat (b - 1)) with (Z.to_nat (lo - 1) + m)%nat by lia.
      rewrite termMag_app, termSum_app.
      replace (1 + Z.of_nat (Z.to_nat (lo - 1))) with lo by lia.
      apply near_add; try assumption; lia. }
    destruct (IH b hi R' out' (c + Z.of_nat m + 1) B T ltac:(lia) Lout' F)
      as [N1 N2]; try assumption; try lia.
    { intros p x Hp E. apply (Fl p x); [lia | exact E]. }
    split.
    + replace (c + (hi - lo) + Z.of_nat (S (length rest)))
        with (c + Z.of_nat m + 1 + (hi - b) + Z.of_nat (length rest)) by lia.
      exact N1.
    + intros p x Hp E.
      destruct (Nat.lt_ge_cases p (Z.to_nat (b - 1))) as [Hlt | Hge];
        [| now apply N2].
      pose proof (Fl p x Hp E) as Fx.
      destruct (chain_snd_app rest R' out') as [new Enew].
      rewrite Enew, nth_error_app1 in E by lia.
      unfold out' in E. rewrite nth_error_app2 in E by lia.
      rewrite Lout, nth_error_map in E.
      set (j := (p - Z.to_nat (lo - 1))%nat) in *.
      unfold links in E. rewrite prefixSums_nth in E by lia.
      cbn [option_map] in E. injection E as <-.
      rewrite proj_add in Fx |- *.
      destruct (Rounding.add_error _ _ Fx) as (Fl' & _ & _).
      replace (S p) with (Z.to_nat (lo - 1) + S j)%nat by lia.
      rewrite termMag_app, termSum_app.
      replace (1 + Z.of_nat (Z.to_nat (lo - 1))) with lo by lia.
      rewrite (Z.add_comm (tMag _ 1)), (Z.add_comm (tSum _ 1)).
      apply near_mono with (n := Z.of_nat (S j) + c + 1); [| lia].
      apply near_add; try assumption; try lia.
      apply local_near; [exact Fl' | lia].
Qed.


(** The state after the chaining loop: every chained link approximates the
    sum of the terms up to its index, and the running sum the sum of all
    terms. *)
Lemma chained_near (cfg : Config) (R : C A) (chained : list (C A)) :
  validRun cfg (termCount cfg s) ->
  termCount cfg s <= 2 ^ 50 ->
  chainedPartialSums cfg s = Some (R, chained) ->
  is_finite (proj R) = true ->
  (forall x, In x chained -> is_finite (proj x) = true) ->
  near (2 * termCount cfg s) (tMag (Z.to_nat (termCount cfg s - 1)) 1)
       (proj R) (tSum (Z.to_nat (termCount cfg s - 1)) 1)
  /\ forall i x,
       nth_error chained i = Some x ->
       near (2 * termCount cfg s) (tMag (S i) 1) (proj x) (tSum (S i) 1).
Proof.
  intros valid HN E FR Fc.
  destruct (chunkRanges_tiles_count cfg _ valid) as (chunks & Er & T & Lc).
  unfold chainedPartialSums in E. rewrite Er in E.
  fold (chunkResults A s chunks) in E. unfold chain in E.
  injection E as E.
  pose proof (chain_near chunks 1 (termCount cfg s) (czero A) [] 0
                (2 * termCount cfg s) T (Z.le_refl 1) eq_refl) as H.
  rewrite E in H. cbn [fst snd] in H.
  destruct valid as (H1 & _).
  destruct H as [N1 N2]; try assumption; try lia.
  - intros p x _ Ep. apply Fc. eapply nth_error_In, Ep.
  - exact near_zero.
  - split.
    + apply near_mono
        with (n := 0 + (termCount cfg s - 1) + Z.of_nat (length chunks));
        [exact N1 | lia].
    + intros i x Ei. apply (N2 i x); [cbn; lia | exact Ei].
Qed.

(** What the single-threaded accumulation leaves in slot [i+1]. *)
Lemma single_near (numLinks : Z) (single : list (C A)) :
  1 <= numLinks -> numLinks <= 2 ^ 50 ->
  calculateSingleThreadedPartialSums s numLinks = Some single ->
  (forall y, In y single -> is_finite (proj y) = true) ->
  forall i y,
    nth_error single (S i) = Some y ->
    near (Z.of_nat (S i)) (tMag (S i) 1) (proj y) (tSum (S i) 1).
Proof.
  intros H1 HN E Fs i y Ei.
  rewrite calculateSingleThreadedPartialSums_spec in E by exact H1.
  injection E as <-. cbn [nth_error] in Ei.
  assert (Hi : (i < Z.to_nat (numLinks - 1))%nat).
  { rewrite <- (prefixSums_length A s (Z.to_nat (numLinks - 1)) 1 (czero A)).
    apply nth_error_Some. congruence. }
  pose proof (Fs y (or_intror (nth_error_In _ _ Ei))) as Fy.
  rewrite prefixSums_nth in Ei by exact Hi. injection Ei as <-.
  apply local_near; [exact Fy | lia].
Qed.

(** Two runs that differ in their chunk widths, and the single-threaded
    accumulation, one component at a time. *)
Lemma runs_close (cfg1 cfg2 : Config)
  (total1 total2 : C A) (traj1 traj2 single : list (C A)) :
  termCount cfg2 s = termCount cfg1 s ->
  validRun cfg1 (termCount cfg1 s) -> validRun cfg2 (termCount cfg1 s) ->
  2 <= termCount cfg1 s <= 2 ^ 50 ->
  calculateSpiralPartialSums cfg1 s = Some (total1, traj1) ->
  calculateSpiralPartialSums cfg2 s = Some (total2, traj2) ->
  calculateSingleThreadedPartialSums s (termCount cfg1 s) = Some single ->
  (forall x, In x (total1 :: traj1) -> is_finite (proj x) = true) ->
  (forall x, In x (total2 :: traj2) -> is_finite (proj x) = true) ->
  (forall y, In y single -> is_finite (proj y) = true) ->
  let N := termCount cfg1 s in
  let corr := units (proj (correction N s)) in
  let last := Z.to_nat (N - 2) in
  (forall i x1,
      (i < last)%nat -> nth_error traj1 i = Some x1 ->
      (forall x2, nth_error traj2 i = Some x2 ->
         closeTo (tolerance N) (tMag (S i) 1) (proj x1) (units (proj x2)))
      /\ (forall y, nth_error single (S i) = Some y ->
            closeTo (tolerance N) (tMag (S i) 1) (proj x1) (units (proj y))))
  /\ (forall x1,
        nth_error traj1 last = Some x1 ->
        (forall x2, nth_error traj2 last = Some x2 ->
           closeTo (tolerance N) (tMag (S last) 1 + Z.abs corr)
                   (proj x1) (units (proj x2)))
        /\ (forall y, nth_error single (S last) = Some y ->
              closeTo (tolerance N) (tMag (S last) 1 + Z.abs corr)
                      (proj x1) (units (proj y) + corr)))
  /\ closeTo (tolerance N) (tMag (S last) 1 + Z.abs corr)
             (proj total1) (units (proj total2))
  /\ (forall y, nth_error single (S last) = Some y ->
        closeTo (tolerance N) (tMag (S last) 1 + Z.abs corr)
                (proj total1) (units (proj y) + corr)).
Proof.
  intros EN valid1 valid2 HN E1 E2 Es F1 F2 Fs N corr last.
  assert (G : forall cfg total traj,
             termCount cfg s = N -> validRun cfg N ->
             calculateSpiralPartialSums cfg s = Some (total, traj) ->
             (forall x, In x (total :: traj) -> is_finite (proj x) = true) ->
             (forall i x, (i < last)%nat -> nth_error traj i = Some x ->
                near (2 * N) (tMag (S i) 1) (proj x) (tSum (S i) 1))
             /\ (forall x, nth_error traj last = Some x ->
                   near (2 * N + 1) (tMag (S last) 1 + Z.abs corr) (proj x)
                        (tSum (S last) 1 + corr))
             /\ near (2 * N + 1) (tMag (S last) 1 + Z.abs corr) (proj total)
                     (tSum (S last) 1 + corr)).
  { intros cfg total traj Ecfg valid E F.
    assert (valid' : validRun cfg (termCount cfg s))
      by (rewrite Ecfg; exact valid).
    destruct (engine_shape A s cfg valid') as (R & pre & x0 & Ec & Ee & Lp);
      [rewrite Ecfg; lia |].
    rewrite Ecfg in Ee, Lp.
    rewrite Ee in E. injection E as <- <-.
    assert (FR : is_finite (proj (cadd A R (correction N s))) = true)
      by (apply F; now left).
    assert (Fx : is_finite (proj (cadd A x0 (correction N s))) = true).
    { apply F. right. apply in_or_app. right. now left. }
    rewrite proj_add in FR, Fx.
    destruct (Rounding.add_error _ _ FR) as (FR0 & _ & _).
    destruct (Rounding.add_error _ _ Fx) as (Fx0 & _ & _).
    destruct (chained_near cfg R (pre ++ [x0])) as [NR Nl].
    - exact valid'.
    - rewrite Ecfg. lia.
    - exact Ec.
    - exact FR0.
    - intros x Hx. apply in_app_or in Hx as [Hx | [<- | []]]; [| exact Fx0].
      apply F. right. apply in_or_app. now left.
    - rewrite Ecfg in NR, Nl.
      replace (Z.to_nat (N - 1)) with (S last) in NR by (unfold last; lia).
      assert (Nx0 : near (2 * N) (tMag (S last) 1) (proj x0)
                         (tSum (S last) 1)).
      { apply (Nl last). rewrite nth_error_app2 by (unfold last; lia).
        replace (last - length pre)%nat with 0%nat by (unfold last; lia).
        reflexivity. }
      split; [| split].
      + intros i x Hi Ei. apply (Nl i).
        rewrite nth_error_app1 in Ei |- * by (unfold last in Hi; lia).
        exact Ei.
      + intros x Ex. rewrite nth_error_app2 in Ex by (unfold last; lia).
        replace (last - length pre)%nat with 0%nat in Ex
          by (unfold last; lia).
        injection Ex as <-. rewrite proj_add.
        replace (2 * N + 1) with (2 * N + 0 + 1) by lia.
        apply near_add; try lia;
          [exact Nx0 | apply near_exact | exact Fx].
      + rewrite proj_add.
        replace (2 * N + 1) with (2 * N + 0 + 1) by lia.
        apply near_add; try lia;
          [exact NR | apply near_exact | exact FR]. }
  destruct (G cfg1 total1 traj1 eq_refl valid1 E1 F1) as (A1 & B1 & C1).
  destruct (G cfg2 total2 traj2 EN valid2 E2 F2) as (A2 & B2 & C2).
  pose proof (single_near N single ltac:(lia) ltac:(lia) Es Fs) as D.
  assert (HM : 0 <= tMag (S last) 1) by apply termMag_nonneg.
  unfold tolerance.
  split; [| split; [| split]].
  - intros i x1 Hi Ex1. split.
    + intros x2 Ex2.
      apply close_both with (n1 := 2 * N) (n2 := 2 * N) (v := tSum (S i) 1);
        [now apply A1 | now apply A2 | lia].
    + intros y Ey.
      apply close_both with (n1 := 2 * N) (n2 := Z.of_nat (S i))
                            (v := tSum (S i) 1);
        [now apply A1 | now apply D | unfold last in Hi; lia].
  - intros x1 Ex1. split.
    + intros x2 Ex2.
      apply close_both with (n1 := 2 * N + 1) (n2 := 2 * N + 1)
                            (v := tSum (S last) 1 + corr);
        [now apply B1 | now apply B2 | lia].
    + intros y Ey.
      apply close_shift with (n1 := 2 * N + 1) (n2 := Z.of_nat (S last))
                             (v := tSum (S last) 1);
        [now apply B1 | now apply D | lia | unfold last; lia].
  - apply close_both with (n1 := 2 * N + 1) (n2 := 2 * N + 1)
                          (v := tSum (S last) 1 + corr);
      [exact C1 | exact C2 | lia].
  - intros y Ey.
    apply close_shift with (n1 := 2 * N + 1) (n2 := Z.of_nat (S last))
                           (v := tSum (S last) 1);
      [exact C1 | now apply D | lia | unfold last; lia].
Qed.


(** The chained links of a run whose results are finite. *)
Lemma engine_chained_near (cfg : Config) (R total : C A)
  (chained traj : list (C A)) :
  validRun cfg (termCount cfg s) ->
  2 <= termCount cfg s <= 2 ^ 50 ->
  chainedPartialSums cfg s = Some (R, chained) ->
  calculateSpiralPartialSums cfg s = Some (total, traj) ->
  (forall x, In x (total :: traj) -> is_finite (proj x) = true) ->
  near (2 * termCount cfg s) (tMag (Z.to_nat (termCount cfg s - 1)) 1)
       (proj R) (tSum (Z.to_nat (termCount cfg s - 1)) 1)
  /\ forall i x,
       nth_error chained i = Some x ->
       near (2 * termCount cfg s) (tMag (S i) 1) (proj x) (tSum (S i) 1).
Proof.
  intros valid HN Ec E F.
  destruct (engine_shape A s cfg valid) as (R' & pre & x0 & Ec' & Ee & Lp);
    [lia |].
  rewrite Ec' in Ec. injection Ec as <- <-.
  rewrite Ee in E. injection E as <- <-.
  assert (FR : is_finite (proj (cadd A R' (correction (termCount cfg s) s)))
               = true) by (apply F; now left).
  assert (Fx : is_finite (proj (cadd A x0 (correction (termCount cfg s) s)))
               = true).
  { apply F. right. apply in_or_app. right. now left. }
  rewrite proj_add in FR, Fx.
  destruct (Rounding.add_error _ _ FR) as (FR0 & _ & _).
  destruct (Rounding.add_error _ _ Fx) as (Fx0 & _ & _).
  apply (chained_near cfg R' (pre ++ [x0]) valid (proj2 HN) Ec' FR0).
  intros x Hx. apply in_app_or in Hx as [Hx | [<- | []]]; [| exact Fx0].
  apply F. right. apply in_or_app. now left.
Qed.

(** An accumulation that does not start from [-0] never gives [-0]. *)
Lemma sum_not_negzero (n : nat) (k : Z) (acc : C A) :
  Prim2SF (proj acc) <> S754_zero true ->
  Prim2SF (proj (sumTerms s n k acc)) <> S754_zero true.
Proof.
  revert k acc. induction n as [| n IH]; intros k acc H; [exact H |].
  cbn [sumTerms]. apply IH. rewrite proj_add.
  now apply Rounding.add_not_negzero.
Qed.

End EngineRounding.

(** ** The engine over binary64 *)
Section EngineBinary64.

Import RoundingDefs.

Variable cmplx_Pow : F64.complex -> F64.complex -> F64.complex.
Variable cmplx_Abs : F64.complex -> float.

Abbreviation A64 := (F64.arith cmplx_Pow cmplx_Abs).

Lemma real_add (x y : C A64) :
  F64.real (cadd A64 x y) = (F64.real x + F64.real y)%float.
Proof. reflexivity. Qed.

Lemma imag_add (x y : C A64) :
  F64.imag (cadd A64 x y) = (F64.imag x + F64.imag y)%float.
Proof. reflexivity. Qed.

Lemma component_add (proj : F64.complex -> float) :
  proj = F64.real \/ proj = F64.imag ->
  (forall x y : C A64, proj (cadd A64 x y) = (proj x + proj y)%float)
  /\ units (proj (czero A64)) = 0.
Proof. intros [-> | ->]; split; reflexivity. Qed.

Lemma finite_components (l : list F64.complex)
  (proj : F64.complex -> float) :
  forallb F64.finite l = true ->
  proj = F64.real \/ proj = F64.imag ->
  forall x, In x l -> is_finite (proj x) = true.
Proof.
  intros H Hp x Hx. rewrite forallb_forall in H. specialize (H x Hx).
  unfold F64.finite in H. apply andb_prop in H as [H1 H2].
  destruct Hp as [-> | ->]; assumption.
Qed.

Lemma add_czero (x : F64.complex) :
  Prim2SF (F64.real x) <> S754_zero true ->
  Prim2SF (F64.imag x) <> S754_zero true ->
  F64.add x (0, 0)%float = x.
Proof.
  intros Hr Hi. destruct x as [a b]. unfold F64.add. cbn [F64.real F64.imag fst snd] in *.
  now rewrite !Rounding.add_zero_r.
Qed.

(** Within the first chunk the chained link is the plain left-to-right
    binary64 sum: the running sum added to it is [0+0i]. *)
Lemma first_chunk_exact (cfg : Config) (s : C A64) (R : C A64)
  (chained : list (C A64)) :
  validRun cfg (termCount cfg s) ->
  chainedPartialSums cfg s = Some (R, chained) ->
  forall i : nat,
    Z.of_nat i < ChunkSize cfg -> Z.of_nat i < termCount cfg s - 1 ->
    nth_error chained i = Some (sumTerms s (S i) 1 (czero A64)).
Proof.
  intros valid E i HW HN.
  pose proof (nc_bounds cfg _ valid) as (_ & _ & B3).
  unfold chainedPartialSums in E.
  rewrite (chunkRanges_eq cfg _ valid) in E.
  destruct (Z.to_nat ((termCount cfg s + ChunkSize cfg - 1) / ChunkSize cfg))
    as [| n] eqn:En; [lia |].
  cbn [seq map] in E. unfold chain in E. cbn [fold_left] in E.
  rewrite computePartialSumWithLinks_spec in E. cbn [chainStep] in E.
  match type of E with
  | Some (fold_left _ (map _ ?rest) (?r0, ?o)) = _ =>
      destruct (chain_snd_app A64 s rest r0 o) as [new Enew];
      unfold chunkResults in Enew;
      assert (E' : fold_left chainStep
                     (map (fun c => computePartialSumWithLinks
                                      (fst c) (snd c) s) rest) (r0, o)
                   = (R, chained)) by congruence
  end.
  rewrite E' in Enew. cbn [snd app] in Enew. subst chained. clear E E'.
  assert (E0 : idealChunk cfg (termCount cfg s) 0
               = (1, Z.min (1 + ChunkSize cfg) (termCount cfg s)))
    by (unfold idealChunk; f_equal; lia).
  rewrite E0. cbn [fst snd].
  set (m := Z.to_nat (Z.min (1 + ChunkSize cfg) (termCount cfg s) - 1)).
  assert (Hi : (i < m)%nat) by (unfold m; lia).
  rewrite nth_error_app1 by (rewrite length_map, prefixSums_length; exact Hi).
  rewrite nth_error_map, prefixSums_nth by exact Hi. cbn [option_map].
  f_equal. apply add_czero.
  - apply (sum_not_negzero A64 F64.real real_add). discriminate.
  - apply (sum_not_negzero A64 F64.imag imag_add). discriminate.
Qed.

End EngineBinary64.

(** ** The claims on the summation engine, over binary64 *)
Section Binary64Claims.

Import RoundingDefs.

Variable cmplx_Pow : F64.complex -> F64.complex -> F64.complex.
Variable cmplx_Abs : F64.complex -> float.

Abbreviation B64 := (F64.arith cmplx_Pow cmplx_Abs).

(** C2, as the code has it, over binary64 and for every [cmplx.Pow] and
    [cmplx.Abs].  For a valid run of 2 to [2^50] term indices:
    - the grand total is the running sum of the chaining loop plus
      [Pow(N, 1-s) / (s-1) + 0.5 * Pow(N, -s)], added once;
    - the trajectory keeps its [N-1] elements; its last element is the last
      chained link plus that same correction, added once; every other
      element is the chained link, untouched;
    - within the first chunk the chained link [i] is the plain left-to-right
      binary64 sum of the terms [1..i+1];
    - in every chunk, when the results are finite, each component of the
      chained link [i] is within [4 N 2^-53] times the sum of the
      magnitudes of the terms [1..i+1] of their exact sum, and so is the
      running sum for the terms [1..N-1]: nothing but the terms is in
      them. *)
Theorem correction_applied_once (cfg : Config) (s : F64.complex) :
  validRun cfg (termCount (A := B64) cfg s) ->
  2 <= termCount (A := B64) cfg s <= 2 ^ 50 ->
  exists runningSum chained total traj,
    let N := termCount (A := B64) cfg s in
    let corr :=
      F64.add
        (F64.div (cmplx_Pow (F64.of_int N) (F64.sub (1, 0)%float s))
                 (F64.sub s (1, 0)%float))
        (F64.mul (0.5, 0)%float (cmplx_Pow (F64.of_int N) (F64.neg s))) in
    chainedPartialSums (A := B64) cfg s = Some (runningSum, chained)
    /\ calculateSpiralPartialSums (A := B64) cfg s = Some (total, traj)
    /\ total = F64.add runningSum corr
    /\ length chained = Z.to_nat (N - 1)
    /\ length traj = Z.to_nat (N - 1)
    /\ (exists x,
          nth_error chained (Z.to_nat (N - 2)) = Some x
          /\ nth_error traj (Z.to_nat (N - 2)) = Some (F64.add x corr))
    /\ (forall i, (i < Z.to_nat (N - 2))%nat ->
          nth_error traj i = nth_error chained i)
    /\ (forall i : nat,
          Z.of_nat i < ChunkSize cfg -> Z.of_nat i < N - 1 ->
          nth_error chained i
          = Some (sumTerms (A := B64) s (S i) 1 (0, 0)%float))
    /\ (forallb F64.finite (total :: traj) = true ->
        forall proj, proj = F64.real \/ proj = F64.imag ->
        closeTo (4 * N) (termMag B64 proj s (Z.to_nat (N - 1)) 1)
                (proj runningSum) (termSum B64 proj s (Z.to_nat (N - 1)) 1)
        /\ forall i x,
             nth_error chained i = Some x ->
             closeTo (4 * N) (termMag B64 proj s (S i) 1)
                     (proj x) (termSum B64 proj s (S i) 1)).
Proof.
  intros valid HN.
  destruct (engine_shape B64 s cfg valid (proj1 HN))
    as (runningSum & pre & x & Ec & Ee & Lp).
  exists runningSum, (pre ++ [x]).
  eexists _, _. cbv zeta.
  split; [exact Ec |]. split; [exact Ee |]. split; [reflexivity |].
  split; [rewrite length_app; cbn [length]; lia |].
  split; [rewrite length_app; cbn [length]; lia |].
  split.
  { exists x. rewrite <- Lp, !nth_error_app2, Nat.sub_diag by lia.
    split; reflexivity. }
  split.
  { intros i Hi. now rewrite !nth_error_app1 by lia. }
  split.
  { intros i HW Hi. now apply (first_chunk_exact _ _ cfg s runningSum). }
  intros F proj Hp.
  destruct (component_add cmplx_Pow cmplx_Abs proj Hp) as [Padd Pzero].
  destruct (engine_chained_near B64 proj Padd Pzero s cfg runningSum _
              (pre ++ [x]) _ valid HN Ec Ee
              (finite_components _ proj F Hp)) as [[_ HR] Hl].
  replace (4 * termCount (A := B64) cfg s)
    with (2 * (2 * termCount (A := B64) cfg s)) by ring.
  split; [exact HR |].
  intros i y Ey. exact (proj2 (Hl i y Ey)).
Qed.

(** C1, as the code has it, over binary64 and for every [cmplx.Pow] and
    [cmplx.Abs].  Two runs of 2 to [2^50] term indices that differ only in
    their (valid) chunk widths return trajectories of the same length
    [N-1]; the single-threaded accumulation returns [N] elements, slot 0
    being left at zero.  When all these results are finite, then in each
    component (real and imaginary), with the tolerance [(8 N + 4) 2^-53]
    relative to the sum of the magnitudes of the terms added so far:
    - element [i] of one trajectory is within tolerance of element [i] of
      the other, and of slot [i+1] of the single-threaded slice;
    - for the last element and for the grand total the magnitude includes
      that of the correction [Pow(N, 1-s) / (s-1) + 0.5 * Pow(N, -s)]; the
      two runs are within tolerance of each other, and of the last
      single-threaded partial sum plus the correction.
    [closeTo num mag x v] reads [|x - v| <= num * 2^-53 * mag]; values are
    taken in units of [2^-1074], of which every finite binary64 number is a
    whole multiple. *)
Theorem chunk_invariance (cfg1 cfg2 : Config) (s : F64.complex) :
  MinN cfg1 = MinN cfg2 -> MaxN cfg1 = MaxN cfg2 ->
  validRun cfg1 (termCount (A := B64) cfg1 s) ->
  validRun cfg2 (termCount (A := B64) cfg2 s) ->
  2 <= termCount (A := B64) cfg1 s <= 2 ^ 50 ->
  exists total1 traj1 total2 traj2 single,
    let N := termCount (A := B64) cfg1 s in
    let last := Z.to_nat (N - 2) in
    calculateSpiralPartialSums (A := B64) cfg1 s = Some (total1, traj1)
    /\ calculateSpiralPartialSums (A := B64) cfg2 s = Some (total2, traj2)
    /\ calculateSingleThreadedPartialSums (A := B64) s N = Some single
    /\ length traj1 = S last /\ length traj2 = S last
    /\ length single = S (S last)
    /\ (forallb F64.finite (total1 :: traj1) = true ->
        forallb F64.finite (total2 :: traj2) = true ->
        forallb F64.finite single = true ->
        forall proj, proj = F64.real \/ proj = F64.imag ->
        let corr :=
          units (proj (F64.add
                         (F64.div (cmplx_Pow (F64.of_int N)
                                             (F64.sub (1, 0)%float s))
                                  (F64.sub s (1, 0)%float))
                         (F64.mul (0.5, 0)%float
                                  (cmplx_Pow (F64.of_int N) (F64.neg s))))) in
        let mag := fun n => termMag B64 proj s n 1 in
        (forall i x1,
            (i < last)%nat -> nth_error traj1 i = Some x1 ->
            (forall x2, nth_error traj2 i = Some x2 ->
               closeTo (tolerance N) (mag (S i)) (proj x1) (units (proj x2)))
            /\ (forall y, nth_error single (S i) = Some y ->
                  closeTo (tolerance N) (mag (S i)) (proj x1)
                          (units (proj y))))
        /\ (forall x1,
              nth_error traj1 last = Some x1 ->
              (forall x2, nth_error traj2 last = Some x2 ->
                 closeTo (tolerance N) (mag (S last) + Z.abs corr)
                         (proj x1) (units (proj x2)))
              /\ (forall y, nth_error single (S last) = Some y ->
                    closeTo (tolerance N) (mag (S last) + Z.abs corr)
                            (proj x1) (units (proj y) + corr)))
        /\ closeTo (tolerance N) (mag (S last) + Z.abs corr)
                   (proj total1) (units (proj total2))
        /\ (forall y, nth_error single (S last) = Some y ->
              closeTo (tolerance N) (mag (S last) + Z.abs corr)
                      (proj total1) (units (proj y) + corr))).
Proof.
  intros Hmin Hmax valid1 valid2 HN.
  assert (EN : termCount (A := B64) cfg2 s = termCount (A := B64) cfg1 s).
  { unfold termCount, clampN. now rewrite Hmin, Hmax. }
  rewrite EN in valid2.
  destruct (engine_length B64 s cfg1 valid1) as (total1 & traj1 & E1 & L1).
  destruct (engine_length B64 s cfg2) as (total2 & traj2 & E2 & L2);
    [now rewrite EN |].
  rewrite EN in L2.
  destruct (single_length B64 s (termCount (A := B64) cfg1 s))
    as (single & Es & Ls); [lia |].
  exists total1, traj1, total2, traj2, single. cbv zeta.
  split; [exact E1 |]. split; [exact E2 |]. split; [exact Es |].
  split; [lia |]. split; [lia |]. split; [lia |].
  intros F1 F2 Fs proj Hp.
  destruct (component_add cmplx_Pow cmplx_Abs proj Hp) as [Padd Pzero].
  exact (runs_close B64 proj Padd Pzero s cfg1 cfg2 total1 total2
           traj1 traj2 single EN valid1 valid2 HN E1 E2 Es
           (finite_components _ proj F1 Hp) (finite_components _ proj F2 Hp)
           (finite_components _ proj Fs Hp)).
Qed.

End Binary64Claims.


(** ** The exact instance *)
Module ExactFacts.

Import Exact.

Lemma laws : ExactAdd arith.
Proof.
  constructor; cbn; unfold add.
  - intros [a b] [c d] [e f]. cbn. now rewrite !Qcplus_assoc.
  - intros [a b] [c d]. cbn. f_equal; apply Qcplus_comm.
  - intros [a b]. cbn. now rewrite !Qcplus_0_l.
Qed.

Lemma termCount_two : termCount (A := arith) defaultConfig two = 100.
Proof. reflexivity. Qed.

Lemma valid_two :
  validRun defaultConfig (termCount (A := arith) defaultConfig two).
Proof.
  rewrite termCount_two. unfold validRun, GoInt.max_int. cbn. lia.
Qed.

Lemma first_term : cadd arith (czero arith) (term (A := arith) two 1)
                   = cone arith.
Proof.
  cbn. unfold add, term. cbn.
  f_equal; apply Qc_is_canon; reflexivity.
Qed.

End ExactFacts.

(** ** The engine on exact twelfth powers *)
Module PowersFacts.

Import Powers.

Lemma termCount_23 (cfg : Config) :
  MinN cfg = 23 -> MaxN cfg = 23 ->
  termCount (A := arith) cfg exponent = 23.
Proof.
  intros E1 E2. unfold termCount, clampN. rewrite E1, E2.
  replace (abs_int arith exponent) with 12 by (vm_compute; reflexivity).
  reflexivity.
Qed.

Lemma valid_23 (cfg : Config) :
  MinN cfg = 23 -> MaxN cfg = 23 -> 1 <= ChunkSize cfg <= 2 ^ 62 ->
  validRun cfg (termCount (A := arith) cfg exponent).
Proof.
  intros E1 E2 HW. rewrite termCount_23 by assumption.
  unfold validRun, GoInt.max_int. lia.
Qed.

End PowersFacts.

Lemma correction_applied_once_witness :
  validRun Powers.chunksOf11
           (termCount (A := Powers.arith) Powers.chunksOf11 Powers.exponent)
  /\ 2 <= termCount (A := Powers.arith) Powers.chunksOf11 Powers.exponent
       <= 2 ^ 50
  /\ exists runningSum chained total traj,
       chainedPartialSums (A := Powers.arith) Powers.chunksOf11
                          Powers.exponent = Some (runningSum, chained)
       /\ calculateSpiralPartialSums (A := Powers.arith) Powers.chunksOf11
                                     Powers.exponent = Some (total, traj)
       /\ length traj = 22%nat
       /\ forallb F64.finite (total :: traj) = true
       /\ forall i x,
            nth_error chained i = Some x ->
            closeTo (4 * 23)
                    (termMag Powers.arith F64.real Powers.exponent (S i) 1)
                    (F64.real x)
                    (termSum Powers.arith F64.real Powers.exponent (S i) 1).
Proof.
  assert (E : termCount (A := Powers.arith) Powers.chunksOf11 Powers.exponent
              = 23) by (apply PowersFacts.termCount_23; reflexivity).
  assert (H1 : validRun Powers.chunksOf11
                 (termCount (A := Powers.arith) Powers.chunksOf11
                            Powers.exponent))
    by (apply PowersFacts.valid_23; cbn; (reflexivity || lia)).
  assert (H2 : 2 <= termCount (A := Powers.arith) Powers.chunksOf11
                              Powers.exponent <= 2 ^ 50)
    by (rewrite E; lia).
  split; [exact H1 |]. split; [exact H2 |].
  destruct (correction_applied_once Powers.twelfth Powers.realAbs
              Powers.chunksOf11 Powers.exponent H1 H2)
    as (runningSum & chained & total & traj & H).
  cbv zeta in H. fold Powers.arith in H.
  destruct H as (Ec & Ee & _ & _ & Lt & _ & _ & _ & Hclose).
  assert (G : match calculateSpiralPartialSums (A := Powers.arith)
                      Powers.chunksOf11 Powers.exponent with
              | Some (t, l) => forallb F64.finite (t :: l) = true
              | None => False
              end) by (vm_compute; reflexivity).
  rewrite Ee in G.
  exists runningSum, chained, total, traj.
  split; [exact Ec |]. split; [exact Ee |].
  split; [rewrite Lt, E; reflexivity |]. split; [exact G |].
  intros i x Ex. rewrite <- E.
  exact (proj2 (Hclose G F64.real (or_introl eq_refl)) i x Ex).
Defined.

Lemma chunk_invariance_witness :
  MinN Powers.chunksOf11 = MinN Powers.chunksOf7
  /\ MaxN Powers.chunksOf11 = MaxN Powers.chunksOf7
  /\ validRun Powers.chunksOf11
       (termCount (A := Powers.arith) Powers.chunksOf11 Powers.exponent)
  /\ validRun Powers.chunksOf7
       (termCount (A := Powers.arith) Powers.chunksOf7 Powers.exponent)
  /\ 2 <= termCount (A := Powers.arith) Powers.chunksOf11 Powers.exponent
       <= 2 ^ 50
  /\ exists total1 traj1 total2 traj2 single,
       calculateSpiralPartialSums (A := Powers.arith) Powers.chunksOf11
                                  Powers.exponent = Some (total1, traj1)
       /\ calculateSpiralPartialSums (A := Powers.arith) Powers.chunksOf7
                                     Powers.exponent = Some (total2, traj2)
       /\ calculateSingleThreadedPartialSums (A := Powers.arith)
            Powers.exponent 23 = Some single
       /\ forallb F64.finite (total1 :: traj1) = true
       /\ forallb F64.finite (total2 :: traj2) = true
       /\ forallb F64.finite single = true
       /\ forall i x1 x2,
            (i < 21)%nat ->
            nth_error traj1 i = Some x1 -> nth_error traj2 i = Some x2 ->
            closeTo (tolerance 23)
                    (termMag Powers.arith F64.real Powers.exponent (S i) 1)
                    (F64.real x1) (units (F64.real x2)).
Proof.
  assert (E : termCount (A := Powers.arith) Powers.chunksOf11 Powers.exponent
              = 23) by (apply PowersFacts.termCount_23; reflexivity).
  assert (H1 : validRun Powers.chunksOf11
                 (termCount (A := Powers.arith) Powers.chunksOf11
                            Powers.exponent))
    by (apply PowersFacts.valid_23; cbn; (reflexivity || lia)).
  assert (H1' : validRun Powers.chunksOf7
                  (termCount (A := Powers.arith) Powers.chunksOf7
                             Powers.exponent))
    by (apply PowersFacts.valid_23; cbn; (reflexivity || lia)).
  assert (H2 : 2 <= termCount (A := Powers.arith) Powers.chunksOf11
                              Powers.exponent <= 2 ^ 50)
    by (rewrite E; lia).
  split; [reflexivity |]. split; [reflexivity |].
  split; [exact H1 |]. split; [exact H1' |]. split; [exact H2 |].
  destruct (chunk_invariance Powers.twelfth Powers.realAbs
              Powers.chunksOf11 Powers.chunksOf7 Powers.exponent
              eq_refl eq_refl H1 H1' H2)
    as (total1 & traj1 & total2 & traj2 & single & H).
  cbv zeta in H. fold Powers.arith in H. rewrite E in H.
  destruct H as (E1 & E2 & Es & _ & _ & _ & Hclose).
  assert (G1 : match calculateSpiralPartialSums (A := Powers.arith)
                       Powers.chunksOf11 Powers.exponent with
               | Some (t, l) => forallb F64.finite (t :: l) = true
               | None => False
               end) by (vm_compute; reflexivity).
  assert (G2 : match calculateSpiralPartialSums (A := Powers.arith)
                       Powers.chunksOf7 Powers.exponent with
               | Some (t, l) => forallb F64.finite (t :: l) = true
               | None => False
               end) by (vm_compute; reflexivity).
  assert (G3 : match calculateSingleThreadedPartialSums (A := Powers.arith)
                       Powers.exponent 23 with
               | Some l => forallb F64.finite l = true
               | None => False
               end) by (vm_compute; reflexivity).
  rewrite E1 in G1. rewrite E2 in G2. rewrite Es in G3.
  exists total1, traj1, total2, traj2, single.
  split; [exact E1 |]. split; [exact E2 |]. split; [exact Es |].
  split; [exact G1 |]. split; [exact G2 |]. split; [exact G3 |].
  intros i x1 x2 Hi Ex1 Ex2.
  destruct (Hclose G1 G2 G3 F64.real (or_introl eq_refl)) as (Hc & _).
  exact (proj1 (Hc i x1 Hi Ex1) x2 Ex2).
Defined.

(** C2, the claim as written fails over binary64: beyond the first chunk a
    trajectory element need not be the plain left-to-right cumulative sum.
    For a [cmplx.Pow] that returns the (exactly representable) twelfth
    powers, [N = 23] and chunks of 11, element 20 (not the last, which is
    element 21) is 15909231318568906 while the terms 1..21 added from left
    to right give 15909231318568908. *)
Lemma cumulative_sum_counterexample :
  exists total traj,
    calculateSpiralPartialSums (A := Powers.arith) Powers.chunksOf11
                               Powers.exponent = Some (total, traj)
    /\ length traj = 22%nat
    /\ nth_error traj 20 = Some (15909231318568906, 0)%float
    /\ sumTerms (A := Powers.arith) Powers.exponent 21 1 (0, 0)%float
       = (15909231318568908, 0)%float
    /\ nth_error traj 20
       <> Some (sumTerms (A := Powers.arith) Powers.exponent 21 1
                         (0, 0)%float).
Proof.
  assert (S21 : sumTerms (A := Powers.arith) Powers.exponent 21 1
                         (0, 0)%float
                = (15909231318568908, 0)%float) by (vm_compute; reflexivity).
  destruct (calculateSpiralPartialSums (A := Powers.arith) Powers.chunksOf11
              Powers.exponent) as [[total traj] |] eqn:E.
  - exists total, traj. split; [reflexivity |].
    assert (G : match calculateSpiralPartialSums (A := Powers.arith)
                        Powers.chunksOf11 Powers.exponent with
                | Some (t, l) =>
                    length l = 22%nat
                    /\ nth_error l 20
                       = Some (15909231318568906, 0)%float
                | None => False
                end) by (vm_compute; split; reflexivity).
    rewrite E in G. destruct G as [L E20].
    split; [exact L |]. split; [exact E20 |]. split; [exact S21 |].
    rewrite E20, S21. intros H.
    apply (f_equal (fun o => match o with
                             | Some z => Prim2SF (F64.real z)
                             | None => S754_nan
                             end)) in H.
    vm_compute in H. discriminate.
  - exfalso.
    assert (G : calculateSpiralPartialSums (A := Powers.arith)
                  Powers.chunksOf11 Powers.exponent <> None)
      by (vm_compute; discriminate).
    exact (G E).
Qed.


(** ** Non-finite values in binary64 arithmetic *)
Module F64Facts.

Import F64.
Local Open Scope float_scope.

Lemma nonfinite_nan : nonfinite nan.
Proof. left. reflexivity. Qed.

Lemma nonfinite_is_finite (x : float) : nonfinite x -> is_finite x = false.
Proof.
  unfold is_finite, is_nan, is_infinity.
  rewrite !FloatAxioms.eqb_spec, FloatAxioms.abs_spec.
  intros [H | [sg H]]; rewrite H; [reflexivity |].
  destruct sg; reflexivity.
Qed.

Lemma add_nonfinite_l (x y : float) : nonfinite x -> nonfinite (x + y).
Proof.
  unfold nonfinite. rewrite FloatAxioms.add_spec.
  intros [H | [sg H]]; rewrite H.
  - left. reflexivity.
  - destruct (Prim2SF y) as [sy | sy | | sy m e]; cbn.
    + right. eauto.
    + destruct sg, sy; cbn; eauto.
    + left. reflexivity.
    + right. eauto.
Qed.

Lemma add_nonfinite_r (x y : float) : nonfinite y -> nonfinite (x + y).
Proof.
  unfold nonfinite. rewrite FloatAxioms.add_spec.
  intros [H | [sg H]]; rewrite H.
  - left. destruct (Prim2SF x); reflexivity.
  - destruct (Prim2SF x) as [sx | sx | | sx m e]; cbn.
    + right. eauto.
    + destruct sx, sg; cbn; eauto.
    + left. reflexivity.
    + right. eauto.
Qed.

Lemma mul_infinity_nonfinite (a : float) : nonfinite (infinity * a).
Proof.
  unfold nonfinite. rewrite FloatAxioms.mul_spec.
  change (Prim2SF infinity) with (S754_infinity false).
  destruct (Prim2SF a) as [sa | sa | | sa m e]; cbn; eauto.
Qed.

Lemma div_nan (x : float) : x / nan = nan.
Proof.
  apply Prim2SF_inj. rewrite FloatAxioms.div_spec.
  change (Prim2SF nan) with S754_nan.
  destruct (Prim2SF x); reflexivity.
Qed.

(** Dividing by [0+0i]: both quotients of Smith's algorithm are NaN, and
    the fix-up, where it applies, multiplies by an infinity. *)
Lemma div_zero_nonfinite (n : complex) : nonfinite (real (div n (0, 0))).
Proof.
  destruct n as [a b].
  unfold div. cbn [real imag fst snd].
  change (abs 0 <=? abs 0) with true. cbv iota.
  change (0 / 0) with nan.
  change (0 + nan * 0) with nan.
  rewrite !div_nan.
  change (is_nan nan && is_nan nan) with true. cbv iota.
  change ((0 =? 0) && (0 =? 0)) with true. cbn [andb].
  change (copysign infinity 0) with infinity.
  change (is_infinity 0 || is_infinity 0) with false. cbn [andb].
  destruct (negb (is_nan a) || negb (is_nan b)); cbn [fst].
  - apply mul_infinity_nonfinite.
  - destruct ((is_infinity a || is_infinity b) && is_finite 0 && is_finite 0);
      cbn [fst].
    + apply mul_infinity_nonfinite.
    + apply nonfinite_nan.
Qed.

Lemma finite_false (z : complex) : nonfinite (real z) -> finite z = false.
Proof.
  intros H. unfold finite. now rewrite (nonfinite_is_finite _ H).
Qed.

End F64Facts.

(** ** The singular exponent [s = 1] *)
Section Singular.

Local Open Scope float_scope.

Variable cmplx_Pow : F64.complex -> F64.complex -> F64.complex.
Variable cmplx_Abs : F64.complex -> float.

Let A : ComplexArith := F64.arith cmplx_Pow cmplx_Abs.

(** [1 + 0i]. *)
Let one : C A := (1, 0).

Lemma clampN_default (n : Z) :
  (100 <= clampN defaultConfig n <= 65000000000)%Z.
Proof.
  unfold clampN, defaultConfig. cbn.
  destruct (Z.ltb_spec n 100); [lia |].
  destruct (Z.gtb_spec n 65000000000); lia.
Qed.

Lemma valid_default (s : C A) :
  validRun defaultConfig (termCount defaultConfig s).
Proof.
  pose proof (clampN_default (abs_int A s)) as B.
  unfold validRun, termCount, GoInt.max_int. cbn [ChunkSize defaultConfig].
  lia.
Qed.

(** At [s = 1] the divisor [s - 1] of [term1] is [0+0i], and the correction
    is not finite, whatever [cmplx.Pow] returns. *)
Lemma correction_one_nonfinite (N : Z) :
  nonfinite (F64.real (correction (A := A) N one)).
Proof.
  unfold correction, term1. cbn [cadd csub cdiv cone A F64.arith].
  unfold F64.add at 1. cbn [F64.real fst].
  apply F64Facts.add_nonfinite_l.
  change (F64.sub one (1, 0)) with ((0, 0) : F64.complex).
  apply F64Facts.div_zero_nonfinite.
Qed.

Lemma add_correction_one_nonfinite (x : C A) (N : Z) :
  F64.finite (cadd A x (correction N one)) = false.
Proof.
  apply F64Facts.finite_false. cbn [cadd A F64.arith].
  unfold F64.add at 1. cbn [F64.real fst].
  apply F64Facts.add_nonfinite_r, correction_one_nonfinite.
Qed.

End Singular.

(** C4, as the code has it: at [s = 1] the engine reports nothing.  It
    returns normally (the function has no error result, and nothing panics),
    and both the grand total and the last element of the trajectory are
    non-finite, for any behaviour of [cmplx.Pow] and [cmplx.Abs]. *)
Theorem singular_exponent_not_reported
  (cmplx_Pow : F64.complex -> F64.complex -> F64.complex)
  (cmplx_Abs : F64.complex -> float) :
  exists total traj,
    calculateSpiralPartialSums (A := F64.arith cmplx_Pow cmplx_Abs)
                               defaultConfig (1, 0)%float
    = Some (total, traj)
    /\ F64.finite total = false
    /\ traj <> []
    /\ F64.finite (last traj (0, 0)%float) = false.
Proof.
  set (A := F64.arith cmplx_Pow cmplx_Abs).
  pose proof (valid_default cmplx_Pow cmplx_Abs (1, 0)%float) as valid.
  pose proof (clampN_default (abs_int A (1, 0)%float)) as B.
  destruct (engine_shape A (1, 0)%float defaultConfig valid)
    as (runningSum & pre & x & _ & E & _); [unfold termCount; lia |].
  eexists _, _. split; [exact E |].
  split; [apply add_correction_one_nonfinite |].
  split; [destruct pre; discriminate |].
  rewrite last_last. apply add_correction_one_nonfinite.
Qed.

(** C4, the claim as written fails: there is no behaviour of the library
    functions for which the call at [s = 1] fails instead of returning. *)
Lemma singular_exponent_counterexample :
  ~ exists cmplx_Pow cmplx_Abs,
      calculateSpiralPartialSums (A := F64.arith cmplx_Pow cmplx_Abs)
                                 defaultConfig (1, 0)%float = None.
Proof.
  intros (cmplx_Pow & cmplx_Abs & E).
  set (A := F64.arith cmplx_Pow cmplx_Abs) in *.
  pose proof (valid_default cmplx_Pow cmplx_Abs (1, 0)%float) as valid.
  pose proof (clampN_default (abs_int A (1, 0)%float)) as B.
  destruct (engine_shape A (1, 0)%float defaultConfig valid)
    as (runningSum & pre & x & _ & E' & _); [unfold termCount; lia |].
  rewrite E' in E. discriminate.
Qed.

(** The slice that [calculateSingleThreadedPartialSums] returns has [N]
    elements, slot 0 being zero, while the engine's trajectory has [N-1],
    starting at the first term.  In exact arithmetic at the exponent 2 (so
    [N = 100]) the two differ in length and already at index 0; and over
    binary64 they differ in length whatever the library functions return. *)
Lemma single_threaded_layout :
  (exists total traj single,
     calculateSpiralPartialSums (A := Exact.arith) defaultConfig
                                Exact.two = Some (total, traj)
     /\ calculateSingleThreadedPartialSums Exact.two 100 = Some single
     /\ length traj = 99%nat
     /\ length single = 100%nat
     /\ nth_error traj 0 = Some (cone Exact.arith)
     /\ nth_error single 0 = Some (czero Exact.arith)
     /\ traj <> update_last
                  (fun l => cadd Exact.arith l (correction 100 Exact.two))
                  single)
  /\ ~ exists cmplx_Pow cmplx_Abs total traj single,
        calculateSpiralPartialSums (A := F64.arith cmplx_Pow cmplx_Abs)
                                   defaultConfig (2, 0)%float
        = Some (total, traj)
        /\ calculateSingleThreadedPartialSums
             (A := F64.arith cmplx_Pow cmplx_Abs) (2, 0)%float
             (termCount (A := F64.arith cmplx_Pow cmplx_Abs) defaultConfig
                        (2, 0)%float)
           = Some single
        /\ length traj = length single.
Proof.
  split.
  - eexists _, _, _.
    split; [exact (engine_exact Exact.arith ExactFacts.laws Exact.two
                     defaultConfig ExactFacts.valid_two) |].
    split; [apply calculateSingleThreadedPartialSums_spec; lia |].
    rewrite ExactFacts.termCount_two.
    change (Z.to_nat (100 - 1)) with 99%nat.
    split; [now rewrite update_last_length, prefixSums_length |].
    split; [cbn [length]; now rewrite prefixSums_length |].
    split.
    { change 99%nat with (S 98). rewrite prefixSums_snoc, update_last_snoc.
      rewrite nth_error_app1 by (rewrite prefixSums_length; lia).
      rewrite prefixSums_nth by lia. cbn [sumTerms].
      now rewrite ExactFacts.first_term. }
    split; [reflexivity |].
    intros E. apply (f_equal (@length _)) in E.
    rewrite !update_last_length in E. cbn [length] in E.
    rewrite prefixSums_length in E. lia.
  - intros (cmplx_Pow & cmplx_Abs & total & traj & single & Et & Es & L).
    set (A := F64.arith cmplx_Pow cmplx_Abs) in *.
    pose proof (valid_default cmplx_Pow cmplx_Abs (2, 0)%float) as valid.
    fold A in valid.
    set (N := termCount (A := A) defaultConfig (2, 0)%float) in *.
    assert (B : 100 <= N) by apply clampN_default.
    assert (B1 : 1 <= N) by (clearbody N; clear - B; lia).
    destruct (engine_length A (2, 0)%float defaultConfig valid)
      as (total' & traj' & Et' & Lt).
    destruct (single_length A (2, 0)%float N B1) as (single' & Es' & Ls).
    fold N in Lt.
    rewrite Et' in Et. injection Et as _ <-.
    rewrite Es' in Es. injection Es as <-.
    rewrite Lt, Ls in L.
    clearbody N. clear - L B1. lia.
Qed.

(** A non-finite component is within no tolerance of anything: the tests'
    [cmplxEquals] is false. *)
Lemma cmplxEquals_nonfinite (a b : F64.complex) :
  nonfinite (F64.real a) -> cmplxEquals a b 1e-6 = false.
Proof.
  intros H. unfold cmplxEquals. apply andb_false_intro1.
  unfold F64.math_Abs.
  rewrite FloatAxioms.leb_spec, FloatAxioms.abs_spec, FloatAxioms.sub_spec.
  assert (T : exists m e, Prim2SF 1e-6 = S754_finite false m e)
    by (eexists _, _; vm_compute; reflexivity).
  destruct T as (m & e & ->).
  destruct H as [-> | [sg ->]].
  - reflexivity.
  - destruct (Prim2SF (F64.real b)) as [sb | sb | | sb mb eb];
      destruct sg; try destruct sb; reflexivity.
Qed.

(** C1, the claim as written fails, in two ways.
    The slice that [calculateSingleThreadedPartialSums] returns has [N]
    elements, slot 0 being zero, while the engine's trajectory has [N-1],
    starting at the first term: in exact arithmetic at the exponent 2 (so
    [N = 100]) the two differ in length and already at index 0, and over
    binary64 they differ in length whatever the library functions return.
    And not every exponent gives results that are within a tolerance of
    each other: at [s = 1] the grand totals of two runs with different chunk
    widths are not finite, so that the tests' comparison [cmplxEquals] with
    the tolerance [1e-6] fails on them, whatever the library functions
    return. *)
Lemma chunk_invariance_counterexample :
  (exists total traj single,
     calculateSpiralPartialSums (A := Exact.arith) defaultConfig
                                Exact.two = Some (total, traj)
     /\ calculateSingleThreadedPartialSums Exact.two 100 = Some single
     /\ length traj = 99%nat
     /\ length single = 100%nat
     /\ nth_error traj 0 = Some (cone Exact.arith)
     /\ nth_error single 0 = Some (czero Exact.arith))
  /\ (~ exists cmplx_Pow cmplx_Abs total traj single,
        calculateSpiralPartialSums (A := F64.arith cmplx_Pow cmplx_Abs)
                                   defaultConfig (2, 0)%float
        = Some (total, traj)
        /\ calculateSingleThreadedPartialSums
             (A := F64.arith cmplx_Pow cmplx_Abs) (2, 0)%float
             (termCount (A := F64.arith cmplx_Pow cmplx_Abs) defaultConfig
                        (2, 0)%float)
           = Some single
        /\ length traj = length single)
  /\ ~ exists cmplx_Pow cmplx_Abs total1 traj1 total2 traj2,
        calculateSpiralPartialSums (A := F64.arith cmplx_Pow cmplx_Abs)
                                   defaultConfig (1, 0)%float
        = Some (total1, traj1)
        /\ calculateSpiralPartialSums
             (A := F64.arith cmplx_Pow cmplx_Abs)
             {| MinN := 100; MaxN := 65000000000; ChunkSize := 7 |}
             (1, 0)%float
           = Some (total2, traj2)
        /\ cmplxEquals total1 total2 1e-6 = true.
Proof.
  destruct single_threaded_layout as [(total & traj & single & H) L2].
  split; [| split; [exact L2 |]].
  - exists total, traj, single.
    destruct H as (H1 & H2 & H3 & H4 & H5 & H6 & _).
    repeat split; assumption.
  - intros (cmplx_Pow & cmplx_Abs & total1 & traj1 & total2 & traj2
            & E1 & _ & Eq).
    pose proof (valid_default cmplx_Pow cmplx_Abs (1, 0)%float) as valid.
    pose proof (clampN_default
                  (abs_int (F64.arith cmplx_Pow cmplx_Abs) (1, 0)%float))
      as B.
    destruct (engine_shape (F64.arith cmplx_Pow cmplx_Abs) (1, 0)%float
                defaultConfig valid)
      as (runningSum & pre & x & _ & E & _); [unfold termCount; lia |].
    rewrite E in E1. injection E1 as <- _.
    rewrite cmplxEquals_nonfinite in Eq; [discriminate |].
    cbn [cadd F64.arith]. unfold F64.add at 1. cbn [F64.real fst].
    apply F64Facts.add_nonfinite_r.
    apply (correction_one_nonfinite cmplx_Pow cmplx_Abs).
Qed.

(** ** The downsampler *)
Section DownsampleFacts.

Import F64 Downsample Inputs.
Local Open Scope float_scope.

Variable pow_rest : float -> float -> float.

Lemma walk_length_mono (b : Bounds) (outputSize : Z) (a : float)
  (links : list complex) (g : groupData) (out : list complex) :
  (length out
   <= length (fst (walk pow_rest b outputSize a links g out)))%nat.
Proof.
  revert g out. induction links as [| link rest IH]; intros g out.
  - cbn. lia.
  - cbn [walk]. destruct (pixelForLink b outputSize link) as [px py].
    destruct (sameGroup a g px py).
    + apply IH.
    + etransitivity; [| apply IH]. rewrite !length_app. lia.
Qed.

(** A non-empty input always yields at least one point. *)
Lemma serial_nonempty (links : list complex) (outputSize : Z) (a : float)
  (debug : bool) :
  links <> [] ->
  (1 <= length (downsampleComplexSerial pow_rest links outputSize a debug))%nat.
Proof.
  destruct links as [| first rest]; [congruence |]. intros _.
  unfold downsampleComplexSerial.
  destruct (relativeSpread _ <=? maxRelativeSpread pow_rest a).
  - cbn. lia.
  - destruct (walk pow_rest _ outputSize a rest _ []) as [ds g].
    rewrite length_app. cbn. lia.
Qed.

Lemma serial_collapsed (links : list complex) (outputSize : Z) (a : float)
  (debug : bool) :
  collapses pow_rest links a = true ->
  downsampleComplexSerial pow_rest links outputSize a debug
  = [average links].
Proof.
  destruct links as [| first rest]; [discriminate |].
  unfold collapses, downsampleComplexSerial. intros ->. reflexivity.
Qed.

Lemma interpolate_length (from to : complex) (steps : Z) :
  length (interpolate from to steps) = Z.to_nat steps.
Proof.
  unfold interpolate. now rewrite length_map, length_seq.
Qed.

End DownsampleFacts.

(** C5, as the code has it: the three points of the test are not collapsed
    at aggressiveness 0.0 (their relative spread, about 0.02, is above the
    0.0001 allowed there) and 2899 points come out; at aggressiveness 4.0,
    the value the repository's test now uses, the downsampler returns
    exactly one point, the mean of the inputs, within 1e-6 of
    [1.0001 + 1.0001i]. *)
Theorem same_pixel_collapses_at_four
  (pow_rest : float -> float -> float) (NumCPU : Z) (debug : bool) :
  Downsample.collapses pow_rest Inputs.samePixel 0 = false
  /\ length (Downsample.downsampleComplex pow_rest NumCPU
               Inputs.samePixel 2048 0 debug) = 2899%nat
  /\ Downsample.collapses pow_rest Inputs.samePixel 4 = true
  /\ Downsample.downsampleComplex pow_rest NumCPU Inputs.samePixel 2048 4
                                  debug
     = [Downsample.average Inputs.samePixel]
  /\ cmplxEquals (Downsample.average Inputs.samePixel)
                 (1.0001, 1.0001)%float 1e-6 = true.
Proof.
  split; [vm_compute; reflexivity |].
  split; [vm_compute; reflexivity |].
  split; [vm_compute; reflexivity |].
  split; [| vm_compute; reflexivity].
  unfold Downsample.downsampleComplex.
  change (Z.of_nat (length Inputs.samePixel) <? 10000) with true. cbv iota.
  apply serial_collapsed. vm_compute. reflexivity.
Qed.

(** C5, the claim as written fails: at aggressiveness 0.0 the output never
    has exactly one point, whatever the library functions do. *)
Lemma same_pixel_counterexample :
  ~ exists pow_rest NumCPU debug,
      length (Downsample.downsampleComplex pow_rest NumCPU
                Inputs.samePixel 2048 0 debug) = 1%nat.
Proof.
  intros (pow_rest & NumCPU & debug & H).
  vm_compute in H. discriminate H.
Qed.

(** C6, as the code has it: the gap of [sqrt 20000] pixels, divided by
    [2^0.5], gives 100 interpolated points, so 102 points come out; the
    first is [1+1i] and the last is [100+100i], exactly. *)
Theorem far_apart_interpolates_100
  (pow_rest : float -> float -> float) (NumCPU : Z) (debug : bool) :
  Downsample.interpSteps pow_rest 0.5 (Downsample.pixelGap 100 100) = 100
  /\ length (Downsample.downsampleComplex pow_rest NumCPU
               Inputs.farApart 100 0.5 debug) = 102%nat
  /\ hd (0, 0)%float (Downsample.downsampleComplex pow_rest NumCPU
                        Inputs.farApart 100 0.5 debug) = (1, 1)%float
  /\ last (Downsample.downsampleComplex pow_rest NumCPU
             Inputs.farApart 100 0.5 debug) (0, 0)%float
     = (100, 100)%float.
Proof.
  split; [vm_compute; reflexivity |].
  split; [vm_compute; reflexivity |].
  split; vm_compute; reflexivity.
Qed.

(** C6, the claim as written fails: the output never has 142 points. *)
Lemma far_apart_counterexample :
  ~ exists pow_rest NumCPU debug,
      length (Downsample.downsampleComplex pow_rest NumCPU
                Inputs.farApart 100 0.5 debug) = 142%nat.
Proof.
  intros (pow_rest & NumCPU & debug & H).
  vm_compute in H. discriminate H.
Qed.

(** C7: below 10000 points the parallel downsampler is the serial one. *)
Theorem small_input_runs_serial
  (pow_rest : float -> float -> float) (NumCPU : Z)
  (links : list F64.complex) (outputSize : Z) (aggressiveness : float)
  (debug : bool) :
  Z.of_nat (length links) < 10000 ->
  Downsample.downsampleComplex pow_rest NumCPU links outputSize
                               aggressiveness debug
  = Downsample.downsampleComplexSerial pow_rest links outputSize
                                       aggressiveness debug.
Proof.
  intros H. unfold Downsample.downsampleComplex.
  destruct (Z.ltb_spec (Z.of_nat (length links)) 10000) as [_ | Hge].
  - reflexivity.
  - lia.
Qed.

Lemma small_input_runs_serial_witness :
  Z.of_nat (length Inputs.farApart) < 10000
  /\ Downsample.downsampleComplex (fun _ _ => nan) 8 Inputs.farApart 100
                                  0.5 false
     = Downsample.downsampleComplexSerial (fun _ _ => nan) Inputs.farApart
                                          100 0.5 false.
Proof.
  assert (H : Z.of_nat (length Inputs.farApart) < 10000) by (cbn; lia).
  split; [exact H |].
  exact (small_input_runs_serial (fun _ _ => nan) 8 Inputs.farApart 100
           0.5%float false H).
Defined.

(** C9, the claim as written fails: on [zigzag] at resolution 5, raising
    the aggressiveness from 0.5 to 1.0 raises the output from 4 points to
    20.  At 0.5 the pixels 3, 5, 1, 5, 1, ... stay within 2 of the group
    opened at pixel 3; at 1.0 pixel 3 joins the group opened at 0, and every
    later point is more than 3 pixels from the one before it, so each opens
    a group and is preceded by interpolated points. *)
Lemma monotonic_aggressiveness_counterexample :
  ~ exists (pow_rest : float -> float -> float) (debug : bool),
      (length (Downsample.downsampleComplexSerial pow_rest Inputs.zigzag 5
                 1 debug)
       <= length (Downsample.downsampleComplexSerial pow_rest Inputs.zigzag
                    5 0.5 debug))%nat.
Proof.
  intros (pow_rest & debug & H).
  vm_compute in H. lia.
Qed.

(** C9, as the code has it: the point count cannot go up when the input is
    empty or collapses to one point at the second aggressiveness (its
    relative spread is at most [maxRelativeSpread] there); the first
    aggressiveness is arbitrary.  Beyond that the count is not monotonic. *)
Theorem collapse_never_adds_points
  (pow_rest : float -> float -> float) (links : list F64.complex)
  (outputSize : Z) (a1 a2 : float) (debug : bool) :
  links = [] \/ Downsample.collapses pow_rest links a2 = true ->
  (length (Downsample.downsampleComplexSerial pow_rest links outputSize
             a2 debug)
   <= length (Downsample.downsampleComplexSerial pow_rest links outputSize
                a1 debug))%nat.
Proof.
  intros [-> | Hc].
  - cbn. lia.
  - rewrite (serial_collapsed pow_rest links outputSize a2 debug Hc).
    cbn [length]. apply serial_nonempty.
    intros ->. discriminate Hc.
Qed.

Lemma collapse_never_adds_points_witness :
  (Inputs.samePixel = []
   \/ Downsample.collapses (fun _ _ => nan) Inputs.samePixel 4 = true)
  /\ (length (Downsample.downsampleComplexSerial (fun _ _ => nan)
                Inputs.samePixel 2048 4 false)
      <= length (Downsample.downsampleComplexSerial (fun _ _ => nan)
                   Inputs.samePixel 2048 0 false))%nat.
Proof.
  assert (H : Inputs.samePixel = []
              \/ Downsample.collapses (fun _ _ => nan) Inputs.samePixel 4
                 = true)
    by (right; vm_compute; reflexivity).
  split; [exact H |].
  exact (collapse_never_adds_points (fun _ _ => nan) Inputs.samePixel 2048
           0%float 4%float false H).
Defined.

(** C10: the output can be longer than the input.  The two points of
    [farApart], at resolution 100 and aggressiveness 0.5, come out as 102:
    the two group means and the [int(gap / 2^0.5) = 100] points filled in
    between.  In general a flushed group is followed by no more points than
    the step count the code derives from the gap. *)
Theorem output_can_grow (pow_rest : float -> float -> float) :
  (exists links outputSize aggressiveness debug,
     (length links
      < length (Downsample.downsampleComplexSerial pow_rest links outputSize
                  aggressiveness debug))%nat)
  /\ length (Downsample.downsampleComplexSerial pow_rest Inputs.farApart
               100 0.5 false)
     = (length Inputs.farApart
        + Z.to_nat (F64.to_int
                      (Downsample.pixelGap 100 100
                       / Downsample.Pow pow_rest 2 (F64.math_Min 0.5 3.5))))%nat
  /\ forall aggressiveness dx dy from to,
       (length (Downsample.gapFill pow_rest aggressiveness dx dy from to)
        <= Z.to_nat (Downsample.interpSteps pow_rest aggressiveness
                       (Downsample.pixelGap dx dy)))%nat.
Proof.
  split.
  { exists Inputs.farApart, 100, 0.5%float, false. vm_compute. lia. }
  split; [vm_compute; reflexivity |].
  intros a dx dy from to. unfold Downsample.gapFill.
  destruct (Downsample.interpolationThreshold pow_rest a
            <? Downsample.pixelGap dx dy)%float.
  - rewrite interpolate_length. lia.
  - cbn. lia.
Qed.

(** C8, the code at a failing input.  [boundary] is split between two
    workers.  The last point worker 0 emits and the first point worker 1
    emits are both the origin, in pixel bin (0, 0): there is no gap at the
    boundary.  The merge nevertheless measures the gap against the bin of
    worker 1's {e final} group, (100, 100), and inserts 141 points between
    the two chunks: 285 points come out where the serial reducer gives
    143. *)
Theorem merge_reads_final_bin_of_next_chunk
  (pow_rest : float -> float -> float) :
  let b := Downsample.viewBounds (0, 0)%float Inputs.boundary in
  map (fun c => (last (Downsample.points c) (0, 0)%float,
                 hd (0, 0)%float (Downsample.points c),
                 Downsample.lastPx c, Downsample.lastPy c))
      (Downsample.collect pow_rest 2 b 100 0 Inputs.boundary)
  = [((0, 0)%float, (0, 0)%float, 0, 0);
     ((100, 100)%float, (0, 0)%float, 100, 100)]
  /\ Downsample.pixelForLink b 100 (0, 0)%float = (0, 0)
  /\ length (Downsample.gapFill pow_rest 0 (100 - 0) (100 - 0)
               (0, 0)%float (0, 0)%float) = 141%nat
  /\ length (Downsample.gapFill pow_rest 0 (0 - 0) (0 - 0)
               (0, 0)%float (0, 0)%float) = 0%nat
  /\ length (Downsample.downsampleComplex pow_rest 2 Inputs.boundary 100 0
                                          false) = 285%nat
  /\ length (Downsample.downsampleComplexSerial pow_rest Inputs.boundary
                                                100 0 false) = 143%nat.
Proof.
  cbv zeta.
  split; [vm_compute; reflexivity |].
  split; [vm_compute; reflexivity |].
  split; [vm_compute; reflexivity |].
  split; [vm_compute; reflexivity |].
  split; vm_compute; reflexivity.
Qed.

(** * Further properties of the summation engine *)
Section EngineMore.

Variable A : ComplexArith.
Variable s : C A.

(** X1: the clamped term count lies in [[MinN, MaxN]] whenever that interval
    is not empty. *)
Theorem termCount_clamped (cfg : Config) :
  MinN cfg <= MaxN cfg ->
  MinN cfg <= termCount cfg s <= MaxN cfg.
Proof.
  intros H. unfold termCount, clampN.
  destruct (Z.ltb_spec (abs_int A s) (MinN cfg)); [lia |].
  destruct (Z.gtb_spec (abs_int A s) (MaxN cfg)); lia.
Qed.

Lemma prefixSums_last (n : nat) (k : Z) (acc : C A) :
  last (prefixSums s n k acc) acc = sumTerms s n k acc.
Proof.
  destruct n as [| n]; [reflexivity |].
  rewrite prefixSums_snoc. apply last_last.
Qed.

(** X2: [computePartialSumWithLinks] returns one link per index of
    [[start, end)] (none when [end <= start]), and the sum it returns is the
    last of these links, or zero when there is none. *)
Theorem partial_sum_is_last_link (start end_ : Z) :
  length (snd (computePartialSumWithLinks start end_ s))
  = Z.to_nat (end_ - start)
  /\ fst (computePartialSumWithLinks start end_ s)
     = last (snd (computePartialSumWithLinks start end_ s)) (czero A).
Proof.
  rewrite computePartialSumWithLinks_spec. cbn [fst snd].
  split; [apply prefixSums_length | now rewrite prefixSums_last].
Qed.

(** X3: [calculateSingleThreadedPartialSums] panics on a negative
    [numLinks]; otherwise it returns exactly [numLinks] links, slot 0 holding
    zero and slot [k], for [0 < k < numLinks], the terms [1..k] added from
    left to right. *)
Theorem single_threaded_links (numLinks : Z) :
  (numLinks < 0 -> calculateSingleThreadedPartialSums s numLinks = None)
  /\ (0 <= numLinks ->
      exists links,
        calculateSingleThreadedPartialSums s numLinks = Some links
        /\ length links = Z.to_nat numLinks
        /\ (1 <= numLinks -> nth_error links 0 = Some (czero A))
        /\ forall k, (0 < k < Z.to_nat numLinks)%nat ->
             nth_error links k = Some (cumulativeSum s k)).
Proof.
  split.
  - intros H. unfold calculateSingleThreadedPartialSums.
    destruct (Z.ltb_spec numLinks 0); [reflexivity | lia].
  - intros H. destruct (Z.eq_dec numLinks 0) as [-> | Hne].
    + exists []. repeat split; [lia | intros k Hk; cbn in Hk; lia].
    + rewrite calculateSingleThreadedPartialSums_spec by lia.
      eexists. split; [reflexivity |].
      split; [cbn [length]; rewrite prefixSums_length; lia |].
      split; [reflexivity |].
      intros [| k] Hk; [lia |]. cbn [nth_error].
      apply prefixSums_nth. lia.
Qed.

Lemma valid_default_any : validRun defaultConfig (termCount defaultConfig s).
Proof.
  pose proof (clampN_default (abs_int A s)) as B.
  unfold validRun, termCount, GoInt.max_int. cbn [ChunkSize defaultConfig].
  lia.
Qed.

(** X4: with the default [MinN], [MaxN] and [ChunkSize] the engine never
    panics, whatever the exponent and the arithmetic, and its trajectory has
    [N - 1] elements, between 99 and [MaxN - 1]. *)
Theorem default_run_returns :
  exists total traj,
    calculateSpiralPartialSums defaultConfig s = Some (total, traj)
    /\ Z.of_nat (length traj) = termCount defaultConfig s - 1
    /\ 99 <= Z.of_nat (length traj) <= 64999999999.
Proof.
  destruct (engine_length A s defaultConfig valid_default_any)
    as (total & traj & E & L).
  pose proof (clampN_default (abs_int A s)) as B.
  fold (termCount defaultConfig s) in B.
  exists total, traj. split; [exact E |]. rewrite L. lia.
Qed.

(** X5: a non-positive [ChunkSize] is not rejected.  For at least two term
    indices the engine then either panics (division by zero, or a negative
    number of chunks) or returns an empty trajectory, with the bare
    correction as grand total. *)
Theorem nonpositive_chunk_width (cfg : Config) :
  ChunkSize cfg <= 0 ->
  GoInt.min_int < ChunkSize cfg ->
  2 <= termCount cfg s <= GoInt.max_int ->
  calculateSpiralPartialSums cfg s = None
  \/ calculateSpiralPartialSums cfg s
     = Some (cadd A (czero A) (correction (termCount cfg s) s), []).
Proof.
  intros Hle Hmin HN.
  set (N := termCount cfg s) in *. set (W := ChunkSize cfg) in *.
  unfold calculateSpiralPartialSums, chainedPartialSums, chunkRanges,
    numChunks.
  fold N W. unfold GoInt.min_int, GoInt.max_int in *.
  rewrite GoIntFacts.add_small
    by (unfold GoInt.in_range, GoInt.min_int, GoInt.max_int; lia).
  rewrite GoIntFacts.sub_small
    by (unfold GoInt.in_range, GoInt.min_int, GoInt.max_int; lia).
  unfold GoInt.div.
  destruct (Z.eqb_spec W 0) as [E0 | Hne]; [left; reflexivity |].
  assert (Q : Z.quot (N + W - 1) W <= 0
              /\ - (2 ^ 63) <= Z.quot (N + W - 1) W).
  { replace W with (- - W) at 2 4 by lia.
    rewrite Z.quot_opp_r by lia.
    destruct (Z.le_gt_cases 0 (N + W - 1)) as [Hp | Hn].
    - rewrite Z.quot_div_nonneg by lia.
      assert (0 <= (N + W - 1) / - W) by (apply Z.div_pos; lia).
      assert ((N + W - 1) / - W <= N + W - 1)
        by (apply Z.div_le_upper_bound; nia).
      lia.
    - replace (N + W - 1) with (- (- (N + W - 1))) by lia.
      rewrite Z.quot_opp_l by lia.
      rewrite Z.quot_div_nonneg by lia.
      rewrite Z.div_small by lia. lia. }
  rewrite GoIntFacts.wrap_small
    by (unfold GoInt.in_range, GoInt.min_int, GoInt.max_int; lia).
  destruct (Z.ltb_spec (Z.quot (N + W - 1) W) 0); [left; reflexivity |].
  right. replace (Z.quot (N + W - 1) W) with 0 by lia. reflexivity.
Qed.

End EngineMore.

Lemma termCount_clamped_witness :
  MinN defaultConfig <= MaxN defaultConfig
  /\ MinN defaultConfig
     <= termCount (A := Exact.arith) defaultConfig Exact.two
     <= MaxN defaultConfig.
Proof.
  assert (H : MinN defaultConfig <= MaxN defaultConfig) by (cbn; lia).
  split; [exact H |].
  exact (termCount_clamped Exact.arith Exact.two defaultConfig H).
Defined.

Lemma nonpositive_chunk_width_witness :
  ChunkSize {| MinN := 100; MaxN := 65000000000; ChunkSize := -200 |} <= 0
  /\ GoInt.min_int < -200
  /\ 2 <= 100 <= GoInt.max_int
  /\ (calculateSpiralPartialSums (A := Exact.arith)
        {| MinN := 100; MaxN := 65000000000; ChunkSize := -200 |} Exact.two
      = None
      \/ calculateSpiralPartialSums (A := Exact.arith)
           {| MinN := 100; MaxN := 65000000000; ChunkSize := -200 |}
           Exact.two
         = Some (cadd Exact.arith (czero Exact.arith)
                   (correction 100 Exact.two), [])).
Proof.
  assert (H1 : ChunkSize {| MinN := 100; MaxN := 65000000000;
                            ChunkSize := -200 |} <= 0) by (cbn; lia).
  assert (H2 : GoInt.min_int < -200) by (unfold GoInt.min_int; lia).
  assert (H3 : 2 <= 100 <= GoInt.max_int) by (unfold GoInt.max_int; lia).
  split; [exact H1 |]. split; [exact H2 |]. split; [exact H3 |].
  exact (nonpositive_chunk_width Exact.arith Exact.two
           {| MinN := 100; MaxN := 65000000000; ChunkSize := -200 |}
           H1 H2 H3).
Defined.

(** * Fixed-size grouping *)
Section GroupingFacts.

Import Grouping.

Lemma skipn_nth_error {T : Type} (l : list T) (j : nat) (x : T) :
  nth_error l j = Some x -> skipn j l = x :: skipn (S j) l.
Proof.
  revert j. induction l as [| y l IH]; intros [| j] H; try discriminate.
  - injection H as ->. reflexivity.
  - cbn [nth_error] in H. now apply IH.
Qed.

(** The inner loop reads [points[j .. j+n)], all in range. *)
Lemma sumGroup_spec (points : list Point) (n j : nat) (sx sy : float) :
  (j + n <= length points)%nat ->
  sumGroup points n (Z.of_nat j) sx sy
  = Some (fold_left (fun acc p => (fst acc + X p, snd acc + Y p)%float)
                    (firstn n (skipn j points)) (sx, sy)).
Proof.
  revert j sx sy. induction n as [| n IH]; intros j sx sy H.
  - reflexivity.
  - cbn [sumGroup]. unfold index.
    destruct (Z.ltb_spec (Z.of_nat j) 0); [lia |].
    rewrite Nat2Z.id.
    destruct (nth_error points j) as [p |] eqn:E.
    + rewrite (skipn_nth_error _ _ _ E). cbn [firstn fold_left fst snd].
      replace (Z.of_nat j + 1) with (Z.of_nat (S j)) by lia.
      apply IH. lia.
    + apply nth_error_None in E. lia.
Qed.

Lemma groupLoop_spec (points : list Point) (g n i : nat)
  (result : list Point) :
  (1 <= g)%nat ->
  ((i + n) * g <= length points)%nat ->
  Z.of_nat (length points) <= GoInt.max_int ->
  groupLoop points (Z.of_nat g) n (Z.of_nat i) result
  = Some (result
          ++ groupMeans (Z.of_nat g) g n (skipn (i * g) points)).
Proof.
  intros Hg. revert i result.
  induction n as [| n IH]; intros i result H Hmax.
  - cbn. now rewrite app_nil_r.
  - cbn [groupLoop groupMeans].
    assert (Z.of_nat i * Z.of_nat g + Z.of_nat g
            <= Z.of_nat (length points)) by nia.
    unfold GoInt.max_int in Hmax.
    rewrite GoIntFacts.mul_small
      by (unfold GoInt.in_range, GoInt.min_int, GoInt.max_int; nia).
    rewrite GoIntFacts.add_small
      by (unfold GoInt.in_range, GoInt.min_int, GoInt.max_int; nia).
    replace (Z.to_nat (Z.of_nat i * Z.of_nat g + Z.of_nat g
                       - Z.of_nat i * Z.of_nat g)) with g by lia.
    replace (Z.of_nat i * Z.of_nat g) with (Z.of_nat (i * g)) by lia.
    rewrite sumGroup_spec by nia.
    destruct (fold_left _ (firstn g (skipn (i * g) points)) (0%float, 0%float))
      as [sumX sumY] eqn:E.
    replace (Z.of_nat i + 1) with (Z.of_nat (S i)) by lia.
    rewrite IH; [| cbn [Nat.add]; nia | unfold GoInt.max_int; lia].
    rewrite <- app_assoc. cbn [app]. do 3 f_equal.
    + unfold groupMean. now rewrite E.
    + rewrite skipn_skipn. reflexivity.
Qed.

Lemma downsample_eq (points : list Point) (g : nat) :
  (1 <= g)%nat ->
  Z.of_nat (length points) <= GoInt.max_int ->
  downsample points (Z.of_nat g)
  = Some (groupMeans (Z.of_nat g) g (length points / g) points).
Proof.
  intros Hg Hmax. unfold downsample.
  rewrite GoIntFacts.div_pos by lia.
  assert (0 <= Z.of_nat (length points) / Z.of_nat g)
    by (apply Z.div_pos; lia).
  destruct (Z.ltb_spec (Z.of_nat (length points) / Z.of_nat g) 0); [lia |].
  rewrite <- Nat2Z.inj_div, Nat2Z.id.
  change 0 with (Z.of_nat 0).
  rewrite groupLoop_spec; try assumption.
  - reflexivity.
  - cbn [Nat.add]. rewrite Nat.mul_comm. apply Nat.Div0.mul_div_le.
Qed.

Lemma groupMeans_length (gs : Z) (g count : nat) (points : list Point) :
  length (groupMeans gs g count points) = count.
Proof.
  revert points. induction count as [| c IH]; intros; cbn; auto.
Qed.

Lemma groupMeans_app (gs : Z) (g ca cb : nat) (a b : list Point) :
  length a = (ca * g)%nat ->
  groupMeans gs g (ca + cb) (a ++ b)
  = groupMeans gs g ca a ++ groupMeans gs g cb b.
Proof.
  revert a. induction ca as [| ca IH]; intros a Ha.
  - destruct a; [reflexivity | discriminate].
  - cbn [Nat.add groupMeans app]. cbn in Ha.
    rewrite firstn_app, skipn_app.
    replace (g - length a)%nat with 0%nat by lia.
    cbn [firstn skipn]. rewrite app_nil_r. f_equal.
    apply IH. rewrite length_skipn. lia.
Qed.

Lemma groupMeans_prefix (gs : Z) (g c : nat) (a b : list Point) :
  length a = (c * g)%nat ->
  groupMeans gs g c (a ++ b) = groupMeans gs g c a.
Proof.
  intros H. rewrite <- (Nat.add_0_r c) at 1.
  rewrite groupMeans_app by exact H. cbn [groupMeans]. apply app_nil_r.
Qed.

End GroupingFacts.

(** X6: for a group size of at least 1, [downsample] never panics (no index
    leaves the slice) and returns exactly [len(points) / groupSize] points,
    the means of the consecutive full groups; the [len mod groupSize]
    points after the last full group are ignored. *)
Theorem downsample_full_groups (points : list Grouping.Point) (groupSize : Z) :
  1 <= groupSize ->
  Z.of_nat (length points) <= GoInt.max_int ->
  exists out,
    Grouping.downsample points groupSize = Some out
    /\ Z.of_nat (length out) = Z.of_nat (length points) / groupSize
    /\ out = Grouping.groupMeans groupSize (Z.to_nat groupSize)
               (Z.to_nat (Z.of_nat (length points) / groupSize)) points
    /\ Grouping.downsample
         (firstn (length out * Z.to_nat groupSize) points) groupSize
       = Some out.
Proof.
  intros Hg Hmax.
  assert (Eg : groupSize = Z.of_nat (Z.to_nat groupSize)) by lia.
  set (g := Z.to_nat groupSize) in *. rewrite Eg.
  assert (Hg' : (1 <= g)%nat) by lia.
  pose proof (Nat.Div0.mul_div_le (length points) g) as Hle.
  eexists. split; [apply downsample_eq; assumption |].
  rewrite groupMeans_length, <- Nat2Z.inj_div, Nat2Z.id.
  split; [reflexivity |]. split; [reflexivity |].
  rewrite downsample_eq; try assumption.
  - rewrite length_firstn, Nat.min_l by lia.
    rewrite Nat.div_mul by lia. f_equal.
    transitivity
      (Grouping.groupMeans (Z.of_nat g) g (length points / g)
         (firstn (length points / g * g) points
          ++ skipn (length points / g * g) points)).
    + symmetry. apply groupMeans_prefix. rewrite length_firstn. lia.
    + now rewrite firstn_skipn.
  - rewrite length_firstn. lia.
Qed.

Lemma downsample_full_groups_witness :
  1 <= 2
  /\ Z.of_nat (length [Grouping.Build_Point 0 0; Grouping.Build_Point 1 1;
                       Grouping.Build_Point 2 2])
     <= GoInt.max_int
  /\ exists out,
       Grouping.downsample
         [Grouping.Build_Point 0 0; Grouping.Build_Point 1 1;
          Grouping.Build_Point 2 2] 2 = Some out
       /\ Z.of_nat (length out) = 3 / 2
       /\ out = Grouping.groupMeans 2 2 1
                  [Grouping.Build_Point 0 0; Grouping.Build_Point 1 1;
                   Grouping.Build_Point 2 2]
       /\ Grouping.downsample
            (firstn (length out * 2)
               [Grouping.Build_Point 0 0; Grouping.Build_Point 1 1;
                Grouping.Build_Point 2 2]) 2
          = Some out.
Proof.
  assert (H1 : 1 <= 2) by lia.
  assert (H2 : Z.of_nat (length [Grouping.Build_Point 0 0;
                                 Grouping.Build_Point 1 1;
                                 Grouping.Build_Point 2 2])
               <= GoInt.max_int)
    by (unfold GoInt.max_int; cbn; lia).
  split; [exact H1 |]. split; [exact H2 |].
  exact (downsample_full_groups
           [Grouping.Build_Point 0 0; Grouping.Build_Point 1 1;
            Grouping.Build_Point 2 2] 2 H1 H2).
Defined.

(** X7: [downsample] distributes over concatenation at a group boundary:
    when the first slice holds a whole number of groups, the result on the
    concatenation is the result on the first slice followed by the result on
    the second. *)
Theorem downsample_app (a b : list Grouping.Point) (groupSize : Z) :
  1 <= groupSize ->
  Z.of_nat (length (a ++ b)) <= GoInt.max_int ->
  (Z.of_nat (length a) mod groupSize = 0) ->
  exists ra rb,
    Grouping.downsample a groupSize = Some ra
    /\ Grouping.downsample b groupSize = Some rb
    /\ Grouping.downsample (a ++ b) groupSize = Some (ra ++ rb).
Proof.
  intros Hg Hmax Hdiv.
  assert (Eg : groupSize = Z.of_nat (Z.to_nat groupSize)) by lia.
  set (g := Z.to_nat groupSize) in *. rewrite Eg in *.
  assert (Hg' : (1 <= g)%nat) by lia.
  rewrite length_app in Hmax.
  rewrite !downsample_eq by (try rewrite length_app; lia).
  eexists _, _. split; [reflexivity |]. split; [reflexivity |]. f_equal.
  rewrite <- Nat2Z.inj_mod in Hdiv.
  assert (Ha : length a = (length a / g * g)%nat).
  { pose proof (Nat.div_mod_eq (length a) g). nia. }
  rewrite length_app.
  assert (E : ((length a + length b) / g
               = length a / g + length b / g)%nat).
  { remember (length a / g)%nat as q. rewrite Ha.
    now rewrite Nat.div_add_l by lia. }
  rewrite E. apply groupMeans_app. exact Ha.
Qed.

Lemma downsample_app_witness :
  1 <= 2
  /\ Z.of_nat (length ([Grouping.Build_Point 0 0; Grouping.Build_Point 1 1]
                       ++ [Grouping.Build_Point 2 2]))
     <= GoInt.max_int
  /\ Z.of_nat (length [Grouping.Build_Point 0 0; Grouping.Build_Point 1 1])
     mod 2 = 0
  /\ exists ra rb,
       Grouping.downsample
         [Grouping.Build_Point 0 0; Grouping.Build_Point 1 1] 2 = Some ra
       /\ Grouping.downsample [Grouping.Build_Point 2 2] 2 = Some rb
       /\ Grouping.downsample
            ([Grouping.Build_Point 0 0; Grouping.Build_Point 1 1]
             ++ [Grouping.Build_Point 2 2]) 2
          = Some (ra ++ rb).
Proof.
  assert (H1 : 1 <= 2) by lia.
  assert (H2 : Z.of_nat (length ([Grouping.Build_Point 0 0;
                                  Grouping.Build_Point 1 1]
                                 ++ [Grouping.Build_Point 2 2]))
               <= GoInt.max_int)
    by (unfold GoInt.max_int; cbn; lia).
  assert (H3 : Z.of_nat (length [Grouping.Build_Point 0 0;
                                 Grouping.Build_Point 1 1]) mod 2 = 0)
    by reflexivity.
  split; [exact H1 |]. split; [exact H2 |]. split; [exact H3 |].
  exact (downsample_app [Grouping.Build_Point 0 0; Grouping.Build_Point 1 1]
           [Grouping.Build_Point 2 2] 2 H1 H2 H3).
Defined.

(** X8: a non-positive group size is not rejected: zero panics (integer
    division by zero); a negative one panics when there are at least
    [-groupSize] points ([make] with a negative capacity) and returns an
    empty slice otherwise. *)
Theorem downsample_nonpositive (points : list Grouping.Point)
  (groupSize : Z) :
  groupSize <= 0 ->
  GoInt.min_int < groupSize ->
  Z.of_nat (length points) <= GoInt.max_int ->
  Grouping.downsample points groupSize
  = if (groupSize <? 0) && (Z.of_nat (length points) <? - groupSize)
    then Some [] else None.
Proof.
  intros Hle Hmin Hmax. unfold Grouping.downsample, GoInt.div.
  unfold GoInt.min_int, GoInt.max_int in *.
  destruct (Z.eqb_spec groupSize 0) as [-> | Hne]; [reflexivity |].
  destruct (Z.ltb_spec groupSize 0) as [Hneg | ]; [| lia]. cbn [andb].
  set (n := Z.of_nat (length points)) in *.
  assert (En : Z.quot n groupSize = - (n / - groupSize)).
  { replace groupSize with (- - groupSize) at 1 by lia.
    rewrite Z.quot_opp_r by lia.
    now rewrite Z.quot_div_nonneg by lia. }
  assert (0 <= n / - groupSize) by (apply Z.div_pos; lia).
  assert (n / - groupSize <= n) by (apply Z.div_le_upper_bound; nia).
  rewrite En, GoIntFacts.wrap_small
    by (unfold GoInt.in_range, GoInt.min_int, GoInt.max_int; lia).
  destruct (Z.ltb_spec n (- groupSize)) as [Hs | Hb].
  - rewrite Z.div_small by lia. reflexivity.
  - assert (1 <= n / - groupSize)
      by (apply Z.div_le_lower_bound; lia).
    destruct (Z.ltb_spec (- (n / - groupSize)) 0); [reflexivity | lia].
Qed.

Lemma downsample_nonpositive_witness :
  -2 <= 0
  /\ GoInt.min_int < -2
  /\ Z.of_nat (length [Grouping.Build_Point 0 0]) <= GoInt.max_int
  /\ Grouping.downsample [Grouping.Build_Point 0 0] (-2)
     = if (-2 <? 0) && (Z.of_nat (length [Grouping.Build_Point 0 0]) <? - -2)
       then Some [] else None.
Proof.
  assert (H1 : -2 <= 0) by lia.
  assert (H2 : GoInt.min_int < -2) by (unfold GoInt.min_int; lia).
  assert (H3 : Z.of_nat (length [Grouping.Build_Point 0 0])
               <= GoInt.max_int)
    by (unfold GoInt.max_int; cbn; lia).
  split; [exact H1 |]. split; [exact H2 |]. split; [exact H3 |].
  exact (downsample_nonpositive [Grouping.Build_Point 0 0] (-2) H1 H2 H3).
Defined.

(** * Further properties of the downsampler *)
Section DownsampleMore.

Import F64 Downsample.
Local Open Scope float_scope.

Variable pow_rest : float -> float -> float.

Lemma firstn_add_skipn {T : Type} (a b : nat) (l : list T) :
  firstn (a + b) l = firstn a l ++ firstn b (skipn a l).
Proof.
  revert l. induction a as [| a IH]; intros l; [reflexivity |].
  destruct l as [| x l]; [now rewrite skipn_nil, !firstn_nil |].
  cbn [Nat.add firstn skipn app]. now rewrite IH.
Qed.

(** Worker [w] gets [links[w*c : min(w*c + c, len)]]. *)
Lemma chunkOf_eq (links : list complex) (c w : nat) :
  (Z.of_nat w * Z.of_nat c + Z.of_nat c <= GoInt.max_int)%Z ->
  chunkOf links (Z.of_nat c) (Z.of_nat w)
  = firstn c (skipn (w * c) links).
Proof.
  intros H. unfold chunkOf, GoInt.max_int in *.
  rewrite GoIntFacts.mul_small
    by (unfold GoInt.in_range, GoInt.min_int, GoInt.max_int; nia).
  rewrite GoIntFacts.add_small
    by (unfold GoInt.in_range, GoInt.min_int, GoInt.max_int; nia).
  set (len := length links).
  destruct (Z.gtb_spec (Z.of_nat w * Z.of_nat c + Z.of_nat c) (Z.of_nat len))
    as [Hgt | Hle].
  - destruct (Z.geb_spec (Z.of_nat w * Z.of_nat c) (Z.of_nat len))
      as [Hout | Hin].
    + rewrite skipn_all2 by (fold len; nia). now rewrite firstn_nil.
    + replace (Z.to_nat (Z.of_nat w * Z.of_nat c)) with (w * c)%nat by nia.
      rewrite (firstn_all2 (n := c))
        by (rewrite length_skipn; fold len; nia).
      apply firstn_all2. rewrite length_skipn. fold len. nia.
  - destruct (Z.geb_spec (Z.of_nat w * Z.of_nat c)
                         (Z.of_nat w * Z.of_nat c + Z.of_nat c))
      as [Hz | Hnz].
    + assert (c = 0%nat) by lia. subst c. reflexivity.
    + replace (Z.to_nat (Z.of_nat w * Z.of_nat c)) with (w * c)%nat by nia.
      f_equal. lia.
Qed.

Lemma concat_chunks (links : list complex) (c W : nat) :
  (Z.of_nat W * Z.of_nat c + Z.of_nat c <= GoInt.max_int)%Z ->
  concat (map (fun w => chunkOf links (Z.of_nat c) (Z.of_nat w)) (seq 0 W))
  = firstn (W * c) links.
Proof.
  induction W as [| W IH]; intros H; [reflexivity |].
  rewrite seq_S, map_app, concat_app. cbn [map concat Nat.add].
  rewrite app_nil_r, IH by nia.
  rewrite chunkOf_eq by nia.
  replace (S W * c)%nat with (W * c + c)%nat by lia.
  now rewrite firstn_add_skipn.
Qed.

Lemma mergeChunks_length_mono (a : float) (collected : list collectedResult)
  (finalPoints : list complex) :
  (length finalPoints
   <= length (mergeChunks pow_rest a collected finalPoints))%nat.
Proof.
  revert finalPoints.
  induction collected as [| c rest IH]; intros fp; [cbn; lia |].
  cbn [mergeChunks]. destruct (points c) as [| p ps]; [apply IH |].
  etransitivity; [| apply IH].
  destruct rest as [| next rest']; [rewrite length_app; lia |].
  destruct (points next); rewrite ?length_app; lia.
Qed.

Lemma processChunk_points (b : Bounds) (outputSize : Z) (a : float)
  (first : complex) (rest : list complex) :
  points (processChunk pow_rest b outputSize a (first :: rest))
  = fst (walk pow_rest b outputSize a rest (newGroup b outputSize first) [])
    ++ [flushGroup
          (snd (walk pow_rest b outputSize a rest
                     (newGroup b outputSize first) []))].
Proof.
  unfold processChunk.
  destruct (walk pow_rest b outputSize a rest _ []) as [cp g]. reflexivity.
Qed.

End DownsampleMore.

(** X9: the split among the workers loses and repeats nothing: for at
    least one worker, the chunks [links[w*chunkSize : min(w*chunkSize +
    chunkSize, len)]], [w = 0 .. NumCPU-1], with [chunkSize = ceil(len /
    NumCPU)], concatenate to the input (workers past the end get an empty
    chunk). *)
Theorem worker_chunks_cover_input (links : list F64.complex) (NumCPU : Z) :
  1 <= NumCPU ->
  2 * Z.of_nat (length links) + NumCPU <= GoInt.max_int ->
  concat (map (fun w =>
                 Downsample.chunkOf links
                   (Z.quot (GoInt.sub (GoInt.add (Z.of_nat (length links))
                                                 NumCPU) 1) NumCPU)
                   (Z.of_nat w))
              (seq 0 (Z.to_nat NumCPU)))
  = links.
Proof.
  intros HW Hmax. unfold GoInt.max_int in Hmax.
  set (len := Z.of_nat (length links)) in *.
  rewrite GoIntFacts.add_small
    by (unfold GoInt.in_range, GoInt.min_int, GoInt.max_int; lia).
  rewrite GoIntFacts.sub_small
    by (unfold GoInt.in_range, GoInt.min_int, GoInt.max_int; lia).
  rewrite Z.quot_div_nonneg by lia.
  set (cs := (len + NumCPU - 1) / NumCPU).
  pose proof (Z.div_mod (len + NumCPU - 1) NumCPU ltac:(lia)) as E.
  pose proof (Z.mod_pos_bound (len + NumCPU - 1) NumCPU ltac:(lia)) as B.
  fold cs in E.
  assert (Hcs : 0 <= cs) by (apply Z.div_pos; lia).
  assert (Hcov : len <= NumCPU * cs) by nia.
  assert (Hup : cs <= len) by nia.
  replace cs with (Z.of_nat (Z.to_nat cs)) by lia.
  rewrite concat_chunks by (unfold GoInt.max_int; nia).
  apply firstn_all2. fold len in Hcov |- *. nia.
Qed.

Lemma worker_chunks_cover_input_witness :
  1 <= 3
  /\ 2 * Z.of_nat (length Inputs.zigzag) + 3 <= GoInt.max_int
  /\ concat (map (fun w =>
                    Downsample.chunkOf Inputs.zigzag
                      (Z.quot (GoInt.sub
                                 (GoInt.add (Z.of_nat (length Inputs.zigzag))
                                            3) 1) 3)
                      (Z.of_nat w))
                 (seq 0 (Z.to_nat 3)))
     = Inputs.zigzag.
Proof.
  assert (H1 : 1 <= 3) by lia.
  assert (H2 : 2 * Z.of_nat (length Inputs.zigzag) + 3 <= GoInt.max_int)
    by (unfold GoInt.max_int; cbn; lia).
  split; [exact H1 |]. split; [exact H2 |].
  exact (worker_chunks_cover_input Inputs.zigzag 3 H1 H2).
Defined.

(** X10: when the whole input collapses (its relative spread is at most
    [maxRelativeSpread]), the parallel and the serial downsampler return the
    same single point, the mean of all inputs, whatever the input length and
    the number of workers. *)
Theorem collapse_agreement
  (pow_rest : float -> float -> float) (NumCPU : Z)
  (links : list F64.complex) (outputSize : Z) (aggressiveness : float)
  (debug : bool) :
  Downsample.collapses pow_rest links aggressiveness = true ->
  Downsample.downsampleComplex pow_rest NumCPU links outputSize
                               aggressiveness debug
  = [Downsample.average links]
  /\ Downsample.downsampleComplexSerial pow_rest links outputSize
                                        aggressiveness debug
     = [Downsample.average links].
Proof.
  intros Hc.
  pose proof (serial_collapsed pow_rest links outputSize aggressiveness
                debug Hc) as Hs.
  split; [| exact Hs].
  unfold Downsample.downsampleComplex.
  destruct (Z.of_nat (length links) <? 10000); [exact Hs |].
  destruct links as [| first rest]; [discriminate Hc |].
  unfold Downsample.collapses in Hc. now rewrite Hc.
Qed.

Lemma collapse_agreement_witness :
  Downsample.collapses (fun _ _ => nan) Inputs.samePixel 4 = true
  /\ Downsample.downsampleComplex (fun _ _ => nan) 8 Inputs.samePixel 2048
                                  4 false
     = [Downsample.average Inputs.samePixel]
  /\ Downsample.downsampleComplexSerial (fun _ _ => nan) Inputs.samePixel
                                        2048 4 false
     = [Downsample.average Inputs.samePixel].
Proof.
  assert (H : Downsample.collapses (fun _ _ => nan) Inputs.samePixel 4
              = true) by (vm_compute; reflexivity).
  split; [exact H |].
  exact (collapse_agreement (fun _ _ => nan) 8 Inputs.samePixel 2048
           4%float false H).
Defined.

(** X11: with a single worker the parallel downsampler returns what the
    serial one returns, on every input. *)
Theorem one_worker_is_serial
  (pow_rest : float -> float -> float)
  (links : list F64.complex) (outputSize : Z) (aggressiveness : float)
  (debug : bool) :
  Z.of_nat (length links) < GoInt.max_int ->
  Downsample.downsampleComplex pow_rest 1 links outputSize aggressiveness
                               debug
  = Downsample.downsampleComplexSerial pow_rest links outputSize
                                       aggressiveness debug.
Proof.
  intros Hmax. unfold Downsample.downsampleComplex.
  destruct (Z.ltb_spec (Z.of_nat (length links)) 10000) as [| Hbig];
    [reflexivity |].
  destruct links as [| first rest]; [reflexivity |].
  unfold Downsample.downsampleComplexSerial.
  destruct (_ <=? _)%float; [reflexivity |].
  unfold Downsample.collect. change (Z.to_nat 1) with 1%nat.
  cbn [seq map]. unfold GoInt.max_int in Hmax.
  rewrite GoIntFacts.add_small
    by (unfold GoInt.in_range, GoInt.min_int, GoInt.max_int; lia).
  rewrite GoIntFacts.sub_small
    by (unfold GoInt.in_range, GoInt.min_int, GoInt.max_int; lia).
  rewrite Z.quot_1_r.
  replace (Z.of_nat (length (first :: rest)) + 1 - 1)
    with (Z.of_nat (length (first :: rest))) by lia.
  rewrite (chunkOf_eq (first :: rest) (length (first :: rest)) 0)
    by (unfold GoInt.max_int; lia).
  cbn [Nat.mul skipn]. rewrite firstn_all.
  cbn [Downsample.mergeChunks]. rewrite processChunk_points.
  destruct (Downsample.walk pow_rest _ outputSize aggressiveness rest _ [])
    as [ds g].
  cbn [fst snd]. destruct (ds ++ _) eqn:E; [| reflexivity].
  destruct ds; discriminate E.
Qed.

Lemma one_worker_is_serial_witness :
  Z.of_nat (length Inputs.boundary) < GoInt.max_int
  /\ Downsample.downsampleComplex (fun _ _ => nan) 1 Inputs.boundary 100 0
                                  false
     = Downsample.downsampleComplexSerial (fun _ _ => nan) Inputs.boundary
                                          100 0 false.
Proof.
  assert (H : Z.of_nat (length Inputs.boundary) < GoInt.max_int)
    by (vm_compute; reflexivity).
  split; [exact H |].
  exact (one_worker_is_serial (fun _ _ => nan) Inputs.boundary 100 0%float
           false H).
Defined.

(** X12: the downsampler returns an empty slice for the empty input only:
    with at least one worker, the output of [downsampleComplex] (serial or
    parallel path) is empty exactly when the input is. *)
Theorem output_empty_iff_input_empty
  (pow_rest : float -> float -> float) (NumCPU : Z)
  (links : list F64.complex) (outputSize : Z) (aggressiveness : float)
  (debug : bool) :
  1 <= NumCPU ->
  2 * Z.of_nat (length links) + NumCPU <= GoInt.max_int ->
  Downsample.downsampleComplex pow_rest NumCPU links outputSize
                               aggressiveness debug = []
  <-> links = [].
Proof.
  intros HW Hmax. split; [| intros ->; reflexivity].
  intros Hout. destruct links as [| first rest]; [reflexivity | exfalso].
  apply (f_equal (@length _)) in Hout. cbn [length] in Hout.
  revert Hout. unfold Downsample.downsampleComplex.
  destruct (Z.ltb_spec (Z.of_nat (length (first :: rest))) 10000)
    as [| Hbig].
  { pose proof (serial_nonempty pow_rest (first :: rest) outputSize
                  aggressiveness debug ltac:(discriminate)). lia. }
  destruct (_ <=? _)%float; [discriminate |].
  unfold Downsample.collect.
  replace (Z.to_nat NumCPU) with (S (Z.to_nat (NumCPU - 1))) by lia.
  cbn [seq map]. unfold GoInt.max_int in Hmax.
  set (len := Z.of_nat (length (first :: rest))) in *.
  rewrite GoIntFacts.add_small
    by (unfold GoInt.in_range, GoInt.min_int, GoInt.max_int; lia).
  rewrite GoIntFacts.sub_small
    by (unfold GoInt.in_range, GoInt.min_int, GoInt.max_int; lia).
  rewrite Z.quot_div_nonneg by lia.
  set (cs := (len + NumCPU - 1) / NumCPU).
  pose proof (Z.div_mod (len + NumCPU - 1) NumCPU ltac:(lia)) as E.
  pose proof (Z.mod_pos_bound (len + NumCPU - 1) NumCPU ltac:(lia)) as B.
  fold cs in E.
  assert (Hcs : 1 <= cs <= len) by nia.
  replace cs with (Z.of_nat (Z.to_nat cs)) by lia.
  rewrite (chunkOf_eq (first :: rest) (Z.to_nat cs) 0)
    by (unfold GoInt.max_int; lia).
  cbn [Nat.mul skipn].
  replace (Z.to_nat cs) with (S (Z.to_nat (cs - 1))) at 1 by lia.
  cbn [firstn Downsample.mergeChunks]. rewrite processChunk_points.
  destruct (Downsample.walk pow_rest _ outputSize aggressiveness _ _ [])
    as [ds g].
  cbn [fst snd]. destruct (ds ++ _) as [| p ps] eqn:Eds.
  { destruct ds; discriminate Eds. }
  intros Hout.
  match type of Hout with
  | length (Downsample.mergeChunks _ _ ?r ?fp) = _ =>
      pose proof (mergeChunks_length_mono pow_rest aggressiveness r fp) as M
  end.
  rewrite Hout in M.
  destruct (map _ _) as [| next r'] in M;
    [| destruct (Downsample.points next) in M];
    rewrite ?length_app in M; cbn [length app] in M; lia.
Qed.

Lemma output_empty_iff_input_empty_witness :
  1 <= 8
  /\ 2 * Z.of_nat (length Inputs.farApart) + 8 <= GoInt.max_int
  /\ (Downsample.downsampleComplex (fun _ _ => nan) 8 Inputs.farApart 100
                                   0.5 false = []
      <-> Inputs.farApart = []).
Proof.
  assert (H1 : 1 <= 8) by lia.
  assert (H2 : 2 * Z.of_nat (length Inputs.farApart) + 8 <= GoInt.max_int)
    by (unfold GoInt.max_int; cbn; lia).
  split; [exact H1 |]. split; [exact H2 |].
  exact (output_empty_iff_input_empty (fun _ _ => nan) 8 Inputs.farApart
           100 0.5%float false H1 H2).
Defined.

(** * The view bounds *)
Section BoundsFacts.

Import F64 Downsample.
Local Open Scope float_scope.

Lemma SFcompare_rank (x y : spec_float) :
  x <> S754_nan -> y <> S754_nan ->
  (SFltb x y = true <-> lexlt (rank x) (rank y))
  /\ (SFleb x y = true <-> lexle (rank x) (rank y)).
Proof.
  intros Hx Hy. unfold SFltb, SFleb, lexlt, lexle.
  destruct x as [sx | sx | | sx mx ex]; try congruence;
    destruct y as [sy | sy | | sy my ey]; try congruence;
    try destruct sx; try destruct sy; cbn;
    try (split; split; (lia || discriminate || reflexivity)).
  all: change (Pos.compare_cont Eq ?a ?b) with (Pos.compare a b).
  - destruct (Z.compare_spec ex ey); [destruct (Pos.compare_spec mx my) | |];
      cbn; split; split; (lia || discriminate || reflexivity).
  - destruct (Z.compare_spec ex ey); [destruct (Pos.compare_spec mx my) | |];
      cbn; split; split; (lia || discriminate || reflexivity).
Qed.

Lemma SFeqb_self (x : spec_float) : x <> S754_nan -> SFeqb x x = true.
Proof.
  intros Hx. unfold SFeqb.
  destruct x as [sx | sx | | sx mx ex]; try congruence;
    try destruct sx; cbn; try reflexivity.
  all: change (Pos.compare_cont Eq ?a ?b) with (Pos.compare a b).
  all: now rewrite Z.compare_refl, Pos.compare_refl.
Qed.

Lemma is_nan_false (x : float) : is_nan x = false -> Prim2SF x <> S754_nan.
Proof.
  unfold is_nan. rewrite FloatAxioms.eqb_spec. intros H E.
  rewrite E in H. discriminate H.
Qed.

Lemma not_nan_is_nan (x : float) : Prim2SF x <> S754_nan -> is_nan x = false.
Proof.
  intros H. unfold is_nan. rewrite FloatAxioms.eqb_spec.
  now rewrite SFeqb_self.
Qed.

Lemma ltb_rank (x y : float) :
  is_nan x = false -> is_nan y = false ->
  ((x <? y) = true <-> lexlt (rankOf x) (rankOf y)).
Proof.
  intros Hx Hy. rewrite FloatAxioms.ltb_spec. unfold rankOf.
  apply SFcompare_rank; now apply is_nan_false.
Qed.

Lemma leb_rank (x y : float) :
  is_nan x = false -> is_nan y = false ->
  ((x <=? y) = true <-> lexle (rankOf x) (rankOf y)).
Proof.
  intros Hx Hy. rewrite FloatAxioms.leb_spec. unfold rankOf.
  apply SFcompare_rank; now apply is_nan_false.
Qed.

(** One axis: a bound pair that encloses [y] still does after it is
    widened by [x], and then encloses [x] too. *)
Lemma axis_widen (lo hi x : float) :
  is_nan lo = false -> is_nan hi = false -> is_nan x = false ->
  let lo' := if x <? lo then x else lo in
  let hi' := if hi <? x then x else hi in
  is_nan lo' = false /\ is_nan hi' = false
  /\ (lo' <=? x) = true /\ (x <=? hi') = true
  /\ forall y, is_nan y = false ->
       (lo <=? y) = true -> (y <=? hi) = true ->
       (lo' <=? y) = true /\ (y <=? hi') = true.
Proof.
  intros Hlo Hhi Hx lo' hi'.
  assert (Hlo' : is_nan lo' = false) by (subst lo'; destruct (x <? lo); auto).
  assert (Hhi' : is_nan hi' = false) by (subst hi'; destruct (hi <? x); auto).
  split; [exact Hlo' |]. split; [exact Hhi' |].
  pose proof (ltb_rank x lo Hx Hlo) as L1.
  pose proof (ltb_rank hi x Hhi Hx) as L2.
  assert (Q : lexle (rankOf lo') (rankOf x) /\ lexle (rankOf x) (rankOf hi')
              /\ lexle (rankOf lo') (rankOf lo)
              /\ lexle (rankOf hi) (rankOf hi')).
  { subst lo' hi'. unfold lexlt, lexle in *.
    destruct (x <? lo); destruct (hi <? x);
      destruct (rankOf lo) as [[a1 a2] a3]; destruct (rankOf hi) as [[b1 b2] b3];
      destruct (rankOf x) as [[c1 c2] c3]; cbn [fst snd] in *;
      repeat split;
      try (assert (T : true = true) by reflexivity; apply L1 in T);
      try (assert (T' : true = true) by reflexivity; apply L2 in T');
      try (assert (F : ~ (false = true)) by discriminate;
           rewrite L1 in F);
      try (assert (F' : ~ (false = true)) by discriminate;
           rewrite L2 in F');
      lia. }
  destruct Q as (Q1 & Q2 & Q3 & Q4).
  split; [now apply leb_rank |]. split; [now apply leb_rank |].
  intros y Hy H1 H2.
  apply (leb_rank lo y Hlo Hy) in H1. apply (leb_rank y hi Hy Hhi) in H2.
  split; apply leb_rank; try assumption.
  - unfold lexle in *.
    destruct (rankOf lo') as [[a1 a2] a3]; destruct (rankOf lo) as [[b1 b2] b3];
      destruct (rankOf y) as [[c1 c2] c3]; cbn [fst snd] in *; lia.
  - unfold lexle in *.
    destruct (rankOf hi') as [[a1 a2] a3]; destruct (rankOf hi) as [[b1 b2] b3];
      destruct (rankOf y) as [[c1 c2] c3]; cbn [fst snd] in *; lia.
Qed.

Lemma widen_step (b : Bounds) (link : complex) :
  wellFormed b -> noNaN link ->
  wellFormed (widen b link)
  /\ insideBounds (widen b link) link
  /\ forall l, noNaN l -> insideBounds b l -> insideBounds (widen b link) l.
Proof.
  intros (W1 & W2 & W3 & W4) (N1 & N2).
  destruct (axis_widen (minX b) (maxX b) (real link) W1 W2 N1)
    as (A1 & A2 & A3 & A4 & A5).
  destruct (axis_widen (minY b) (maxY b) (imag link) W3 W4 N2)
    as (B1 & B2 & B3 & B4 & B5).
  unfold wellFormed, insideBounds, widen. cbn [minX maxX minY maxY].
  repeat split; try assumption;
    destruct H as (M1 & M2), H0 as (I1 & I2 & I3 & I4);
    try (apply (A5 _ M1 I1 I2)); apply (B5 _ M2 I3 I4).
Qed.

Lemma fold_widen (links : list complex) (b : Bounds) (seen : list complex) :
  wellFormed b -> Forall noNaN links -> Forall noNaN seen ->
  Forall (insideBounds b) seen ->
  wellFormed (fold_left widen links b)
  /\ Forall (insideBounds (fold_left widen links b)) (seen ++ links).
Proof.
  revert b seen. induction links as [| link rest IH];
    intros b seen W Hn Hs Hin.
  - cbn. now rewrite app_nil_r.
  - inversion Hn as [| ? ? Hl Hr]; subst.
    destruct (widen_step b link W Hl) as (W' & I' & K).
    cbn [fold_left].
    change (seen ++ link :: rest) with (seen ++ [link] ++ rest).
    rewrite app_assoc. apply IH; try assumption.
    + apply Forall_app. split; [exact Hs | now constructor].
    + apply Forall_app. split; [| now constructor].
      rewrite Forall_forall in *. intros l Hl'. apply K; auto.
Qed.

End BoundsFacts.

(** X13: the view bounds enclose every link: when no coordinate is a NaN,
    every link of the input (and the seed, [links[0]]) has its real part
    between [minX] and [maxX] and its imaginary part between [minY] and
    [maxY], and the bounds themselves are not NaN. *)
Theorem view_bounds_enclose (first : F64.complex) (links : list F64.complex) :
  Forall noNaN (first :: links) ->
  Forall (insideBounds (Downsample.viewBounds first links)) (first :: links)
  /\ is_nan (Downsample.minX (Downsample.viewBounds first links)) = false
  /\ is_nan (Downsample.maxX (Downsample.viewBounds first links)) = false
  /\ is_nan (Downsample.minY (Downsample.viewBounds first links)) = false
  /\ is_nan (Downsample.maxY (Downsample.viewBounds first links)) = false.
Proof.
  intros H. inversion H as [| ? ? Hf Hl]; subst.
  destruct Hf as (F1 & F2).
  unfold Downsample.viewBounds.
  destruct (fold_widen links
              {| Downsample.minX := F64.real first;
                 Downsample.maxX := F64.real first;
                 Downsample.minY := F64.imag first;
                 Downsample.maxY := F64.imag first |} [first])
    as (W & I).
  - repeat split; assumption.
  - exact Hl.
  - constructor; [split; assumption | constructor].
  - constructor; [| constructor].
    unfold insideBounds. cbn [Downsample.minX Downsample.maxX
                              Downsample.minY Downsample.maxY].
    assert (R : forall x, is_nan x = false -> (x <=? x)%float = true).
    { intros x Hx. apply leb_rank; try assumption.
      unfold lexle. destruct (rankOf x) as [[a1 a2] a3]. cbn. lia. }
    repeat split; apply R; assumption.
  - split; [exact I | exact W].
Qed.

Lemma view_bounds_enclose_witness :
  Forall noNaN ((0, 0)%float :: Inputs.zigzag)
  /\ Forall (insideBounds (Downsample.viewBounds (0, 0)%float Inputs.zigzag))
            ((0, 0)%float :: Inputs.zigzag)
  /\ is_nan (Downsample.minX (Downsample.viewBounds (0, 0)%float
                                                    Inputs.zigzag)) = false
  /\ is_nan (Downsample.maxX (Downsample.viewBounds (0, 0)%float
                                                    Inputs.zigzag)) = false
  /\ is_nan (Downsample.minY (Downsample.viewBounds (0, 0)%float
                                                    Inputs.zigzag)) = false
  /\ is_nan (Downsample.maxY (Downsample.viewBounds (0, 0)%float
                                                    Inputs.zigzag)) = false.
Proof.
  assert (H : Forall noNaN ((0, 0)%float :: Inputs.zigzag))
    by (repeat constructor).
  split; [exact H |].
  exact (view_bounds_enclose (0, 0)%float Inputs.zigzag H).
Defined.

(** * The channel-based engine *)
Section LaunchFacts.

Import Channels.

Variable cfg : Config.
Variable N : Z.
Hypothesis valid : validRun cfg N.

Let W := ChunkSize cfg.

(** With fuel for every index the launch loop ends, and its ranges follow
    one another from [start] to [N], none of them empty. *)
Lemma launchLoop_spec (fuel : nat) (start : Z) :
  1 <= start ->
  Z.max 0 (N - start) < Z.of_nat fuel ->
  exists chunks,
    launchLoop fuel cfg N start = Some chunks
    /\ (start < N -> tiles start N chunks)
    /\ Forall (fun r => 0 < snd r - fst r <= W) chunks
    /\ Z.of_nat (length chunks)
       = if start <? N then (N - start + W - 1) / W else 0.
Proof.
  destruct valid as (HN & HW & HM). fold W in HW, HM.
  unfold GoInt.max_int in HM.
  revert start. induction fuel as [| fuel IH]; intros start Hs Hf; [lia |].
  cbn [launchLoop]. fold W.
  destruct (Z.ltb_spec start N) as [Hlt | Hge].
  - rewrite GoIntFacts.add_small
      by (unfold GoInt.in_range, GoInt.min_int, GoInt.max_int; lia).
    destruct (IH (start + W)) as (rest & E & T & F & L); [lia | lia |].
    rewrite E. eexists. split; [reflexivity |].
    destruct (Z.gtb_spec (start + W) N) as [Hover | Hin].
    + destruct (Z.ltb_spec (start + W) N); [lia |].
      destruct rest; [| discriminate L].
      split; [intros _; cbn; lia |].
      split; [constructor; [cbn; lia | constructor] |].
      cbn [length].
      assert ((N - start + W - 1) / W = 1); [| lia].
      symmetry. apply Z.div_unique with (r := N - start - 1);
        [left; lia | lia].
    + split.
      { intros _. cbn [tiles]. split; [reflexivity |]. split; [lia |].
        destruct (Z.eq_dec (start + W) N) as [Heq | Hne].
        - destruct (Z.ltb_spec (start + W) N); [lia |].
          destruct rest; [| discriminate L]. cbn. exact Heq.
        - apply T. lia. }
      split; [constructor; [cbn; lia | exact F] |].
      cbn [length]. rewrite Nat2Z.inj_succ, L.
      replace (N - start + W - 1) with (N - (start + W) + W - 1 + 1 * W)
        by lia.
      rewrite Z.div_add by lia.
      destruct (Z.ltb_spec (start + W) N); [lia |].
      assert (start + W = N) by lia.
      replace (N - (start + W) + W - 1) with (W - 1) by lia.
      rewrite Z.div_small by lia. lia.
  - exists []. split; [reflexivity |]. split; [lia |].
    split; [constructor | reflexivity].
Qed.

End LaunchFacts.

(** X14: for a term count [N >= 1] and a chunk width [W >= 1] the
    launch loop of the channel-based engine ends and starts exactly
    [ceil((N-1)/W)] goroutines, over non-empty ranges of at most [W] indices
    that follow one another from 1 to [N]; that number never exceeds the
    capacity [(N + W - 1) / W] of the two channels, so no send has to
    wait. *)
Theorem launch_count_within_capacity (cfg : Config) (N : Z) (fuel : nat) :
  validRun cfg N ->
  N <= Z.of_nat fuel ->
  exists chunks cap,
    Channels.launchLoop fuel cfg N 1 = Some chunks
    /\ Channels.capacity cfg N = Some cap
    /\ Z.of_nat (length chunks) = (N - 1 + ChunkSize cfg - 1) / ChunkSize cfg
    /\ Z.of_nat (length chunks) <= cap
    /\ tiles 1 N chunks
    /\ Forall (fun r => 0 < snd r - fst r <= ChunkSize cfg) chunks.
Proof.
  intros valid Hf.
  pose proof valid as (HN & HW & HM).
  destruct (launchLoop_spec cfg N valid fuel 1) as (chunks & E & T & F & L);
    [lia | lia |].
  exists chunks, ((N + ChunkSize cfg - 1) / ChunkSize cfg).
  split; [exact E |].
  split; [apply numChunks_eq; exact valid |].
  assert (Len : Z.of_nat (length chunks)
                = (N - 1 + ChunkSize cfg - 1) / ChunkSize cfg).
  { rewrite L. destruct (Z.ltb_spec 1 N); [reflexivity |].
    replace N with 1 by lia. symmetry. apply Z.div_small. lia. }
  split; [exact Len |].
  split; [rewrite Len; apply Z.div_le_mono; lia |].
  split; [| exact F].
  destruct (Z.eq_dec N 1) as [-> | Hne]; [| apply T; lia].
  rewrite Z.div_small in Len by lia.
  destruct chunks; [reflexivity | discriminate Len].
Qed.

Lemma launch_count_within_capacity_witness :
  validRun Channels.constants 100
  /\ 100 <= Z.of_nat 100
  /\ exists chunks cap,
       Channels.launchLoop 100 Channels.constants 100 1 = Some chunks
       /\ Channels.capacity Channels.constants 100 = Some cap
       /\ Z.of_nat (length chunks) = (100 - 1 + 1000 - 1) / 1000
       /\ Z.of_nat (length chunks) <= cap
       /\ tiles 1 100 chunks
       /\ Forall (fun r => 0 < snd r - fst r <= 1000) chunks.
Proof.
  assert (H1 : validRun Channels.constants 100)
    by (unfold validRun, GoInt.max_int; cbn; lia).
  assert (H2 : 100 <= Z.of_nat 100) by lia.
  split; [exact H1 |]. split; [exact H2 |].
  exact (launch_count_within_capacity Channels.constants 100 100 H1 H2).
Defined.

Section OutcomeFacts.

Import Channels.

Variable A : ComplexArith.
Variable s : C A.

Lemma chain_fst (rs : list (C A * list (C A))) (r : C A) (out : list (C A)) :
  fst (fold_left chainStep rs (r, out)) = fold_left (cadd A) (map fst rs) r.
Proof.
  revert r out. induction rs as [| [p l] rs IH]; intros r out;
    [reflexivity |].
  cbn [fold_left map fst chainStep]. apply IH.
Qed.

Lemma concat_length_perm (ls ls' : list (list (C A))) :
  Permutation ls ls' -> length (concat ls) = length (concat ls').
Proof.
  induction 1; cbn; rewrite ?length_app in *; lia.
Qed.

Lemma chunk_links_length (chunks : list (Z * Z)) (lo hi : Z) :
  tiles lo hi chunks ->
  length (concat (map snd (chunkResults A s chunks))) = Z.to_nat (hi - lo).
Proof.
  revert lo. induction chunks as [| [a b] rest IH]; intros lo; cbn [tiles].
  - intros ->. cbn. lia.
  - intros (-> & Hab & Hrest).
    pose proof (tiles_le rest b hi Hrest).
    cbn [chunkResults map concat snd fst].
    rewrite computePartialSumWithLinks_spec. cbn [snd].
    fold (chunkResults A s rest).
    rewrite length_app, prefixSums_length, (IH b Hrest). lia.
Qed.

Hypothesis laws : ExactAdd A.

Lemma fold_cadd_perm (l l' : list (C A)) (a : C A) :
  Permutation l l' -> fold_left (cadd A) l a = fold_left (cadd A) l' a.
Proof.
  intros P. revert a. induction P; intros a; cbn.
  - reflexivity.
  - apply IHP.
  - now rewrite (cadd_swap A laws).
  - now rewrite IHP1.
Qed.

Lemma chunk_sums_total (chunks : list (Z * Z)) (lo hi : Z) :
  tiles lo hi chunks ->
  fold_left (cadd A) (map fst (chunkResults A s chunks)) (czero A)
  = sumTerms s (Z.to_nat (hi - lo)) lo (czero A).
Proof.
  intros T. rewrite <- (chain_fst _ _ []).
  now rewrite (chain_tiles A laws s chunks lo hi _ _ T).
Qed.

End OutcomeFacts.

(** X15: the channel-based engine has a result, and whatever the order in
    which the goroutines finish, [allLinks] has [N - 1] elements; in exact
    arithmetic the grand total does not depend on that order either: it is
    the plain sum of the terms [1..N-1] plus the correction, the grand total
    of [calculateSpiralPartialSums]. *)
Theorem arrival_order_is_immaterial (A : ComplexArith) (cfg : Config)
  (s : C A) (fuel : nat) :
  validRun cfg (termCount cfg s) ->
  termCount cfg s <= Z.of_nat fuel ->
  (exists r, Channels.outcome A fuel cfg s r)
  /\ forall total allLinks,
       Channels.outcome A fuel cfg s (total, allLinks) ->
       length allLinks = Z.to_nat (termCount cfg s - 1)
       /\ (ExactAdd A ->
           total = cadd A (cumulativeSum s (Z.to_nat (termCount cfg s - 1)))
                          (correction (termCount cfg s) s)
           /\ exists traj,
                calculateSpiralPartialSums cfg s = Some (total, traj)).
Proof.
  intros valid Hf.
  set (N := termCount cfg s) in *.
  pose proof valid as (HN & _).
  destruct (launchLoop_spec cfg N valid fuel 1) as (chunks & E & T & _ & L);
    [lia | lia |].
  assert (T' : tiles 1 N chunks).
  { destruct (Z.eq_dec N 1) as [E1 | Hne]; [| apply T; lia].
    rewrite E1 in *. cbn in L. destruct chunks; [reflexivity | discriminate L]. }
  split.
  - eexists. exists chunks. eexists _, _.
    split; [exact E |]. split; [apply Permutation_refl |].
    split; [apply Permutation_refl | reflexivity].
  - intros total allLinks (chunks' & rs & ls & E' & P1 & P2 & R).
    fold N in E'. rewrite E in E'. injection E' as <-.
    injection R as -> ->.
    split.
    + rewrite (concat_length_perm A _ _ P2).
      apply (chunk_links_length A s chunks 1 N T').
    + intros laws.
      rewrite (fold_cadd_perm A laws _ _ _ P1).
      rewrite (chunk_sums_total A s laws chunks 1 N T').
      split; [reflexivity |].
      rewrite (engine_exact A laws s cfg valid). fold N.
      eexists. reflexivity.
Qed.

Lemma arrival_order_is_immaterial_witness :
  validRun Channels.constants 100
  /\ 100 <= Z.of_nat 100
  /\ (exists r, Channels.outcome Exact.arith 100 Channels.constants
                                 Exact.two r)
  /\ forall total allLinks,
       Channels.outcome Exact.arith 100 Channels.constants Exact.two
                        (total, allLinks) ->
       length allLinks = 99%nat
       /\ (ExactAdd Exact.arith ->
           total = cadd Exact.arith (cumulativeSum Exact.two 99)
                                    (correction 100 Exact.two)
           /\ exists traj,
                calculateSpiralPartialSums Channels.constants Exact.two
                = Some (total, traj)).
Proof.
  assert (H1 : validRun Channels.constants 100)
    by (unfold validRun, GoInt.max_int; cbn; lia).
  assert (H2 : 100 <= Z.of_nat 100) by lia.
  split; [exact H1 |]. split; [exact H2 |].
  exact (arrival_order_is_immaterial Exact.arith Channels.constants
           Exact.two 100 H1 H2).
Defined.

(** * Delta encoding *)
Section DeltaFacts.

Import F64 Delta.

Variable int16_of : float -> Z.

Lemma encodeDeltas_length (prev : complex) (rest : list complex)
  (sx sy : float) :
  length (encodeDeltas int16_of prev rest sx sy) = (2 * length rest)%nat.
Proof.
  revert prev. induction rest as [| p rest IH]; intros prev; cbn [encodeDeltas length].
  - reflexivity.
  - rewrite IH. lia.
Qed.

(** With two deltas per remaining point the decoding loop never indexes
    out of range. *)
Lemma decodeLoop_total (c : DeltaCompressed) (n : nat) (i : Z)
  (prev : complex) :
  1 <= i ->
  (2 * (Z.to_nat (i - 1) + n) <= length (Deltas c))%nat ->
  exists ps, decodeLoop c n i prev = Some ps /\ length ps = n.
Proof.
  revert i prev. induction n as [| n IH]; intros i prev Hi Hlen.
  - exists []. split; reflexivity.
  - cbn [decodeLoop].
    destruct (nth_error (Deltas c) (Z.to_nat ((i - 1) * 2))) as [qx |] eqn:Ex;
      [| apply nth_error_None in Ex; lia].
    destruct (nth_error (Deltas c) (Z.to_nat ((i - 1) * 2 + 1)))
      as [qy |] eqn:Ey; [| apply nth_error_None in Ey; lia].
    destruct (IH (i + 1) (real prev + of_Z qx * ScaleX c,
                          imag prev + of_Z qy * ScaleY c)%float)
      as (ps & E & L); [lia | lia |].
    rewrite E. eexists. split; [reflexivity |]. cbn [length]. now rewrite L.
Qed.

Lemma decompress_shape (c : DeltaCompressed) (n : nat) :
  NumPoints c = Z.of_nat (S n) ->
  length (Deltas c) = (2 * n)%nat ->
  exists ps,
    Decompress c = Some ((StartX c, StartY c) :: ps) /\ length ps = n.
Proof.
  intros EN ED.
  destruct (decodeLoop_total c n 1 (StartX c, StartY c))
    as (ps & E & L); [lia | rewrite ED; cbn; lia |].
  exists ps. split; [| exact L].
  unfold Decompress. rewrite EN.
  destruct (Z.eqb_spec (Z.of_nat (S n)) 0) as [H0 | _]; [lia |].
  replace (Z.to_nat (Z.of_nat (S n) - 1)) with n by lia.
  now rewrite E.
Qed.

End DeltaFacts.

(** X16: decoding what [CompressWithDelta] produced never panics and gives
    back as many points as were encoded, the first of them exactly the first
    input point; the encoder stores two deltas per point after the first.
    This holds for 1 to [2^32 - 1] points and any out-of-range behaviour of
    the [int16] conversion. *)
Theorem delta_round_trip_shape (int16_of : float -> Z)
  (points : list F64.complex) :
  points <> [] ->
  Z.of_nat (length points) < 2 ^ 32 ->
  exists c decoded,
    Delta.CompressWithDelta int16_of points = Some c
    /\ Delta.NumPoints c = Z.of_nat (length points)
    /\ length (Delta.Deltas c) = (2 * (length points - 1))%nat
    /\ Delta.Decompress c = Some decoded
    /\ length decoded = length points
    /\ nth_error decoded 0 = nth_error points 0.
Proof.
  intros Hne Hlen. destruct points as [| [x y] rest]; [congruence |].
  cbn [length] in Hlen.
  unfold Delta.CompressWithDelta.
  destruct (Delta.deltaRanges (x, y) rest _) as [[[minDx maxDx] minDy] maxDy].
  eexists. 
  destruct (decompress_shape
              {| Delta.StartX := x; Delta.StartY := y;
                 Delta.ScaleX := Delta.scaleOf minDx maxDx;
                 Delta.ScaleY := Delta.scaleOf minDy maxDy;
                 Delta.NumPoints := Z.of_nat (length ((x, y) :: rest))
                                    mod 2 ^ 32;
                 Delta.Deltas :=
                   Delta.encodeDeltas int16_of (x, y) rest
                     (Delta.scaleOf minDx maxDx)
                     (Delta.scaleOf minDy maxDy) |} (length rest))
    as (ps & E & L).
  { cbn [Delta.NumPoints length]. apply Z.mod_small. lia. }
  { apply encodeDeltas_length. }
  exists ((x, y) :: ps).
  split; [reflexivity |].
  split; [cbn [Delta.NumPoints length]; apply Z.mod_small; lia |].
  split; [cbn [Delta.Deltas]; rewrite encodeDeltas_length; cbn [length]; lia |].
  split; [exact E |].
  split; [cbn [length]; f_equal; exact L | reflexivity].
Qed.

Lemma delta_round_trip_shape_witness :
  Inputs.farApart <> []
  /\ Z.of_nat (length Inputs.farApart) < 2 ^ 32
  /\ exists c decoded,
       Delta.CompressWithDelta F64.to_int Inputs.farApart = Some c
       /\ Delta.NumPoints c = Z.of_nat (length Inputs.farApart)
       /\ length (Delta.Deltas c) = (2 * (length Inputs.farApart - 1))%nat
       /\ Delta.Decompress c = Some decoded
       /\ length decoded = length Inputs.farApart
       /\ nth_error decoded 0 = nth_error Inputs.farApart 0.
Proof.
  assert (H1 : Inputs.farApart <> []) by discriminate.
  assert (H2 : Z.of_nat (length Inputs.farApart) < 2 ^ 32) by (cbn; lia).
  split; [exact H1 |]. split; [exact H2 |].
  exact (delta_round_trip_shape F64.to_int Inputs.farApart H1 H2).
Defined.

(** X17: [Decompress] panics on a value that holds no point, and on one
    whose [Deltas] are fewer than two per point after the first. *)
Theorem decompress_panics (c : Delta.DeltaCompressed) :
  Delta.NumPoints c = 0
  \/ (2 <= Delta.NumPoints c
      /\ Z.of_nat (length (Delta.Deltas c)) < 2 * (Delta.NumPoints c - 1)) ->
  Delta.Decompress c = None.
Proof.
  intros [H0 | (H2 & Hshort)]; unfold Delta.Decompress.
  - now rewrite H0.
  - destruct (Z.eqb_spec (Delta.NumPoints c) 0) as [| Hne]; [reflexivity |].
    assert (G : forall n i prev,
               1 <= i ->
               Z.of_nat (length (Delta.Deltas c)) < 2 * (i - 1 + Z.of_nat n) ->
               (1 <= n)%nat ->
               Delta.decodeLoop c n i prev = None).
    { induction n as [| n IH]; intros i prev Hi Hs Hn; [lia |].
      cbn [Delta.decodeLoop].
      destruct (nth_error (Delta.Deltas c) (Z.to_nat ((i - 1) * 2)))
        as [qx |] eqn:Ex; [| reflexivity].
      destruct (nth_error (Delta.Deltas c) (Z.to_nat ((i - 1) * 2 + 1)))
        as [qy |] eqn:Ey; [| reflexivity].
      assert (Z.to_nat ((i - 1) * 2 + 1) < length (Delta.Deltas c))%nat
        by (apply nth_error_Some; congruence).
      destruct n as [| n']; [lia |].
      rewrite IH; [reflexivity | lia | lia | lia]. }
    rewrite G; [reflexivity | lia | lia | lia].
Qed.

Lemma decompress_panics_witness :
  (Delta.NumPoints
     {| Delta.StartX := 0; Delta.StartY := 0; Delta.ScaleX := 1;
        Delta.ScaleY := 1; Delta.NumPoints := 3; Delta.Deltas := [1; 1] |}
   = 0
   \/ (2 <= Delta.NumPoints
              {| Delta.StartX := 0; Delta.StartY := 0; Delta.ScaleX := 1;
                 Delta.ScaleY := 1; Delta.NumPoints := 3;
                 Delta.Deltas := [1; 1] |}
       /\ Z.of_nat (length (Delta.Deltas
              {| Delta.StartX := 0; Delta.StartY := 0; Delta.ScaleX := 1;
                 Delta.ScaleY := 1; Delta.NumPoints := 3;
                 Delta.Deltas := [1; 1] |}))
          < 2 * (Delta.NumPoints
              {| Delta.StartX := 0; Delta.StartY := 0; Delta.ScaleX := 1;
                 Delta.ScaleY := 1; Delta.NumPoints := 3;
                 Delta.Deltas := [1; 1] |} - 1)))
  /\ Delta.Decompress
       {| Delta.StartX := 0; Delta.StartY := 0; Delta.ScaleX := 1;
          Delta.ScaleY := 1; Delta.NumPoints := 3; Delta.Deltas := [1; 1] |}
     = None.
Proof.
  assert (H : Delta.NumPoints
                {| Delta.StartX := 0; Delta.StartY := 0; Delta.ScaleX := 1;
                   Delta.ScaleY := 1; Delta.NumPoints := 3;
                   Delta.Deltas := [1; 1] |} = 0
              \/ (2 <= Delta.NumPoints
                         {| Delta.StartX := 0; Delta.StartY := 0;
                            Delta.ScaleX := 1; Delta.ScaleY := 1;
                            Delta.NumPoints := 3; Delta.Deltas := [1; 1] |}
                  /\ Z.of_nat (length (Delta.Deltas
                         {| Delta.StartX := 0; Delta.StartY := 0;
                            Delta.ScaleX := 1; Delta.ScaleY := 1;
                            Delta.NumPoints := 3; Delta.Deltas := [1; 1] |}))
                     < 2 * (Delta.NumPoints
                         {| Delta.StartX := 0; Delta.StartY := 0;
                            Delta.ScaleX := 1; Delta.ScaleY := 1;
                            Delta.NumPoints := 3; Delta.Deltas := [1; 1] |}
                            - 1)))
    by (right; cbn; lia).
  split; [exact H |].
  exact (decompress_panics _ H).
Defined.

(** * Line drawing *)
Section LineFacts.

Import Line.

Variables (dx dy : float) (DX DY sx sy x1 y1 : Z).
Hypothesis HDX : F64.to_int dx = DX.
Hypothesis HDY : F64.to_int dy = DY.
Hypothesis DXr : 0 <= DX <= 2 ^ 30.
Hypothesis DYr : 0 <= DY <= 2 ^ 30.
Hypothesis Hsx : sx = 1 \/ sx = -1.
Hypothesis Hsy : sy = 1 \/ sy = -1.
Hypothesis Hx1 : - 2 ^ 29 <= x1 <= 2 ^ 29.
Hypothesis Hy1 : - 2 ^ 29 <= y1 <= 2 ^ 29.

Lemma sgn_step (s a : Z) : s = 1 \/ s = -1 -> 1 <= a -> Z.sgn (s * a) = s.
Proof. intros [-> | ->] Ha; lia. Qed.

Lemma chain_cons (p q : Z * Z) (ps : list (Z * Z)) :
  hd_error ps = Some q ->
  last ps (x1, y1) = (x1, y1) ->
  chain (towards x1 y1) ps ->
  towards x1 y1 p q ->
  hd_error (p :: ps) = Some p
  /\ last (p :: ps) (x1, y1) = (x1, y1)
  /\ chain (towards x1 y1) (p :: ps).
Proof.
  intros Hh Hl Hc Ht. destruct ps as [| q' ps]; [discriminate |].
  cbn [hd_error] in Hh. injection Hh as ->.
  split; [reflexivity |]. split; [exact Hl |]. split; assumption.
Qed.

(** One iteration: the state after it is the invariant's for [a'] and
    [b'] steps left. *)
Ltac take a' b' :=
  let ps := fresh "ps" in
  let E := fresh "E" in
  let Hh := fresh "Hh" in
  let Hl := fresh "Hl" in
  let Hc := fresh "Hc" in
  let Hn := fresh "Hn" in
  let Hq := fresh "Hq" in
  match goal with
  | IH : forall a b : Z, _ |- _ =>
      destruct (IH a' b') as (ps & E & Hh & Hl & Hc & Hn); [lia | lia | lia |]
  end;
  match goal with
  | |- context [lineLoop ?f ?dx ?dy ?sx ?sy ?x1 ?y1 ?x ?y ?e] =>
      replace x with (x1 - sx * a') by ring;
      replace y with (y1 - sy * b') by ring;
      replace e with (DX - DY - b' * DX + a' * DY) by ring;
      rewrite E; eexists; split; [reflexivity |];
      rewrite <- !and_assoc; split;
      [ rewrite !and_assoc;
        apply chain_cons with (q := (x1 - sx * a', y1 - sy * b'));
        [ exact Hh | exact Hl | exact Hc
        | unfold towards; cbn [fst snd];
          match goal with
          | |- context [Z.sgn (x1 - (x1 - sx * ?a))] =>
              replace (x1 - (x1 - sx * a)) with (sx * a) by ring
          end;
          match goal with
          | |- context [Z.sgn (y1 - (y1 - sy * ?b))] =>
              replace (y1 - (y1 - sy * b)) with (sy * b) by ring
          end;
          split; [| split];
          [ first [ left; ring
                  | right; rewrite sgn_step by (assumption || lia); ring ]
          | first [ left; ring
                  | right; rewrite sgn_step by (assumption || lia); ring ]
          | intros Hq; injection Hq; destruct Hsx, Hsy; subst sx sy; lia ] ]
      | cbn [length]; lia ]
  end.

(** The invariant of the loop: with [a] and [b] the steps still to take
    along each axis, the error term is [DX - DY - b * DX + a * DY]. *)
Lemma lineLoop_spec (fuel : nat) :
  forall a b : Z,
    0 <= a <= DX -> 0 <= b <= DY ->
    a + b < Z.of_nat fuel ->
    exists ps,
      lineLoop fuel dx dy sx sy x1 y1 (x1 - sx * a) (y1 - sy * b)
               (DX - DY - b * DX + a * DY) = Some ps
      /\ hd_error ps = Some (x1 - sx * a, y1 - sy * b)
      /\ last ps (x1, y1) = (x1, y1)
      /\ chain (towards x1 y1) ps
      /\ Z.of_nat (length ps) <= a + b + 1.
Proof.
  induction fuel as [| fuel IH]; intros a b Ha Hb Hf; [lia |].
  cbn [lineLoop]. rewrite HDX, HDY.
  assert (Pb : 0 <= b * DX <= DY * DX) by nia.
  assert (Pa : 0 <= a * DY <= DX * DY) by nia.
  assert (Pm : DX * DY <= 2 ^ 60) by nia.
  assert (Pm' : DY * DX = DX * DY) by ring.
  assert (P1 : 1 <= b -> DX <= b * DX) by nia.
  assert (P2 : 1 <= a -> DY <= a * DY) by nia.
  assert (Sa : sx * a = 0 <-> a = 0) by (destruct Hsx; subst sx; lia).
  assert (Sb : sy * b = 0 <-> b = 0) by (destruct Hsy; subst sy; lia).
  destruct (Z.eqb_spec (x1 - sx * a) x1) as [Ex | Ex];
    destruct (Z.eqb_spec (y1 - sy * b) y1) as [Ey | Ey]; cbn [andb].
  { (* at the target *)
    assert (a = 0) by lia. assert (b = 0) by lia. subst a b.
    exists [(x1 - sx * 0, y1 - sy * 0)].
    repeat split; cbn; try lia.
    f_equal; lia. }
  all: set (err := DX - DY - b * DX + a * DY).
  all: assert (Herr : - 2 ^ 61 <= err <= 2 ^ 61) by (unfold err; lia).
  all: rewrite (GoIntFacts.mul_small 2 err)
    by (unfold GoInt.in_range, GoInt.min_int, GoInt.max_int; lia).
  all: rewrite (GoIntFacts.sub_small 0 DY)
    by (unfold GoInt.in_range, GoInt.min_int, GoInt.max_int; lia).
  all: rewrite (GoIntFacts.sub_small err DY)
    by (unfold GoInt.in_range, GoInt.min_int, GoInt.max_int; lia).
  all: rewrite (GoIntFacts.add_small (x1 - sx * a) sx)
    by (unfold GoInt.in_range, GoInt.min_int, GoInt.max_int;
        destruct Hsx; subst sx; lia).
  all: rewrite (GoIntFacts.add_small (y1 - sy * b) sy)
    by (unfold GoInt.in_range, GoInt.min_int, GoInt.max_int;
        destruct Hsy; subst sy; lia).
  all: destruct (Z.gtb_spec (2 * err) (0 - DY)) as [Gx | Gx];
    destruct (Z.ltb_spec (2 * err) DX) as [Gy | Gy].
  all: try (exfalso; unfold err in *; lia).
  all: rewrite ?GoIntFacts.add_small, ?GoIntFacts.sub_small
    by (unfold GoInt.in_range, GoInt.min_int, GoInt.max_int, err; lia).
  all: subst err.
  - (* x has arrived: a step along y only *)
    take a (b - 1).
  - (* y has arrived: a step along x only *)
    take (a - 1) b.
  - take (a - 1) (b - 1).
  - take (a - 1) b.
  - take a (b - 1).
Qed.

End LineFacts.
Lemma last_default {T : Type} (l : list T) (d d' : T) :
  l <> [] -> last l d = last l d'.
Proof.
  induction l as [| x [| y l] IH]; intros H; [congruence | reflexivity |].
  change (last (y :: l) d = last (y :: l) d'). apply IH. discriminate.
Qed.

(** X18: [drawLine] ends.  For endpoints of absolute value at most [2^29]
    whose distances survive the conversion to [float64] and back, the loop
    reaches its [break] after at most [|x1-x0| + |y1-y0| + 1] calls of
    [img.Set]; the first pixel set is [(x0, y0)], the last is [(x1, y1)], and
    from each pixel to the next every coordinate stays or moves by one
    towards the target's, at least one of them moving. *)
Theorem draw_line_reaches_target (x0 y0 x1 y1 : Z) (fuel : nat) :
  - 2 ^ 29 <= x0 <= 2 ^ 29 -> - 2 ^ 29 <= y0 <= 2 ^ 29 ->
  - 2 ^ 29 <= x1 <= 2 ^ 29 -> - 2 ^ 29 <= y1 <= 2 ^ 29 ->
  Line.exactDeltas x0 y0 x1 y1 ->
  Z.abs (x1 - x0) + Z.abs (y1 - y0) < Z.of_nat fuel ->
  exists pixels,
    Line.drawLine fuel x0 y0 x1 y1 = Some pixels
    /\ hd_error pixels = Some (x0, y0)
    /\ last pixels (x0, y0) = (x1, y1)
    /\ Line.chain (Line.towards x1 y1) pixels
    /\ Z.of_nat (length pixels) <= Z.abs (x1 - x0) + Z.abs (y1 - y0) + 1.
Proof.
  intros Hx0 Hy0 Hx1 Hy1 (E1 & E2 & E3) Hfuel.
  unfold Line.drawLine. rewrite E3.
  set (sx := if x0 <? x1 then 1 else -1).
  set (sy := if y0 <? y1 then 1 else -1).
  assert (Hsx : sx = 1 \/ sx = -1)
    by (unfold sx; destruct (x0 <? x1); [left | right]; reflexivity).
  assert (Hsy : sy = 1 \/ sy = -1)
    by (unfold sy; destruct (y0 <? y1); [left | right]; reflexivity).
  assert (Ex : x0 = x1 - sx * Z.abs (x1 - x0))
    by (unfold sx; destruct (Z.ltb_spec x0 x1); lia).
  assert (Ey : y0 = y1 - sy * Z.abs (y1 - y0))
    by (unfold sy; destruct (Z.ltb_spec y0 y1); lia).
  destruct (lineLoop_spec (Line.deltaX x0 x1) (Line.deltaX y0 y1)
              (Z.abs (x1 - x0)) (Z.abs (y1 - y0)) sx sy x1 y1
              E1 E2 ltac:(lia) ltac:(lia) Hsx Hsy Hx1 Hy1 fuel
              (Z.abs (x1 - x0)) (Z.abs (y1 - y0))
              ltac:(lia) ltac:(lia) Hfuel)
    as (ps & E & Hh & Hl & Hc & Hn).
  rewrite <- Ex, <- Ey in E, Hh.
  replace (Z.abs (x1 - x0) - Z.abs (y1 - y0)
           - Z.abs (y1 - y0) * Z.abs (x1 - x0)
           + Z.abs (x1 - x0) * Z.abs (y1 - y0))
    with (Z.abs (x1 - x0) - Z.abs (y1 - y0)) in E by ring.
  exists ps. split; [exact E |]. split; [exact Hh |].
  split; [| split; [exact Hc | exact Hn]].
  rewrite <- Hl. apply last_default. intros ->. discriminate.
Qed.

Lemma draw_line_reaches_target_witness :
  (- 2 ^ 29 <= 3 <= 2 ^ 29) /\ (- 2 ^ 29 <= 10 <= 2 ^ 29)
  /\ (- 2 ^ 29 <= 9 <= 2 ^ 29) /\ (- 2 ^ 29 <= 6 <= 2 ^ 29)
  /\ Line.exactDeltas 3 10 9 6
  /\ Z.abs (9 - 3) + Z.abs (6 - 10) < Z.of_nat 11
  /\ exists pixels,
       Line.drawLine 11 3 10 9 6 = Some pixels
       /\ hd_error pixels = Some (3, 10)
       /\ last pixels (3, 10) = (9, 6)
       /\ Line.chain (Line.towards 9 6) pixels
       /\ Z.of_nat (length pixels) <= Z.abs (9 - 3) + Z.abs (6 - 10) + 1.
Proof.
  assert (H1 : - 2 ^ 29 <= 3 <= 2 ^ 29) by lia.
  assert (H2 : - 2 ^ 29 <= 10 <= 2 ^ 29) by lia.
  assert (H3 : - 2 ^ 29 <= 9 <= 2 ^ 29) by lia.
  assert (H4 : - 2 ^ 29 <= 6 <= 2 ^ 29) by lia.
  assert (H5 : Line.exactDeltas 3 10 9 6)
    by (repeat split; vm_compute; reflexivity).
  assert (H6 : Z.abs (9 - 3) + Z.abs (6 - 10) < Z.of_nat 11) by (cbn; lia).
  repeat (split; [assumption |]).
  exact (draw_line_reaches_target 3 10 9 6 11 H1 H2 H3 H4 H5 H6).
Defined.

(** ** The conversions are exact on an image's coordinates *)
Section TableFacts.

Import F64 Line.

Lemma checkRow_spec (fd nfd : float) (hi lo : list float) :
  checkRow fd nfd hi lo = true ->
  forall (i : nat) (fa fb : float),
    nth_error hi i = Some fa -> nth_error lo i = Some fb ->
    (fa - fb)%float = fd /\ (fb - fa)%float = nfd.
Proof.
  revert lo. induction hi as [| a hi IH]; intros [| b lo] H i fa fb Ha Hb;
    try (destruct i; discriminate).
  cbn [checkRow] in H.
  apply andb_prop in H as [H Hrest]. apply andb_prop in H as [H1 H2].
  destruct i as [| i]; cbn [nth_error] in Ha, Hb.
  - injection Ha as <-. injection Hb as <-.
    split; now apply FloatAxioms.Leibniz.eqb_spec.
  - exact (IH lo Hrest i fa fb Ha Hb).
Qed.

Lemma checkDiagonals_spec (pd nd hi lo : list float) :
  checkDiagonals pd nd hi lo = true ->
  forall (d i : nat) (fd nfd fa fb : float),
    nth_error pd d = Some fd -> nth_error nd d = Some nfd ->
    nth_error hi (d + i) = Some fa -> nth_error lo i = Some fb ->
    (fa - fb)%float = fd /\ (fb - fa)%float = nfd.
Proof.
  revert nd hi. induction pd as [| p pd IH]; intros [| q nd] hi H d i
    fd nfd fa fb Hd Hnd Ha Hb; try (destruct d; discriminate).
  cbn [checkDiagonals] in H. apply andb_prop in H as [Hrow Hrest].
  destruct d as [| d]; cbn [nth_error] in Hd, Hnd.
  - injection Hd as <-. injection Hnd as <-.
    exact (checkRow_spec _ _ _ _ Hrow i fa fb Ha Hb).
  - apply (IH nd (tl hi) Hrest d i fd nfd fa fb Hd Hnd); [| exact Hb].
    destruct hi as [| h hi]; [discriminate | exact Ha].
Qed.

Lemma floatsUpTo_nth (n k : nat) :
  (k < n)%nat -> nth_error (floatsUpTo n) k = Some (of_Z (Z.of_nat k)).
Proof.
  intros H. unfold floatsUpTo.
  rewrite nth_error_map, nth_error_seq.
  destruct (Nat.ltb_spec k n); [reflexivity | lia].
Qed.

Lemma floatsDownTo_nth (n k : nat) :
  (k < n)%nat -> nth_error (floatsDownTo n) k = Some (of_Z (- Z.of_nat k)).
Proof.
  intros H. unfold floatsDownTo.
  rewrite nth_error_map, nth_error_seq.
  destruct (Nat.ltb_spec k n); [reflexivity | lia].
Qed.

(** What the two checks give for a table of [n] entries. *)
Variable n : nat.
Hypothesis differences : differencesExact n = true.
Hypothesis roundTrips : roundTripsExact n = true.

Lemma of_Z_sub_le (a b : Z) :
  0 <= b <= a -> a < Z.of_nat n ->
  (of_Z a - of_Z b)%float = of_Z (a - b)
  /\ (of_Z b - of_Z a)%float = of_Z (b - a).
Proof.
  intros Hb Ha.
  pose proof (checkDiagonals_spec _ _ _ _ differences
                (Z.to_nat (a - b)) (Z.to_nat b)
                (of_Z (a - b)) (of_Z (b - a)) (of_Z a) (of_Z b)) as H.
  apply H.
  - rewrite floatsUpTo_nth by lia. now rewrite Z2Nat.id by lia.
  - rewrite floatsDownTo_nth by lia. rewrite Z2Nat.id by lia.
    do 2 f_equal. lia.
  - rewrite floatsUpTo_nth by lia. do 2 f_equal. lia.
  - rewrite floatsUpTo_nth by lia. now rewrite Z2Nat.id by lia.
Qed.

Lemma of_Z_sub (a b : Z) :
  0 <= a < Z.of_nat n -> 0 <= b < Z.of_nat n ->
  (of_Z a - of_Z b)%float = of_Z (a - b).
Proof.
  intros Ha Hb. destruct (Z_le_gt_dec b a) as [H | H].
  - destruct (of_Z_sub_le a b) as [E _]; [lia | lia | exact E].
  - destruct (of_Z_sub_le b a) as [_ E]; [lia | lia | exact E].
Qed.

Lemma round_trip (z : Z) :
  0 <= z < Z.of_nat n ->
  math_Abs (of_Z z) = of_Z z /\ math_Abs (of_Z (- z)) = of_Z z
  /\ to_int (of_Z z) = z /\ to_int (of_Z (- z)) = - z.
Proof.
  intros Hz. pose proof roundTrips as H. unfold roundTripsExact in H.
  rewrite forallb_forall in H. specialize (H (Z.to_nat z)).
  rewrite Z2Nat.id in H by lia.
  assert (Hin : In (Z.to_nat z) (seq 0 n)) by (apply in_seq; lia).
  apply H in Hin.
  apply andb_prop in Hin as [Hin H4]. apply andb_prop in Hin as [Hin H3].
  apply andb_prop in Hin as [H1 H2].
  apply FloatAxioms.Leibniz.eqb_spec in H1, H2.
  apply Z.eqb_eq in H3, H4. auto.
Qed.

Lemma to_int_of_Z (z : Z) :
  - Z.of_nat n < z < Z.of_nat n -> to_int (of_Z z) = z.
Proof.
  intros Hz. destruct (Z_le_gt_dec 0 z).
  - apply round_trip. lia.
  - replace z with (- - z) by lia.
    rewrite (proj2 (proj2 (proj2 (round_trip (- z) ltac:(lia))))). lia.
Qed.

Lemma deltaX_exact (x0 x1 : Z) :
  0 <= x0 < Z.of_nat n -> 0 <= x1 < Z.of_nat n ->
  Z.of_nat n <= 2 ^ 62 ->
  deltaX x0 x1 = of_Z (Z.abs (x1 - x0)).
Proof.
  intros H0 H1 Hn. unfold deltaX.
  rewrite GoIntFacts.sub_small
    by (unfold GoInt.in_range, GoInt.min_int, GoInt.max_int; lia).
  destruct (Z_le_gt_dec 0 (x1 - x0)) as [Hle | Hgt].
  - rewrite Z.abs_eq by lia. apply round_trip. lia.
  - rewrite Z.abs_neq by lia.
    replace (x1 - x0) with (- - (x1 - x0)) at 1 by lia.
    apply round_trip. lia.
Qed.

Lemma exactDeltas_table (x0 y0 x1 y1 : Z) :
  Z.of_nat n <= 2 ^ 62 ->
  0 <= x0 < Z.of_nat n -> 0 <= y0 < Z.of_nat n ->
  0 <= x1 < Z.of_nat n -> 0 <= y1 < Z.of_nat n ->
  exactDeltas x0 y0 x1 y1.
Proof.
  intros Hn Hx0 Hy0 Hx1 Hy1. unfold exactDeltas.
  rewrite !deltaX_exact by assumption.
  rewrite of_Z_sub by lia.
  split; [apply to_int_of_Z; lia |]. split; apply to_int_of_Z; lia.
Qed.

End TableFacts.

Lemma differences_2049 : Line.differencesExact 2049 = true.
Proof. vm_compute. reflexivity. Qed.

Lemma roundTrips_2049 : Line.roundTripsExact 2049 = true.
Proof. vm_compute. reflexivity. Qed.

(** X19: on an image's coordinates the detour of [drawLine] through
    [float64] loses nothing: for endpoints with coordinates from 0 to 2048
    (the 2048-pixel image of [plotLinks]), [int(dx)], [int(dy)] and
    [int(dx - dy)] are the integer distances and their difference. *)
Theorem image_deltas_exact (x0 y0 x1 y1 : Z) :
  0 <= x0 <= 2048 -> 0 <= y0 <= 2048 ->
  0 <= x1 <= 2048 -> 0 <= y1 <= 2048 ->
  Line.exactDeltas x0 y0 x1 y1.
Proof.
  intros Hx0 Hy0 Hx1 Hy1.
  assert (Hn : Z.of_nat 2049 = 2049) by reflexivity.
  apply (exactDeltas_table 2049 differences_2049 roundTrips_2049);
    rewrite Hn; lia.
Qed.

Lemma image_deltas_exact_witness :
  (0 <= 2048 <= 2048) /\ (0 <= 0 <= 2048)
  /\ (0 <= 17 <= 2048) /\ (0 <= 2048 <= 2048)
  /\ Line.exactDeltas 2048 0 17 2048.
Proof.
  assert (H1 : 0 <= 2048 <= 2048) by lia.
  assert (H2 : 0 <= 0 <= 2048) by lia.
  assert (H3 : 0 <= 17 <= 2048) by lia.
  repeat (split; [assumption |]).
  exact (image_deltas_exact 2048 0 17 2048 H1 H2 H3 H1).
Defined.
